(** * ffmpeg-converter: the HLS transcode handler of [index.js]

    A shallow embedding of the Lambda handler that turns one uploaded video
    into an HLS rendition ladder, and the properties of its specification
    checked against it.

    - JavaScript strings are sequences of UTF-16 code units: [list N].
    - JavaScript objects used as property bags ([resolutions], [playlists])
      are finite maps from property names to values; reading a property that
      was never set gives [undefined].
    - The handler is a computation in a state-and-exception monad over the
      local file system, the process environment and the trace of calls made
      to the outside world (object store, encoder process, message topic).
      The outside world is a record of oracles.
    - Console output is not part of the model. *)

From stdpp Require Import gmap strings list fin_maps sorting.
From Stdlib Require Import ZArith NArith Lia Ascii.
From Stdlib Require DecimalString DecimalN.

Local Open Scope N_scope.

(** ** JavaScript strings *)

Abbreviation jsstring := (list N).

(** An ASCII literal as a sequence of code units. *)
Definition js (s : string) : jsstring := N_of_ascii <$> String.list_ascii_of_string s.

Definition CHAR_FORWARD_SLASH : N := 47.
Definition CHAR_DOT : N := 46.
Definition CHAR_HYPHEN : N := 45.
Definition CHAR_UNDERSCORE : N := 95.
Definition CHAR_PLUS : N := 43.
Definition CHAR_SPACE : N := 32.
Definition CHAR_PERCENT : N := 37.

Definition in_range (lo hi c : N) : bool := (lo <=? c) && (c <=? hi).

(** [String.prototype.replace] with a global pattern that is one character
    class followed by [+]: every maximal run of characters of the class is
    replaced by [by_]. [in_run] tells that the previous character belonged to
    a run already replaced. *)
Fixpoint replace_runs (cls : N -> bool) (by_ : jsstring) (in_run : bool)
    (s : jsstring) : jsstring :=
  match s with
  | [] => []
  | c :: rest =>
      if cls c then
        if in_run then replace_runs cls by_ true rest
        else by_ ++ replace_runs cls by_ true rest
      else c :: replace_runs cls by_ false rest
  end.

(** [String.prototype.replace] with a global pattern that is a single
    character class: every character of the class is replaced by [by_]. *)
Definition replace_each (cls : N -> bool) (by_ : jsstring) (s : jsstring) : jsstring :=
  List.concat ((fun c => if cls c then by_ else [c]) <$> s).

(** ** sanitizeFilename (index.js, lines 20-25) *)

(** The class [[A-Za-z0-9._]]. *)
Definition allowed (c : N) : bool :=
  in_range 65 90 c || in_range 97 122 c || in_range 48 57 c
  || (c =? CHAR_DOT) || (c =? CHAR_UNDERSCORE).

Definition is_hyphen (c : N) : bool := c =? CHAR_HYPHEN.

(** [.replace(/^-|-$|_$/g, "")]: the pattern is an alternation of three
    one-character matches, tried at each position from left to right: a hyphen
    at the start of the input, a hyphen at the end of the input, an underscore
    at the end of the input. [at_start] tells that the position is index 0;
    the position is the last one when nothing follows it. *)
Fixpoint trim_ends (at_start : bool) (s : jsstring) : jsstring :=
  match s with
  | [] => []
  | c :: rest =>
      let at_end := match rest with [] => true | _ => false end in
      if (at_start && is_hyphen c)
         || (at_end && is_hyphen c)
         || (at_end && (c =? CHAR_UNDERSCORE))
      then trim_ends false rest
      else c :: trim_ends false rest
  end.

Definition sanitizeFilename (filename : jsstring) : jsstring :=
  trim_ends true
    (replace_runs is_hyphen (js "-") false
       (replace_runs (fun c => negb (allowed c)) (js "-") false filename)).

(** ** JavaScript built-ins used by the handler *)

Module JS.

(** [s.charCodeAt(i)], for [i] within the string. *)
Definition charCodeAt (s : jsstring) (i : nat) : N := default 0 (s !! i).

(** [String.prototype.slice(from, to)]: negative indices count from the end,
    indices are clamped to the string. *)
Definition slice (s : jsstring) (from to : Z) : jsstring :=
  let len := Z.of_nat (length s) in
  let f := if (from <? 0)%Z then Z.max (len + from) 0 else Z.min from len in
  let t := if (to <? 0)%Z then Z.max (len + to) 0 else Z.min to len in
  take (Z.to_nat (t - f)) (drop (Z.to_nat f) s).

(** [String.prototype.lastIndexOf] for a one-character needle; -1 if absent. *)
Fixpoint lastIndexOf_from (c : N) (s : jsstring) (i : Z) (found : Z) : Z :=
  match s with
  | [] => found
  | d :: rest => lastIndexOf_from c rest (i + 1) (if d =? c then i else found)
  end.

Definition lastIndexOf (s : jsstring) (c : N) : Z := lastIndexOf_from c s 0 (-1).

(** [String.prototype.split] with a one-character separator. [cur] is the
    piece being read, in reverse. *)
Fixpoint split_from (sep : N) (s : jsstring) (cur : jsstring) : list jsstring :=
  match s with
  | [] => [rev cur]
  | c :: rest =>
      if c =? sep then rev cur :: split_from sep rest []
      else split_from sep rest (c :: cur)
  end.

Definition split (sep : N) (s : jsstring) : list jsstring := split_from sep s [].

(** [Array.prototype.join]. *)
Fixpoint join (sep : jsstring) (parts : list jsstring) : jsstring :=
  match parts with
  | [] => []
  | [p] => p
  | p :: rest => p ++ sep ++ join sep rest
  end.

(** Decimal digits of an integer, as [Number.prototype.toString] prints every
    integer below 10^21 in absolute value. *)
Definition decimal (z : Z) : jsstring :=
  js (DecimalString.NilZero.string_of_int (Z.to_int z)).

(** Numbers: the handler only computes with the integers that [parseInt]
    returns; [None] is [NaN]. The model is exact for integers below 2^53 in
    absolute value. *)
Abbreviation number := (option Z).

Definition number_to_string (x : number) : jsstring :=
  match x with
  | None => js "NaN"
  | Some z => decimal z
  end.

Definition times (x : number) (k : Z) : number := (fun z => z * k)%Z <$> x.

(** The text of [x / 2] for an integer [x]: the quotient is an integer or an
    integer plus one half. *)
Definition half_to_string (x : number) : jsstring :=
  match x with
  | None => js "NaN"
  | Some z =>
      if Z.even z then decimal (Z.quot z 2)
      else (if (z <? 0)%Z then js "-" else []) ++ decimal (Z.quot (Z.abs z) 2) ++ js ".5"
  end.

(** White space and line terminators skipped by [parseInt]. *)
Definition is_whitespace (c : N) : bool :=
  in_range 9 13 c || (c =? 32) || (c =? 160) || (c =? 0x1680)
  || in_range 0x2000 0x200A c || (c =? 0x2028) || (c =? 0x2029)
  || (c =? 0x202F) || (c =? 0x205F) || (c =? 0x3000) || (c =? 0xFEFF).

(** The value of a character as a digit, up to radix 36. *)
Definition digit_value (c : N) : option N :=
  if in_range 48 57 c then Some (c - 48)
  else if in_range 65 90 c then Some (c - 55)
  else if in_range 97 122 c then Some (c - 87)
  else None.

Fixpoint skip_whitespace (s : jsstring) : jsstring :=
  match s with
  | c :: rest => if is_whitespace c then skip_whitespace rest else s
  | [] => []
  end.

(** The longest prefix of radix-[r] digits, most significant first. *)
Fixpoint digits_prefix (r : N) (s : jsstring) : list N :=
  match s with
  | c :: rest =>
      match digit_value c with
      | Some d => if d <? r then d :: digits_prefix r rest else []
      | None => []
      end
  | [] => []
  end.

Definition digits_value (r : N) (ds : list N) : N :=
  fold_left (fun acc d => acc * r + d) ds 0.

(** [parseInt(string, radix)]; [radix = None] is a call without radix. *)
Definition parseInt (s : jsstring) (radix : option N) : number :=
  let s := skip_whitespace s in
  let '(sign, s) :=
    match s with
    | c :: rest =>
        if c =? CHAR_HYPHEN then ((-1)%Z, rest)
        else if c =? CHAR_PLUS then (1%Z, rest)
        else (1%Z, s)
    | [] => (1%Z, s)
    end in
  let r0 := default 0 radix in
  if negb (r0 =? 0) && ((r0 <? 2) || (36 <? r0)) then None
  else
    let stripPrefix := (r0 =? 0) || (r0 =? 16) in
    let r := if r0 =? 0 then 10 else r0 in
    let '(r, s) :=
      match s with
      | z :: x :: rest =>
          if stripPrefix && (z =? 48) && ((x =? 120) || (x =? 88)) then (16, rest)
          else (r, s)
      | _ => (r, s)
      end in
    match digits_prefix r s with
    | [] => None
    | ds => Some (sign * Z.of_N (digits_value r ds))%Z
    end.

(** *** decodeURIComponent

    [None] stands for the [URIError] that the built-in throws on a malformed
    escape sequence. *)

Definition hex_value (c : N) : option N :=
  match digit_value c with
  | Some d => if d <? 16 then Some d else None
  | None => None
  end.

(** The octet written [%XY] at the head of [s], and what follows it. *)
Definition parse_escape (s : jsstring) : option (N * jsstring) :=
  match s with
  | p :: h :: l :: rest =>
      if p =? CHAR_PERCENT then
        match hex_value h, hex_value l with
        | Some a, Some b => Some (16 * a + b, rest)
        | _, _ => None
        end
      else None
  | _ => None
  end.

Fixpoint parse_escapes (n : nat) (s : jsstring) : option (list N * jsstring) :=
  match n with
  | O => Some ([], s)
  | S n =>
      match parse_escape s with
      | Some (b, rest) =>
          match parse_escapes n rest with
          | Some (bs, rest') => Some (b :: bs, rest')
          | None => None
          end
      | None => None
      end
  end.

(** Number of leading one bits of an octet (5 stands for five or more). *)
Definition leading_ones (b : N) : nat :=
  if b <? 0x80 then 0
  else if b <? 0xC0 then 1
  else if b <? 0xE0 then 2
  else if b <? 0xF0 then 3
  else if b <? 0xF8 then 4
  else 5.

Definition is_continuation (b : N) : bool := in_range 0x80 0xBF b.

(** The code point encoded by the lead octet [b] of an [n]-octet UTF-8
    sequence and its continuation octets, when the sequence is well formed:
    shortest form, no surrogate, at most U+10FFFF. *)
Definition utf8_code_point (n : nat) (b : N) (conts : list N) : option N :=
  if forallb is_continuation conts then
    let lead :=
      match n with
      | 2%nat => b - 0xC0
      | 3%nat => b - 0xE0
      | _ => b - 0xF0
      end in
    let cp := fold_left (fun acc c => acc * 64 + (c - 0x80)) conts lead in
    let lowest :=
      match n with
      | 2%nat => 0x80
      | 3%nat => 0x800
      | _ => 0x10000
      end in
    if (lowest <=? cp) && (cp <=? 0x10FFFF) && negb (in_range 0xD800 0xDFFF cp)
    then Some cp else None
  else None.

Definition utf16_encode (cp : N) : jsstring :=
  if cp <? 0x10000 then [cp]
  else [0xD800 + (cp - 0x10000) / 0x400; 0xDC00 + (cp - 0x10000) mod 0x400].

(** One iteration of the decoding loop consumes at least one code unit, so
    [fuel = length s] iterations are enough (see [decode_fuel]). *)
Fixpoint decode (fuel : nat) (s : jsstring) : option jsstring :=
  match s with
  | [] => Some []
  | c :: rest =>
      match fuel with
      | O => None
      | S fuel =>
          if c =? CHAR_PERCENT then
            match parse_escape s with
            | None => None
            | Some (b, rest1) =>
                match leading_ones b with
                | 0%nat => cons b <$> decode fuel rest1
                | 1%nat => None
                | S (S (S (S (S _)))) => None
                | S k as n =>
                    match parse_escapes k rest1 with
                    | None => None
                    | Some (conts, rest2) =>
                        match utf8_code_point n b conts with
                        | None => None
                        | Some cp => app (utf16_encode cp) <$> decode fuel rest2
                        end
                    end
                end
            end
          else cons c <$> decode fuel rest
      end
  end.

Definition decodeURIComponent (s : jsstring) : option jsstring :=
  decode (length s) s.

End JS.

(** ** Node's [path] module, POSIX flavour

    [basename], [extname] and [join] follow the loops of Node's [lib/path.js];
    a loop that runs an index down from [length - 1] to 0 is a recursion on
    [n = i + 1], and [break] returns the variables read after the loop. *)

Module Path.

Import JS.

Local Open Scope Z_scope.

Fixpoint extname_loop (path : jsstring) (n : nat)
    (startDot startPart end_ : Z) (matchedSlash : bool) (preDotState : Z)
    : Z * Z * Z * Z :=
  match n with
  | O => (startDot, startPart, end_, preDotState)
  | S i =>
      let code := charCodeAt path i in
      if (code =? CHAR_FORWARD_SLASH)%N then
        if negb matchedSlash then (startDot, Z.of_nat i + 1, end_, preDotState)
        else extname_loop path i startDot startPart end_ matchedSlash preDotState
      else
        let '(matchedSlash, end_) :=
          if end_ =? -1 then (false, Z.of_nat i + 1) else (matchedSlash, end_) in
        let '(startDot, preDotState) :=
          if (code =? CHAR_DOT)%N then
            if startDot =? -1 then (Z.of_nat i, preDotState)
            else if negb (preDotState =? 1) then (startDot, 1)
            else (startDot, preDotState)
          else if negb (startDot =? -1) then (startDot, -1)
          else (startDot, preDotState) in
        extname_loop path i startDot startPart end_ matchedSlash preDotState
  end.

Definition extname (path : jsstring) : jsstring :=
  let '(startDot, startPart, end_, preDotState) :=
    extname_loop path (length path) (-1) 0 (-1) true 0 in
  if (startDot =? -1) || (end_ =? -1) || (preDotState =? 0)
     || ((preDotState =? 1) && (startDot =? end_ - 1) && (startDot =? startPart + 1))
  then []
  else slice path startDot end_.

(** The loop of [basename] when a non-empty suffix is given. *)
Fixpoint basename_suffix_loop (path suffix : jsstring) (n : nat)
    (start end_ : Z) (matchedSlash : bool) (extIdx firstNonSlashEnd : Z)
    : Z * Z * Z :=
  match n with
  | O => (start, end_, firstNonSlashEnd)
  | S i =>
      let code := charCodeAt path i in
      if (code =? CHAR_FORWARD_SLASH)%N then
        if negb matchedSlash then (Z.of_nat i + 1, end_, firstNonSlashEnd)
        else basename_suffix_loop path suffix i start end_ matchedSlash extIdx
               firstNonSlashEnd
      else
        let '(matchedSlash, firstNonSlashEnd) :=
          if firstNonSlashEnd =? -1 then (false, Z.of_nat i + 1)
          else (matchedSlash, firstNonSlashEnd) in
        let '(extIdx, end_) :=
          if 0 <=? extIdx then
            if (code =? charCodeAt suffix (Z.to_nat extIdx))%N then
              if extIdx - 1 =? -1 then (extIdx - 1, Z.of_nat i)
              else (extIdx - 1, end_)
            else (-1, firstNonSlashEnd)
          else (extIdx, end_) in
        basename_suffix_loop path suffix i start end_ matchedSlash extIdx
          firstNonSlashEnd
  end.

(** The loop of [basename] without suffix. *)
Fixpoint basename_loop (path : jsstring) (n : nat)
    (start end_ : Z) (matchedSlash : bool) : Z * Z :=
  match n with
  | O => (start, end_)
  | S i =>
      if (charCodeAt path i =? CHAR_FORWARD_SLASH)%N then
        if negb matchedSlash then (Z.of_nat i + 1, end_)
        else basename_loop path i start end_ matchedSlash
      else if end_ =? -1 then basename_loop path i start (Z.of_nat i + 1) false
      else basename_loop path i start end_ matchedSlash
  end.

(** [path.basename(path, suffix)]; [suffix = None] is a call without suffix. *)
Definition basename (path : jsstring) (suffix : option jsstring) : jsstring :=
  let plain :=
    let '(start, end_) := basename_loop path (length path) 0 (-1) true in
    if end_ =? -1 then [] else slice path start end_ in
  match suffix with
  | Some suffix =>
      if (0 <? length suffix)%nat && (length suffix <=? length path)%nat then
        if bool_decide (suffix = path) then []
        else
          let '(start, end_, firstNonSlashEnd) :=
            basename_suffix_loop path suffix (length path) 0 (-1) true
              (Z.of_nat (length suffix) - 1) (-1) in
          let end_ :=
            if start =? end_ then firstNonSlashEnd
            else if end_ =? -1 then Z.of_nat (length path)
            else end_ in
          slice path start end_
      else plain
  | None => plain
  end.

(** [normalizeString(path, allowAboveRoot, "/", isPosixPathSeparator)]: the
    loop runs [i] from 0 to [length path] included; [fuel] counts the
    iterations left. [code] keeps its value from one iteration to the next. *)
Fixpoint normalizeString_loop (path : jsstring) (allowAboveRoot : bool)
    (fuel : nat) (i : Z) (res : jsstring)
    (lastSegmentLength lastSlash dots : Z) (code : N) : jsstring :=
  match fuel with
  | O => res
  | S fuel =>
      let next := normalizeString_loop path allowAboveRoot fuel (i + 1) in
      let len := Z.of_nat (length path) in
      let rlen := Z.of_nat (length res) in
      let body (code : N) :=
        if (code =? CHAR_FORWARD_SLASH)%N then
          if (lastSlash =? i - 1) || (dots =? 1) then
            next res lastSegmentLength i 0 code
          else if dots =? 2 then
            let above :=
              if allowAboveRoot then
                next (res ++ (if 0 <? rlen then js "/.." else js "..")) 2 i 0 code
              else next res lastSegmentLength i 0 code in
            if (rlen <? 2) || negb (lastSegmentLength =? 2)
               || negb (charCodeAt res (Z.to_nat (rlen - 1)) =? CHAR_DOT)%N
               || negb (charCodeAt res (Z.to_nat (rlen - 2)) =? CHAR_DOT)%N
            then
              if 2 <? rlen then
                let lastSlashIndex := lastIndexOf res CHAR_FORWARD_SLASH in
                if lastSlashIndex =? -1 then next [] 0 i 0 code
                else
                  let res' := slice res 0 lastSlashIndex in
                  next res'
                    (Z.of_nat (length res') - 1 - lastIndexOf res' CHAR_FORWARD_SLASH)
                    i 0 code
              else if negb (rlen =? 0) then next [] 0 i 0 code
              else above
            else above
          else
            let segment := slice path (lastSlash + 1) i in
            next (if 0 <? rlen then res ++ js "/" ++ segment else segment)
              (i - lastSlash - 1) i 0 code
        else if (code =? CHAR_DOT)%N && negb (dots =? -1) then
          next res lastSegmentLength lastSlash (dots + 1) code
        else next res lastSegmentLength lastSlash (-1) code in
      if i <? len then body (charCodeAt path (Z.to_nat i))
      else if (code =? CHAR_FORWARD_SLASH)%N then res
      else body CHAR_FORWARD_SLASH
  end.

Definition normalizeString (path : jsstring) (allowAboveRoot : bool) : jsstring :=
  normalizeString_loop path allowAboveRoot (S (length path)) 0 [] 0 (-1) 0 0%N.

(** [path.normalize]. *)
Definition normalize (path : jsstring) : jsstring :=
  match path with
  | [] => js "."
  | first :: _ =>
      let isAbsolute := (first =? CHAR_FORWARD_SLASH)%N in
      let trailingSeparator :=
        (charCodeAt path (length path - 1) =? CHAR_FORWARD_SLASH)%N in
      let path := normalizeString path (negb isAbsolute) in
      match path with
      | [] =>
          if isAbsolute then js "/"
          else if trailingSeparator then js "./" else js "."
      | _ =>
          let path := if trailingSeparator then path ++ js "/" else path in
          if isAbsolute then js "/" ++ path else path
      end
  end.

(** [path.join(...args)]: the non-empty arguments joined by [/], normalized. *)
Definition join (args : list jsstring) : jsstring :=
  match filter (fun arg => (0 <? length arg)%nat = true) args with
  | [] => js "."
  | parts => normalize (JS.join (js "/") parts)
  end.

End Path.

(** ** Regular expressions

    The patterns tested with [RegExp.prototype.test] are matched by
    derivatives. A pattern written [/^r$/] without flags accepts a string
    exactly when the whole string belongs to the language of [r]. *)

Module Regex.

Inductive regex :=
| Void
| Eps
| Class (cls : N -> bool)
| Seq (r1 r2 : regex)
| Alt (r1 r2 : regex)
| Star (r : regex).

Definition Chr (c : N) : regex := Class (N.eqb c).
Definition Plus (r : regex) : regex := Seq r (Star r).

Fixpoint Lit (s : jsstring) : regex :=
  match s with
  | [] => Eps
  | c :: rest => Seq (Chr c) (Lit rest)
  end.

Fixpoint nullable (r : regex) : bool :=
  match r with
  | Void => false
  | Eps => true
  | Class _ => false
  | Seq r1 r2 => nullable r1 && nullable r2
  | Alt r1 r2 => nullable r1 || nullable r2
  | Star _ => true
  end.

Fixpoint deriv (c : N) (r : regex) : regex :=
  match r with
  | Void => Void
  | Eps => Void
  | Class cls => if cls c then Eps else Void
  | Seq r1 r2 =>
      if nullable r1 then Alt (Seq (deriv c r1) r2) (deriv c r2)
      else Seq (deriv c r1) r2
  | Alt r1 r2 => Alt (deriv c r1) (deriv c r2)
  | Star r => Seq (deriv c r) (Star r)
  end.

Fixpoint matches (r : regex) (s : jsstring) : bool :=
  match s with
  | [] => nullable r
  | c :: rest => matches (deriv c r) rest
  end.

(** The language of a pattern. *)
Inductive lang : regex -> jsstring -> Prop :=
| lang_eps : lang Eps []
| lang_class cls c : cls c = true -> lang (Class cls) [c]
| lang_seq r1 r2 s1 s2 : lang r1 s1 -> lang r2 s2 -> lang (Seq r1 r2) (s1 ++ s2)
| lang_alt_l r1 r2 s : lang r1 s -> lang (Alt r1 r2) s
| lang_alt_r r1 r2 s : lang r2 s -> lang (Alt r1 r2) s
| lang_star_nil r : lang (Star r) []
| lang_star_app r s1 s2 : lang r s1 -> lang (Star r) s2 -> lang (Star r) (s1 ++ s2).

End Regex.

(** ** Values and objects *)

Inductive value :=
| VUndefined
| VString (s : jsstring)
| VNumber (n : Z).

(** An object literal: its own properties. *)
Abbreviation object := (gmap string value).

(** [o.p]: [undefined] when the object has no such property. *)
Definition get (o : object) (p : string) : value := default VUndefined (o !! p).

(** The text a value takes inside a template literal. *)
Definition to_string (v : value) : jsstring :=
  match v with
  | VUndefined => js "undefined"
  | VString s => s
  | VNumber n => JS.decimal n
  end.

(** ** The local file system

    Entries are keyed by absolute path without trailing slash. The [fs] calls
    of the handler are modelled as they behave on the handler's own working
    set: writing creates or replaces a file, removing deletes the entry. *)

Inductive node :=
| File (body : jsstring)
| Directory.

Abbreviation filesystem := (gmap jsstring node).

Module Fs.

Fixpoint starts_with (p s : jsstring) : bool :=
  match p, s with
  | [], _ => true
  | c :: p', d :: s' => (c =? d) && starts_with p' s'
  | _ :: _, [] => false
  end.

Fixpoint drop_slashes (r : jsstring) : jsstring :=
  match r with
  | c :: rest => if c =? CHAR_FORWARD_SLASH then drop_slashes rest else r
  | [] => []
  end.

(** The entry a path names: trailing slashes do not count. *)
Definition entry (p : jsstring) : jsstring :=
  match drop_slashes (rev p) with
  | [] => p
  | r => rev r
  end.

(** [k] is the entry [d] or lies below it. *)
Definition within (d k : jsstring) : bool :=
  bool_decide (k = d) || starts_with (d ++ js "/") k.

Definition existsSync (p : jsstring) (fs : filesystem) : bool :=
  bool_decide (is_Some (fs !! entry p)).

Definition writeFileSync (p : jsstring) (body : jsstring) (fs : filesystem) : filesystem :=
  <[entry p := File body]> fs.

Definition mkdirSync (p : jsstring) (fs : filesystem) : filesystem :=
  <[entry p := Directory]> fs.

Definition unlinkSync (p : jsstring) (fs : filesystem) : filesystem :=
  delete (entry p) fs.

(** [fs.rmSync(p, { recursive: true, force: true })]. *)
Definition rmSync (p : jsstring) (fs : filesystem) : filesystem :=
  filter (fun kv => within (entry p) kv.1 = false) fs.

(** The name of [k] as a direct child of the directory entry [d]. *)
Definition child_name (d k : jsstring) : option jsstring :=
  if starts_with (d ++ js "/") k then
    let name := drop (length d + 1) k in
    if bool_decide (name <> []) && forallb (fun c => negb (c =? CHAR_FORWARD_SLASH)) name
    then Some name else None
  else None.

(** [fs.readdirSync(p)]: the names of the direct children, in the order of the
    store. *)
Definition readdirSync (p : jsstring) (fs : filesystem) : list jsstring :=
  omap (fun kv => child_name (entry p) kv.1) (map_to_list fs).

(** What [fs.createReadStream(p)] delivers. *)
Definition read (p : jsstring) (fs : filesystem) : jsstring :=
  match fs !! entry p with
  | Some (File body) => body
  | _ => []
  end.

End Fs.

(** ** The outside world, the state and the monad of the handler *)

(** The triggering event: [event.Records[0].s3]. *)
Record s3_event := {
  bucket_name : jsstring;
  object_key : jsstring
}.

(** The completion message. *)
Record response := {
  statusCode : Z;
  message : jsstring;
  uniqueKey : value;
  masterPlaylist : jsstring
}.

(** What one run of the encoder leaves behind: its exit code, the bodies of
    the segments it wrote (segment [i] goes to the [-hls_segment_filename]
    pattern with [%03d] replaced by [i]) and the body of the rendition
    playlist if it wrote one. *)
Record encoder_run := {
  exit_code : Z;
  segments : list jsstring;
  playlist_body : option jsstring
}.

(** The collaborators of the handler. *)
Record world := {
  (** [s3.getObject]: the body of the object, or nothing when the request fails *)
  s3_getObject : jsstring -> jsstring -> option jsstring;
  (** the encoder, started with a command line on a file system *)
  ffmpeg : jsstring -> filesystem -> encoder_run;
  (** [s3.upload]: whether the upload of a body to a bucket and key succeeds *)
  s3_upload : jsstring -> jsstring -> jsstring -> bool;
  (** [topic.publish]: whether publishing to a project and topic succeeds *)
  pubsub_publish : value -> value -> response -> bool;
  (** [Buffer.from(_, "base64").toString("utf-8")] *)
  base64_decode : jsstring -> jsstring
}.

(** The constants read from the environment when the module is loaded. *)
Record config := {
  PROJECT_ID : value;
  PUBSUB_TOPIC : value;
  CLOUDFRONT_URL : value
}.

Inductive error :=
| MissingServiceKey
| URIError
| InvalidSourceKey (sourceKey : jsstring)
| GetObjectError (bucket key : jsstring)
| ExecError (cmd : jsstring) (code : Z)
| UploadError (bucket key : jsstring)
| PublishError.

(** What the handler does, in order: its calls to the local file system that
    change it, and its calls to the outside world. *)
Inductive event :=
| EvWriteFile (path body : jsstring)
| EvMkdir (path : jsstring)
| EvUnlink (path : jsstring)
| EvRm (path : jsstring)
| EvGetObject (bucket key : jsstring)
| EvExec (command : jsstring)
| EvUpload (bucket key body : jsstring)
| EvPublish (projectId topicId : value) (msg : response).

(** [playlists] is the array that the handler allocates and fills with
    [push]; it lives in the state so that it can be observed when the handler
    throws. *)
Record state := {
  fs : filesystem;
  env : gmap string jsstring;
  playlists : list object;
  trace : list event
}.

Inductive result (A : Type) :=
| Ok (a : A)
| Throw (e : error).
Arguments Ok {A} a.
Arguments Throw {A} e.

Definition M (A : Type) : Type := state -> result A * state.

#[global] Instance M_ret : MRet M := fun A a s => (Ok a, s).

#[global] Instance M_bind : MBind M := fun A B f m s =>
  match m s with
  | (Ok a, s') => f a s'
  | (Throw e, s') => (Throw e, s')
  end.

Definition throw {A} (e : error) : M A := fun s => (Throw e, s).

(** [try { body } catch (error) { handler error }] *)
Definition try_catch {A} (body : M A) (handler : error -> M A) : M A := fun s =>
  match body s with
  | (Ok a, s') => (Ok a, s')
  | (Throw e, s') => handler e s'
  end.

(** [try { body } finally { final }]: [final] runs on every outcome of
    [body]; the outcome of [body] stands unless [final] throws. *)
Definition try_finally {A} (body : M A) (final : M unit) : M A := fun s =>
  let '(r, s') := body s in
  match final s' with
  | (Ok _, s'') => (r, s'')
  | (Throw e, s'') => (Throw e, s'')
  end.

(** State updates. *)
Definition with_fs (f : filesystem -> filesystem) (s : state) : state :=
  {| fs := f (fs s); env := env s; playlists := playlists s; trace := trace s |}.

Definition with_env (f : gmap string jsstring -> gmap string jsstring) (s : state)
    : state :=
  {| fs := fs s; env := f (env s); playlists := playlists s; trace := trace s |}.

Definition with_playlists (l : list object) (s : state) : state :=
  {| fs := fs s; env := env s; playlists := l; trace := trace s |}.

Definition log (e : event) (s : state) : state :=
  {| fs := fs s; env := env s; playlists := playlists s; trace := trace s ++ [e] |}.

Definition get_fs : M filesystem := fun s => (Ok (fs s), s).

Definition modify_fs (f : filesystem -> filesystem) : M unit := fun s =>
  (Ok tt, with_fs f s).

Definition getenv (name : string) : M (option jsstring) := fun s =>
  (Ok (env s !! name), s).

Definition setenv (name : string) (v : jsstring) : M unit := fun s =>
  (Ok tt, with_env <[name := v]> s).

Definition get_playlists : M (list object) := fun s => (Ok (playlists s), s).

Definition set_playlists (l : list object) : M unit := fun s =>
  (Ok tt, with_playlists l s).

Definition emit (e : event) : M unit := fun s => (Ok tt, log e s).

Definition existsSync (p : jsstring) : M bool :=
  current ← get_fs; mret (Fs.existsSync p current).

Definition writeFileSync (p body : jsstring) : M unit :=
  emit (EvWriteFile p body);; modify_fs (Fs.writeFileSync p body).

Definition mkdirSync (p : jsstring) : M unit :=
  emit (EvMkdir p);; modify_fs (Fs.mkdirSync p).

Definition unlinkSync (p : jsstring) : M unit :=
  emit (EvUnlink p);; modify_fs (Fs.unlinkSync p).

Definition rmSync (p : jsstring) : M unit :=
  emit (EvRm p);; modify_fs (Fs.rmSync p).

Definition readdirSync (p : jsstring) : M (list jsstring) :=
  current ← get_fs; mret (Fs.readdirSync p current).

(** ** index.js *)

Definition FFMPEG_PATH : jsstring := js "/opt/bin/ffmpeg".
Definition TEMP_INPUT_FILE : jsstring := js "/tmp/input.mp4".
Definition TEMP_OUTPUT_DIR : jsstring := js "/tmp/output/".

Definition serviceKeyPath : jsstring := js "/tmp/gcp_service_key.json".

(** authenticateGCP (lines 28-44) *)
Definition authenticateGCP (w : world) : M unit :=
  try_catch
    (serviceKeyBase64 ← getenv "GCP_SERVICE_KEY";
     match serviceKeyBase64 with
     | None | Some [] => throw MissingServiceKey
     | Some key =>
         let serviceKeyJson := base64_decode w key in
         writeFileSync serviceKeyPath serviceKeyJson;;
         setenv "GOOGLE_APPLICATION_CREDENTIALS" serviceKeyPath
     end)
    (fun error => throw error).

(** publishToPubSub (lines 47-59) *)
Definition publishToPubSub (w : world) (projectId topicId : value)
    (msg : response) : M unit :=
  try_catch
    (emit (EvPublish projectId topicId msg);;
     if pubsub_publish w projectId topicId msg then mret tt
     else throw PublishError)
    (fun error => throw error).

(** [/^source\/[^/]+\/[^/]+\.[^/]+$/] (line 73) *)
Definition not_slash : Regex.regex :=
  Regex.Class (fun c => negb (c =? CHAR_FORWARD_SLASH)).

Definition sourceKeyPattern : Regex.regex :=
  Regex.Seq (Regex.Lit (js "source/"))
    (Regex.Seq (Regex.Plus not_slash)
       (Regex.Seq (Regex.Chr CHAR_FORWARD_SLASH)
          (Regex.Seq (Regex.Plus not_slash)
             (Regex.Seq (Regex.Chr CHAR_DOT) (Regex.Plus not_slash))))).

(** [decodeURIComponent(record.s3.object.key.replace(/\+/g, " "))] (line 69) *)
Definition sourceKey_of (key : jsstring) : option jsstring :=
  JS.decodeURIComponent (replace_each (N.eqb CHAR_PLUS) (js " ") key).

(** Lines 79-83. *)
Definition uniqueKey_of (sourceKey : jsstring) : value :=
  match JS.split CHAR_FORWARD_SLASH sourceKey !! 1%nat with
  | Some part => VString part
  | None => VUndefined
  end.

Definition rawFilename_of (sourceKey : jsstring) : jsstring :=
  Path.basename sourceKey (Some (Path.extname sourceKey)).

Definition baseFilename_of (sourceKey : jsstring) : jsstring :=
  sanitizeFilename (rawFilename_of sourceKey).

Definition targetPrefix_of (sourceKey : jsstring) : jsstring :=
  js "hls/" ++ to_string (uniqueKey_of sourceKey) ++ js "/"
  ++ baseFilename_of sourceKey ++ js "/".

(** The ladder (lines 103-107). *)
Definition resolutions : list object :=
  [ {[ "name" := VString (js "1080p"); "width" := VNumber 1920;
       "height" := VNumber 1080; "bitrate" := VString (js "5000k") ]};
    {[ "name" := VString (js "720p"); "width" := VNumber 1280;
       "height" := VNumber 720; "bitrate" := VString (js "3000k") ]};
    {[ "name" := VString (js "480p"); "width" := VNumber 854;
       "height" := VNumber 480; "bitrate" := VString (js "1500k") ]} ].

Definition quote : jsstring := [34].
Definition newline : jsstring := [10].

(** The indentation that follows each line continuation of the template. *)
Definition continuation : jsstring := replicate 20 CHAR_SPACE.

(** The command line (lines 116-123). *)
Definition ffmpeg_command (res : object) (segmentFilename playlist : jsstring)
    : jsstring :=
  let width := to_string (get res "width") in
  let height := to_string (get res "height") in
  let bitrate := to_string (get res "bitrate") in
  let factor :=
    js "min(1\,min(" ++ width ++ js "/iw\," ++ height ++ js "/ih))" in
  FFMPEG_PATH ++ js " -i " ++ TEMP_INPUT_FILE ++ js " " ++ continuation
  ++ js "-vf " ++ quote ++ js "scale=w=trunc(iw*" ++ factor
  ++ js "):h=trunc(ih*" ++ factor
  ++ js "):force_original_aspect_ratio=decrease,pad=ceil(iw/2)*2:ceil(ih/2)*2"
  ++ quote ++ js " " ++ continuation
  ++ js "-c:a aac -ar 48000 -b:a 128k " ++ continuation
  ++ js "-c:v h264 -profile:v main -preset veryslow -tune film -crf 23 "
  ++ continuation
  ++ js "-sc_threshold 0 -g 48 -keyint_min 48 " ++ continuation
  ++ js "-hls_time 4 -hls_playlist_type vod " ++ continuation
  ++ js "-b:v " ++ bitrate ++ js " -maxrate " ++ bitrate ++ js " -bufsize "
  ++ JS.half_to_string (JS.parseInt bitrate None) ++ js " " ++ continuation
  ++ js "-hls_segment_filename " ++ segmentFilename ++ js " " ++ playlist.

(** The encoder's expansion of [%03d] in the segment pattern. *)
Definition pad3 (i : nat) : jsstring :=
  let d := JS.decimal (Z.of_nat i) in
  replicate (3 - length d) 48 ++ d.

Fixpoint expand_pattern (pattern : jsstring) (i : nat) : jsstring :=
  match pattern with
  | [] => []
  | c :: rest =>
      if Fs.starts_with (js "%03d") pattern then pad3 i ++ drop 3 rest
      else c :: expand_pattern rest i
  end.

(** The files one run of the encoder writes. *)
Definition write_outputs (run : encoder_run) (segmentFilename playlist : jsstring)
    (fs : filesystem) : filesystem :=
  let fs :=
    fold_left
      (fun fs seg => Fs.writeFileSync (expand_pattern segmentFilename seg.1) seg.2 fs)
      (imap pair (segments run)) fs in
  match playlist_body run with
  | Some body => Fs.writeFileSync playlist body fs
  | None => fs
  end.

(** [exec(command, callback)] wrapped in a promise (lines 125-134): the
    promise is rejected with the error of [exec], which carries the command
    and the exit code, when the encoder exits with a non-zero code. *)
Definition exec_ffmpeg (w : world) (command segmentFilename playlist : jsstring)
    : M unit :=
  before ← get_fs;
  let run := ffmpeg w command before in
  emit (EvExec command);;
  modify_fs (write_outputs run segmentFilename playlist);;
  if (exit_code run =? 0)%Z then mret tt
  else throw (ExecError command (exit_code run)).

(** The body of the loop over the ladder (lines 110-141). The entry is
    pushed on [playlists] before the encoder runs. *)
Definition encode_one (w : world) (res : object) : M unit :=
  let playlist :=
    Path.join [TEMP_OUTPUT_DIR; to_string (get res "name") ++ js ".m3u8"] in
  pushed ← get_playlists;
  set_playlists
    (pushed ++ [ {[ "name" := get res "name"; "bitrate" := get res "bitrate";
                    "playlist" := VString playlist ]} ]);;
  try_catch
    (let segmentFilename :=
       Path.join [TEMP_OUTPUT_DIR; to_string (get res "name") ++ js "_%03d.ts"] in
     let command := ffmpeg_command res segmentFilename playlist in
     exec_ffmpeg w command segmentFilename playlist)
    (fun error => throw error).

(** [for (const res of resolutions) { ... }]: a throw leaves the loop. *)
Fixpoint encode_ladder (w : world) (ladder : list object) : M unit :=
  match ladder with
  | [] => mret tt
  | res :: rest => encode_one w res;; encode_ladder w rest
  end.

(** One entry of the master playlist (lines 147-150); [res] is an element of
    [playlists]. *)
Definition stream_inf (res : object) : jsstring :=
  js "#EXT-X-STREAM-INF:BANDWIDTH="
  ++ JS.number_to_string
       (JS.times (JS.parseInt (to_string (get res "bitrate")) (Some 10)) 1000)
  ++ js ",RESOLUTION=" ++ to_string (get res "width") ++ js "x"
  ++ to_string (get res "height") ++ newline
  ++ Path.basename (to_string (get res "playlist")) None.

(** The text written to [master.m3u8] (lines 145-154). *)
Definition master_playlist (entries : list object) : jsstring :=
  js "#EXTM3U" ++ newline ++ js "#EXT-X-VERSION:3" ++ newline
  ++ JS.join newline (stream_inf <$> entries).

(** The upload loop (lines 159-172). *)
Fixpoint upload_all (w : world) (targetBucket targetPrefix : jsstring)
    (files : list jsstring) : M unit :=
  match files with
  | [] => mret tt
  | file :: rest =>
      let filePath := Path.join [TEMP_OUTPUT_DIR; file] in
      let s3Key := Path.join [targetPrefix; file] in
      current ← get_fs;
      let body := Fs.read filePath current in
      emit (EvUpload targetBucket s3Key body);;
      (if s3_upload w targetBucket s3Key body then mret tt
       else throw (UploadError targetBucket s3Key));;
      upload_all w targetBucket targetPrefix rest
  end.

(** The [finally] block (lines 187-195). *)
Definition cleanup : M unit :=
  input_exists ← existsSync TEMP_INPUT_FILE;
  (if input_exists : bool then unlinkSync TEMP_INPUT_FILE else mret tt);;
  output_exists ← existsSync TEMP_OUTPUT_DIR;
  if output_exists : bool then rmSync TEMP_OUTPUT_DIR else mret tt.

(** The [try] block (lines 91-183). *)
Definition convert (w : world) (cfg : config) (sourceBucket sourceKey : jsstring)
    : M response :=
  let targetBucket := sourceBucket in
  let uniqueKey := uniqueKey_of sourceKey in
  let baseFilename := baseFilename_of sourceKey in
  let targetPrefix := targetPrefix_of sourceKey in
  emit (EvGetObject sourceBucket sourceKey);;
  match s3_getObject w sourceBucket sourceKey with
  | None => throw (GetObjectError sourceBucket sourceKey)
  | Some body =>
      writeFileSync TEMP_INPUT_FILE body;;
      output_exists ← existsSync TEMP_OUTPUT_DIR;
      (if negb output_exists then mkdirSync TEMP_OUTPUT_DIR else mret tt);;
      set_playlists [];;
      encode_ladder w resolutions;;
      let masterPlaylistPath := Path.join [TEMP_OUTPUT_DIR; js "master.m3u8"] in
      entries ← get_playlists;
      writeFileSync masterPlaylistPath (master_playlist entries);;
      files ← readdirSync TEMP_OUTPUT_DIR;
      upload_all w targetBucket targetPrefix files;;
      let response :=
        {| statusCode := 200;
           message := js "MP4 successfully converted to HLS and uploaded";
           uniqueKey := uniqueKey;
           masterPlaylist :=
             to_string (CLOUDFRONT_URL cfg) ++ js "/" ++ to_string uniqueKey
             ++ js "/" ++ baseFilename ++ js "/master.m3u8" |} in
      publishToPubSub w (PROJECT_ID cfg) (PUBSUB_TOPIC cfg) response;;
      mret response
  end.

(** exports.handler (lines 62-196). *)
Definition handler (w : world) (cfg : config) (ev : s3_event) : M response :=
  authenticateGCP w;;
  let sourceBucket := bucket_name ev in
  match sourceKey_of (object_key ev) with
  | None => throw URIError
  | Some sourceKey =>
      if negb (Regex.matches sourceKeyPattern sourceKey)
      then throw (InvalidSourceKey sourceKey)
      else
        try_finally
          (try_catch (convert w cfg sourceBucket sourceKey)
             (fun error => throw error))
          cleanup
  end.

(** The state in which an invocation starts. *)
Definition initial (files : filesystem) (vars : gmap string jsstring) : state :=
  {| fs := files; env := vars; playlists := []; trace := [] |}.

(** ** Notions of the specification *)

(** The sanitizer as the specification words it: the disallowed runs
    replaced and the hyphens collapsed, then one leading hyphen, one trailing
    hyphen and one trailing underscore trimmed, each in turn. *)
Definition collapsed (s : jsstring) : jsstring :=
  replace_runs is_hyphen (js "-") false
    (replace_runs (fun c => negb (allowed c)) (js "-") false s).

Definition strip_first_if (p : N -> bool) (s : jsstring) : jsstring :=
  match s with
  | c :: rest => if p c then rest else s
  | [] => []
  end.

Fixpoint strip_last_if (p : N -> bool) (s : jsstring) : jsstring :=
  match s with
  | [] => []
  | [c] => if p c then [] else [c]
  | c :: rest => c :: strip_last_if p rest
  end.

Definition is_underscore (c : N) : bool := c =? CHAR_UNDERSCORE.

Definition sanitize_in_turn (s : jsstring) : jsstring :=
  strip_last_if is_underscore
    (strip_last_if is_hyphen (strip_first_if is_hyphen (collapsed s))).

(** The characters trimmed at the end, and a string that ends in none. *)
Definition trims (c : N) : bool := is_hyphen c || is_underscore c.

Definition trimmed_end (s : jsstring) : bool :=
  match last s with
  | Some c => negb (trims c)
  | None => true
  end.

(** [source/<owner>/<base>.<ext>]: three non-empty parts without slash. *)
Definition segment (s : jsstring) : Prop :=
  s <> [] /\ Forall (fun c => c <> CHAR_FORWARD_SLASH) s.

Definition well_formed_key (k : jsstring) : Prop :=
  exists owner base ext,
    k = js "source/" ++ owner ++ js "/" ++ base ++ js "." ++ ext
    /\ segment owner /\ segment base /\ segment ext.

(** The credential variable holds a non-empty text. *)
Definition credentials_set (s : state) : bool :=
  match env s !! "GCP_SERVICE_KEY" with
  | Some (_ :: _) => true
  | _ => false
  end.

(** The stages of the orchestrator. *)
Inductive stage :=
| Credentials
| Fetch
| EncodeLadder
| SynthesizeMaster
| UploadAll
| Notify
| Cleanup.

Definition rank (st : stage) : nat :=
  match st with
  | Credentials => 0
  | Fetch => 1
  | EncodeLadder => 2
  | SynthesizeMaster => 3
  | UploadAll => 4
  | Notify => 5
  | Cleanup => 6
  end.

Definition masterPlaylistPath : jsstring := js "/tmp/output/master.m3u8".

(** The stage an action of the handler belongs to. *)
Definition stage_of (e : event) : stage :=
  match e with
  | EvWriteFile p _ =>
      if bool_decide (p = serviceKeyPath) then Credentials
      else if bool_decide (p = TEMP_INPUT_FILE) then Fetch
      else SynthesizeMaster
  | EvGetObject _ _ => Fetch
  | EvMkdir _ => EncodeLadder
  | EvExec _ => EncodeLadder
  | EvUpload _ _ _ => UploadAll
  | EvPublish _ _ _ => Notify
  | EvUnlink _ => Cleanup
  | EvRm _ => Cleanup
  end.

Definition in_stage_order (t : list event) : Prop :=
  StronglySorted le (rank <$> (stage_of <$> t)).

(** The entry that the loop pushes on [playlists] for a profile. *)
Definition pushed_entry (name bitrate : string) : object :=
  {[ "name" := VString (js name); "bitrate" := VString (js bitrate);
     "playlist" := VString (js "/tmp/output/" ++ js name ++ js ".m3u8") ]}.

Definition ladder_entries : list object :=
  [ pushed_entry "1080p" "5000k"; pushed_entry "720p" "3000k";
    pushed_entry "480p" "1500k" ].

(** The command lines of the three profiles. *)
Definition command_of (i : nat) (name : string) : jsstring :=
  ffmpeg_command (resolutions !!! i)
    (js "/tmp/output/" ++ js name ++ js "_%03d.ts")
    (js "/tmp/output/" ++ js name ++ js ".m3u8").

(** ** Notions used in the proofs *)

(** A string is tidy when it holds allowed characters and single hyphens only;
    [prev] tells that the character before it is a hyphen. *)
Fixpoint tidy (prev : bool) (s : jsstring) : bool :=
  match s with
  | [] => true
  | c :: rest =>
      if is_hyphen c then negb prev && tidy true rest
      else allowed c && tidy false rest
  end.

Definition head_ok (s : jsstring) : bool :=
  match s with
  | c :: _ => negb (is_hyphen c)
  | [] => true
  end.

Definition ends_underscore_hyphen (s : jsstring) : bool :=
  match rev s with
  | h :: u :: _ => is_hyphen h && is_underscore u
  | _ => false
  end.

Definition ends_with (suffix s : jsstring) : bool :=
  Fs.starts_with (rev suffix) (rev s).

(** One iteration of the ladder, told by its effect on the state. *)
Definition entry_of (res : object) : object :=
  {[ "name" := get res "name"; "bitrate" := get res "bitrate";
     "playlist" :=
       VString (Path.join [TEMP_OUTPUT_DIR; to_string (get res "name") ++ js ".m3u8"]) ]}.

Definition segment_pattern_of (res : object) : jsstring :=
  Path.join [TEMP_OUTPUT_DIR; to_string (get res "name") ++ js "_%03d.ts"].

Definition playlist_of (res : object) : jsstring :=
  Path.join [TEMP_OUTPUT_DIR; to_string (get res "name") ++ js ".m3u8"].

Definition command_for (res : object) : jsstring :=
  ffmpeg_command res (segment_pattern_of res) (playlist_of res).

Definition after_encode (w : world) (res : object) (s : state) : state :=
  let command := command_for res in
  {| fs := write_outputs (ffmpeg w command (fs s)) (segment_pattern_of res)
             (playlist_of res) (fs s);
     env := env s;
     playlists := playlists s ++ [entry_of res];
     trace := trace s ++ [EvExec command] |}.

Definition profile (i : nat) : object := resolutions !!! i.

(** The state after [authenticateGCP] when the credential variable is set. *)
Definition after_auth (w : world) (s : state) : state :=
  let json := base64_decode w (default [] (env s !! "GCP_SERVICE_KEY")) in
  with_env <["GOOGLE_APPLICATION_CREDENTIALS" := serviceKeyPath]>
    (with_fs (Fs.writeFileSync serviceKeyPath json)
       (log (EvWriteFile serviceKeyPath json) s)).

(** The state after the [finally] block. *)
Definition after_cleanup (s : state) : state :=
  let s1 :=
    if Fs.existsSync TEMP_INPUT_FILE (fs s)
    then with_fs (Fs.unlinkSync TEMP_INPUT_FILE) (log (EvUnlink TEMP_INPUT_FILE) s)
    else s in
  if Fs.existsSync TEMP_OUTPUT_DIR (fs s1)
  then with_fs (Fs.rmSync TEMP_OUTPUT_DIR) (log (EvRm TEMP_OUTPUT_DIR) s1)
  else s1.

(** The actions of an invocation that got past validation, stage by stage. *)
Definition run_shape (bucket key : jsstring) (t : list event) : Prop :=
  exists fetched made execs master uploads published cleaned,
    t = EvGetObject bucket key :: fetched ++ made ++ (EvExec <$> execs) ++ master
        ++ uploads ++ published ++ cleaned
    /\ Forall (fun e => exists body, e = EvWriteFile TEMP_INPUT_FILE body) fetched
    /\ Forall (fun e => e = EvMkdir TEMP_OUTPUT_DIR) made
    /\ Forall (fun e => e = EvWriteFile masterPlaylistPath (master_playlist ladder_entries))
         master
    /\ Forall (fun e => exists key body, e = EvUpload bucket key body) uploads
    /\ Forall (fun e => exists projectId topicId msg, e = EvPublish projectId topicId msg)
         published
    /\ Forall (fun e => e = EvUnlink TEMP_INPUT_FILE \/ e = EvRm TEMP_OUTPUT_DIR) cleaned.

(** ** Sample worlds *)

Definition sample_config : config :=
  {| PROJECT_ID := VString (js "project"); PUBSUB_TOPIC := VString (js "topic");
     CLOUDFRONT_URL := VString (js "https://cdn.example.com") |}.

Definition sample_env : gmap string jsstring := {[ "GCP_SERVICE_KEY" := js "e30=" ]}.

Definition sample_event (key : string) : s3_event :=
  {| bucket_name := js "videos"; object_key := js key |}.

(** Every collaborator succeeds; each profile gets two segments. *)
Definition good_world : world :=
  {| s3_getObject := fun _ _ => Some (js "video");
     ffmpeg := fun _ _ =>
       {| exit_code := 0; segments := [js "segment 0"; js "segment 1"];
          playlist_body := Some (js "#EXTM3U") |};
     s3_upload := fun _ _ _ => true;
     pubsub_publish := fun _ _ _ => true;
     base64_decode := fun _ => js "{}" |}.

(** The encoder fails on the second profile after writing one segment. *)
Definition failing_world : world :=
  {| s3_getObject := s3_getObject good_world;
     ffmpeg := fun command files =>
       if bool_decide (command = command_of 1 "720p")
       then {| exit_code := 1; segments := [js "segment 0"]; playlist_body := None |}
       else ffmpeg good_world command files;
     s3_upload := s3_upload good_world;
     pubsub_publish := pubsub_publish good_world;
     base64_decode := base64_decode good_world |}.

(** A file system in which an earlier invocation left its working set. *)
Definition stale_files : filesystem :=
  {[ js "/tmp/input.mp4" := File (js "old video");
     js "/tmp/output" := Directory;
     js "/tmp/output/1080p.m3u8" := File (js "old playlist") ]}.

(** The states between the stages of the guarded block. *)
Definition fetched_state (body bucket key : jsstring) (s : state) : state :=
  with_fs (Fs.writeFileSync TEMP_INPUT_FILE body)
    (log (EvWriteFile TEMP_INPUT_FILE body) (log (EvGetObject bucket key) s)).

Definition ready_state (s : state) : state :=
  with_playlists []
    (if Fs.existsSync TEMP_OUTPUT_DIR (fs s) then s
     else with_fs (Fs.mkdirSync TEMP_OUTPUT_DIR) (log (EvMkdir TEMP_OUTPUT_DIR) s)).

Definition synthesized_state (s : state) : state :=
  let text := master_playlist (playlists s) in
  with_fs (Fs.writeFileSync masterPlaylistPath text)
    (log (EvWriteFile masterPlaylistPath text) s).

Definition response_of (cfg : config) (sourceKey : jsstring) : response :=
  {| statusCode := 200;
     message := js "MP4 successfully converted to HLS and uploaded";
     uniqueKey := uniqueKey_of sourceKey;
     masterPlaylist :=
       to_string (CLOUDFRONT_URL cfg) ++ js "/" ++ to_string (uniqueKey_of sourceKey)
       ++ js "/" ++ baseFilename_of sourceKey ++ js "/master.m3u8" |}.

(** A character that is neither a slash nor a dot. *)
Definition plain (c : N) : Prop := c <> CHAR_FORWARD_SLASH /\ c <> CHAR_DOT.

(** Actions whose stages lie between two ranks and follow the stage order. *)
Definition staged (lo hi : nat) (t : list event) : Prop :=
  Forall (fun e => (lo <= rank (stage_of e) <= hi)%nat) t /\ in_stage_order t.

(** The lines of a master playlist for the three profiles: the two header
    lines, then for each profile a stream-information line that starts with
    its bandwidth, followed by the bare name of its playlist. *)
Definition master_lines (text : jsstring) : Prop :=
  exists a1 a2 a3,
    JS.split 10 text
    = [ js "#EXTM3U"; js "#EXT-X-VERSION:3";
        js "#EXT-X-STREAM-INF:BANDWIDTH=5000000," ++ a1; js "1080p.m3u8";
        js "#EXT-X-STREAM-INF:BANDWIDTH=3000000," ++ a2; js "720p.m3u8";
        js "#EXT-X-STREAM-INF:BANDWIDTH=1500000," ++ a3; js "480p.m3u8" ].

(** ** Further notions *)

(** What the sanitizer lets through: characters of the class and hyphens, no
    hyphen next to another one. *)
Definition name_alphabet (s : jsstring) : Prop :=
  Forall (fun c => allowed c = true \/ c = CHAR_HYPHEN) s.

Definition single_hyphens (s : jsstring) : Prop :=
  forall i : nat, s !! i = Some CHAR_HYPHEN -> s !! S i <> Some CHAR_HYPHEN.

(** What [.replace(/\+/g, " ")] does to one character. *)
Definition plus_to_space (c : N) : N := if c =? CHAR_PLUS then CHAR_SPACE else c.

(** ** Paths as segments

    What [normalizeString] computes, told on the segments of the path: the
    stack holds the segments kept so far, the last one first. An empty
    segment and [.] are dropped; [..] removes the segment before it, and is
    kept only where there is none to remove and the path may climb above its
    start. *)
Definition resolve_step (allowAboveRoot : bool) (stack : list jsstring)
    (seg : jsstring) : list jsstring :=
  if bool_decide (seg = []) || bool_decide (seg = js ".") then stack
  else if bool_decide (seg = js "..") then
    match stack with
    | top :: below =>
        if bool_decide (top = js "..")
        then if allowAboveRoot then js ".." :: stack else stack
        else below
    | [] => if allowAboveRoot then [js ".."] else []
    end
  else seg :: stack.

Definition resolve (allowAboveRoot : bool) (segs : list jsstring) : list jsstring :=
  fold_left (resolve_step allowAboveRoot) segs [].

Definition render (stack : list jsstring) : jsstring := JS.join (js "/") (rev stack).

Definition slash_free (s : jsstring) : Prop := Forall (fun c => c <> CHAR_FORWARD_SLASH) s.

(** A name that stands for itself in a path. *)
Definition ordinary (s : jsstring) : Prop :=
  s <> [] /\ slash_free s /\ s <> js "." /\ s <> js "..".

(** The counter [dots] of [normalizeString] after one more character. *)
Definition count_dots (d : Z) (c : N) : Z :=
  if (c =? CHAR_DOT) && negb (d =? -1)%Z then (d + 1)%Z else (-1)%Z.

Definition top_length (stack : list jsstring) : Z :=
  match stack with
  | top :: _ => Z.of_nat (length top)
  | [] => 0%Z
  end.

(** The segments kept on the stack are not empty and hold no slash. *)
Definition kept (stack : list jsstring) : Prop :=
  Forall (fun seg => seg <> [] /\ slash_free seg) stack.

(** The call of [s3.upload] for one file of the listing. *)
Definition upload_of (bucket prefix : jsstring) (files : filesystem) (file : jsstring)
    : event :=
  EvUpload bucket (Path.join [prefix; file])
    (Fs.read (Path.join [TEMP_OUTPUT_DIR; file]) files).

(** Whether the object store takes the upload of one file of the listing. *)
Definition upload_accepted (w : world) (bucket prefix : jsstring) (files : filesystem)
    (file : jsstring) : bool :=
  s3_upload w bucket (Path.join [prefix; file])
    (Fs.read (Path.join [TEMP_OUTPUT_DIR; file]) files).


(** The object store has no such object. *)
Definition offline_world : world :=
  {| s3_getObject := fun _ _ => None;
     ffmpeg := ffmpeg good_world;
     s3_upload := s3_upload good_world;
     pubsub_publish := pubsub_publish good_world;
     base64_decode := base64_decode good_world |}.


(** An aborted invocation left a segment behind. *)
Definition leftover_files : filesystem :=
  {[ js "/tmp/output" := Directory;
     js "/tmp/output/old_000.ts" := File (js "old segment") ]}.

(** A decimal digit, as a character. *)
Definition is_digit (c : N) : bool := in_range 48 57 c.

(** The number written by a sequence of decimal digits. *)
Definition digits_number (ds : jsstring) : N :=
  fold_left (fun acc c => acc * 10 + (c - 48)) ds 0.

(** ** URL-encoded keys

    The form in which a key reaches the handler: a space is written [+], the
    characters of a set of unreserved ASCII characters are kept, and every
    other character is written as the percent-escaped octets of its UTF-8
    encoding. [keep] is the set of the characters kept. *)
Definition hex_digit (d : N) : N := if d <? 10 then 48 + d else 55 + d.

Definition percent_encode (b : N) : jsstring :=
  [CHAR_PERCENT; hex_digit (b / 16); hex_digit (b mod 16)].

Definition utf8_encode (cp : N) : list N :=
  if cp <? 0x80 then [cp]
  else if cp <? 0x800 then [0xC0 + cp / 64; 0x80 + cp mod 64]
  else if cp <? 0x10000
       then [0xE0 + cp / 64 / 64; 0x80 + (cp / 64) mod 64; 0x80 + cp mod 64]
       else [0xF0 + cp / 64 / 64 / 64; 0x80 + (cp / 64 / 64) mod 64;
             0x80 + (cp / 64) mod 64; 0x80 + cp mod 64].

(** A Unicode scalar value: a code point that is not a surrogate. *)
Definition scalar_value (cp : N) : bool :=
  (cp <=? 0x10FFFF) && negb (in_range 0xD800 0xDFFF cp).

Definition url_encode_char (keep : N -> bool) (cp : N) : jsstring :=
  if cp =? CHAR_SPACE then [CHAR_PLUS]
  else if keep cp then [cp]
  else List.concat (percent_encode <$> utf8_encode cp).

Definition url_encode (keep : N -> bool) (cps : list N) : jsstring :=
  List.concat (url_encode_char keep <$> cps).

(** * Properties *)

(** ** Built-ins *)

Lemma parse_escape_length s b rest :
  JS.parse_escape s = Some (b, rest) -> (length rest + 3 = length s)%nat.
Proof.
  unfold JS.parse_escape. destruct s as [|p [|h [|l s']]]; try done.
  destruct (p =? CHAR_PERCENT); [|done].
  destruct (JS.hex_value h), (JS.hex_value l); try done.
  intros [= _ <-]. cbn. lia.
Qed.

Lemma parse_escapes_length n s bs rest :
  JS.parse_escapes n s = Some (bs, rest) -> (length rest <= length s)%nat.
Proof.
  revert s bs rest. induction n as [|n IH]; intros s bs rest; cbn.
  - by intros [= _ <-].
  - destruct (JS.parse_escape s) as [[b rest1]|] eqn:E1; [|done].
    destruct (JS.parse_escapes n rest1) as [[bs' rest2]|] eqn:E2; [|done].
    intros [= _ <-]. apply parse_escape_length in E1. apply IH in E2. lia.
Qed.

(** The decoding loop never runs out of fuel: more fuel than the length of
    the string changes nothing. *)
Lemma decode_fuel fuel s :
  (length s <= fuel)%nat -> JS.decode fuel s = JS.decodeURIComponent s.
Proof.
  unfold JS.decodeURIComponent.
  assert (H : forall fuel s, (length s <= fuel)%nat ->
                             JS.decode fuel s = JS.decode (S fuel) s).
  { clear. induction fuel as [|fuel IH]; intros s Hs.
    - destruct s; [done|cbn in Hs; lia].
    - destruct s as [|c rest]; [done|].
      cbn [JS.decode]. cbn in Hs.
      destruct (c =? CHAR_PERCENT).
      + destruct (JS.parse_escape (c :: rest)) as [[b rest1]|] eqn:E1; [|done].
        apply parse_escape_length in E1. cbn in E1.
        destruct (JS.leading_ones b) as [|[|k]]; [|done|].
        * rewrite (IH rest1) by lia. done.
        * destruct k as [|[|[|k]]]; try done;
            (destruct (JS.parse_escapes _ rest1) as [[conts rest2]|] eqn:E2; [|done];
             apply parse_escapes_length in E2;
             destruct (JS.utf8_code_point _ b conts); [|done];
             rewrite (IH rest2) by lia; done).
      + rewrite (IH rest) by lia. done. }
  intros Hs. induction Hs as [|fuel Hs IH]; [done|].
  rewrite <- H by done. done.
Qed.

(** ** Stripping the extension *)

Lemma charCodeAt_middle (pre post : jsstring) (c : N) :
  JS.charCodeAt (pre ++ c :: post) (length pre) = c.
Proof. unfold JS.charCodeAt. by rewrite list_lookup_middle. Qed.

Lemma slice_middle (a b c : jsstring) :
  JS.slice (a ++ b ++ c) (Z.of_nat (length a)) (Z.of_nat (length (a ++ b))) = b.
Proof.
  unfold JS.slice. rewrite !length_app.
  repeat match goal with |- context [(?x <? 0)%Z] =>
    replace (x <? 0)%Z with false by (symmetry; apply Z.ltb_ge; lia) end.
  rewrite !Z.min_l by lia. rewrite Nat2Z.id.
  replace (Z.to_nat _) with (length b) by lia.
  rewrite drop_app_length, take_app_length. done.
Qed.

(** [extname]: a block of plain characters read after the end was found and
    before any dot changes nothing. *)
Lemma extname_plain (blk pre post : jsstring) (sp e : Z) :
  e <> (-1)%Z -> Forall plain blk ->
  Path.extname_loop (pre ++ blk ++ post) (length (pre ++ blk)) (-1) sp e false 0
  = Path.extname_loop (pre ++ blk ++ post) (length pre) (-1) sp e false 0.
Proof.
  intros He. revert post. induction blk as [|c blk IH] using rev_ind; intros post Hb.
  - by rewrite app_nil_r.
  - apply Forall_app in Hb as [Hb [[Hc1 Hc2] _]%Forall_cons].
    rewrite <- (app_assoc blk [c] post). cbn [app].
    rewrite (app_assoc pre blk [c]), length_app. cbn [length].
    rewrite Nat.add_1_r. cbn [Path.extname_loop].
    rewrite (app_assoc pre blk (c :: post)), charCodeAt_middle, <- app_assoc.
    apply N.eqb_neq in Hc1, Hc2. rewrite Hc1, Hc2.
    apply Z.eqb_neq in He. rewrite He. cbn. by apply IH.
Qed.

(** [extname]: the characters before the first dot found only set
    [preDotState], away from 0. *)
Lemma extname_stem (blk pre post : jsstring) (sd sp e pds : Z) :
  sd <> (-1)%Z -> e <> (-1)%Z ->
  Forall (fun c => c <> CHAR_FORWARD_SLASH) blk ->
  exists pds',
    Path.extname_loop (pre ++ blk ++ post) (length (pre ++ blk)) sd sp e false pds
    = Path.extname_loop (pre ++ blk ++ post) (length pre) sd sp e false pds'
    /\ (blk = [] -> pds' = pds) /\ (blk <> [] -> pds' <> 0%Z).
Proof.
  intros Hsd He. revert post pds.
  induction blk as [|c blk IH] using rev_ind; intros post pds Hb.
  - exists pds. by rewrite app_nil_r.
  - apply Forall_app in Hb as [Hb [Hc _]%Forall_cons].
    rewrite <- (app_assoc blk [c] post). cbn [app].
    rewrite (app_assoc pre blk [c]), length_app. cbn [length].
    rewrite Nat.add_1_r. cbn [Path.extname_loop].
    rewrite (app_assoc pre blk (c :: post)), charCodeAt_middle, <- app_assoc.
    apply N.eqb_neq in Hc. rewrite Hc.
    apply Z.eqb_neq in He, Hsd. rewrite He, Hsd. cbn [negb].
    set (pds1 := if c =? CHAR_DOT then if negb (pds =? 1)%Z then 1%Z else pds else (-1)%Z).
    assert (H1 : pds1 <> 0%Z).
    { subst pds1. destruct (c =? CHAR_DOT); [|done].
      destruct (pds =? 1)%Z eqn:E; cbn; [apply Z.eqb_eq in E; lia|done]. }
    destruct (IH (c :: post) pds1 Hb) as (pds' & Heq & Hnil & Hne).
    exists pds'. split; [|split].
    + rewrite <- Heq. subst pds1.
      destruct (c =? CHAR_DOT); [destruct (negb (pds =? 1)%Z)|]; reflexivity.
    + intros H. by apply app_eq_nil in H as [_ ?].
    + intros _. destruct blk; [by rewrite Hnil|]. by apply Hne.
Qed.

Ltac list_norm := rewrite <- ?app_assoc; cbn [app]; rewrite <- ?app_assoc.
Ltac length_norm := rewrite ?length_app; cbn [length]; lia.

Lemma extname_first (P pre : jsstring) (c : N) (n : nat) :
  P = pre ++ [c] -> n = S (length pre) -> plain c ->
  Path.extname_loop P n (-1) 0 (-1) true 0
  = Path.extname_loop P (length pre) (-1) 0 (Z.of_nat n) false 0.
Proof.
  intros -> -> [Hc1%N.eqb_neq Hc2%N.eqb_neq]. cbn [Path.extname_loop].
  rewrite charCodeAt_middle, Hc1, Hc2. cbn.
  by replace (Z.of_nat (length pre) + 1)%Z with (Z.pos (Pos.of_succ_nat (length pre))) by lia.
Qed.

Lemma extname_plain_at (P blk pre post : jsstring) (n : nat) (sp e : Z) :
  P = pre ++ blk ++ post -> n = (length pre + length blk)%nat ->
  e <> (-1)%Z -> Forall plain blk ->
  Path.extname_loop P n (-1) sp e false 0
  = Path.extname_loop P (length pre) (-1) sp e false 0.
Proof.
  intros -> -> He Hb. rewrite <- length_app. by apply extname_plain.
Qed.

Lemma extname_dot (P pre post : jsstring) (n : nat) (sp e : Z) :
  P = pre ++ CHAR_DOT :: post -> n = S (length pre) -> e <> (-1)%Z ->
  Path.extname_loop P n (-1) sp e false 0
  = Path.extname_loop P (length pre) (Z.of_nat (length pre)) sp e false 0.
Proof.
  intros -> -> He%Z.eqb_neq. cbn [Path.extname_loop].
  rewrite charCodeAt_middle, He. reflexivity.
Qed.

Lemma extname_stem_at (P blk pre post : jsstring) (n : nat) (sd sp e pds : Z) :
  P = pre ++ blk ++ post -> n = (length pre + length blk)%nat ->
  sd <> (-1)%Z -> e <> (-1)%Z -> blk <> [] ->
  Forall (fun c => c <> CHAR_FORWARD_SLASH) blk ->
  exists pds',
    Path.extname_loop P n sd sp e false pds
    = Path.extname_loop P (length pre) sd sp e false pds'
    /\ pds' <> 0%Z.
Proof.
  intros -> -> Hsd He Hne Hb. rewrite <- length_app.
  destruct (extname_stem blk pre post sd sp e pds Hsd He Hb) as (pds' & Heq & _ & H).
  exists pds'. auto.
Qed.

Lemma extname_slash (P pre post : jsstring) (n : nat) (sd sp e pds : Z) :
  P = pre ++ CHAR_FORWARD_SLASH :: post -> n = S (length pre) ->
  Path.extname_loop P n sd sp e false pds = (sd, (Z.of_nat (length pre) + 1)%Z, e, pds).
Proof.
  intros -> ->. cbn [Path.extname_loop]. rewrite charCodeAt_middle. reflexivity.
Qed.

(** The extension of [<dir>/<stem>.<ext>] is [.<ext>] when [ext] is not empty
    and holds neither dot nor slash. *)
Lemma extname_of_file (dir stem ext : jsstring) :
  stem <> [] -> Forall (fun c => c <> CHAR_FORWARD_SLASH) stem ->
  ext <> [] -> Forall plain ext ->
  Path.extname (dir ++ js "/" ++ stem ++ js "." ++ ext) = js "." ++ ext.
Proof.
  intros Hs Hsf He Hef. unfold Path.extname.
  change (js "/") with [CHAR_FORWARD_SLASH]. change (js ".") with [CHAR_DOT].
  set (P := dir ++ [CHAR_FORWARD_SLASH] ++ stem ++ [CHAR_DOT] ++ ext).
  destruct ext as [|c ext' _] using rev_ind; [done|].
  apply Forall_app in Hef as [Hef [Hc _]%Forall_cons].
  rewrite (extname_first P (dir ++ [CHAR_FORWARD_SLASH] ++ stem ++ [CHAR_DOT] ++ ext') c)
    by (done || (subst P; list_norm; reflexivity) || (subst P; length_norm)).
  rewrite (extname_plain_at P ext' (dir ++ [CHAR_FORWARD_SLASH] ++ stem ++ [CHAR_DOT]) [c])
    by (done || (subst P; list_norm; reflexivity) || length_norm).
  rewrite (extname_dot P (dir ++ [CHAR_FORWARD_SLASH] ++ stem) (ext' ++ [c]))
    by (done || (subst P; list_norm; reflexivity) || length_norm).
  destruct (extname_stem_at P stem (dir ++ [CHAR_FORWARD_SLASH]) (CHAR_DOT :: ext' ++ [c])
              (length (dir ++ [CHAR_FORWARD_SLASH] ++ stem))
              (Z.of_nat (length (dir ++ [CHAR_FORWARD_SLASH] ++ stem))) 0
              (Z.of_nat (length P)) 0)
    as (pds & -> & Hpds);
    try done; try (subst P; list_norm; reflexivity); try length_norm.
  rewrite (extname_slash P dir (stem ++ CHAR_DOT :: ext' ++ [c]))
    by ((subst P; list_norm; reflexivity) || length_norm).
  apply Z.eqb_neq in Hpds. rewrite Hpds.
  replace (_ =? -1)%Z with false by (symmetry; apply Z.eqb_neq; lia).
  replace (Z.of_nat (length P) =? -1)%Z with false by (symmetry; apply Z.eqb_neq; lia).
  replace (_ =? Z.of_nat (length P) - 1)%Z with false
    by (symmetry; apply Z.eqb_neq; subst P; rewrite !length_app; cbn [length]; lia).
  rewrite andb_false_r. cbn [orb andb].
  subst P.
  replace (dir ++ [CHAR_FORWARD_SLASH] ++ stem ++ [CHAR_DOT] ++ ext' ++ [c])
    with ((dir ++ [CHAR_FORWARD_SLASH] ++ stem) ++ ([CHAR_DOT] ++ ext' ++ [c]) ++ [])
    by (rewrite app_nil_r; list_norm; reflexivity).
  rewrite <- (slice_middle (dir ++ [CHAR_FORWARD_SLASH] ++ stem) ([CHAR_DOT] ++ ext' ++ [c]) [])
    at 3.
  f_equal. rewrite !length_app. cbn [length]. lia.
Qed.

(** The steps of [basename] with a suffix, read from the end of the path:
    the last character, the characters that match the suffix, the dot that
    completes the match, the rest of the last segment, the slash before it. *)
Lemma basename_first (P suffix pre sx : jsstring) (c : N) (n : nat) (x : Z) :
  P = pre ++ [c] -> suffix = sx ++ [c] -> sx <> [] -> n = S (length pre) ->
  x = (Z.of_nat (length suffix) - 1)%Z -> c <> CHAR_FORWARD_SLASH ->
  Path.basename_suffix_loop P suffix n 0 (-1) true x (-1)
  = Path.basename_suffix_loop P suffix (length pre) 0 (-1) false
      (Z.of_nat (length sx) - 1) (Z.of_nat n).
Proof.
  intros -> -> Hsx -> -> Hc%N.eqb_neq. cbn [Path.basename_suffix_loop].
  rewrite charCodeAt_middle, Hc. cbn [Z.eqb].
  rewrite length_app. cbn [length].
  replace (0 <=? Z.of_nat (length sx + 1) - 1)%Z with true
    by (symmetry; apply Z.leb_le; lia).
  replace (Z.to_nat (Z.of_nat (length sx + 1) - 1)) with (length sx) by lia.
  rewrite charCodeAt_middle, N.eqb_refl.
  replace (Z.of_nat (length sx + 1) - 1 - 1 =? -1)%Z with false
    by (symmetry; apply Z.eqb_neq; destruct sx; [done|cbn [length]; lia]).
  replace (Z.of_nat (length sx + 1) - 1 - 1)%Z with (Z.of_nat (length sx) - 1)%Z by lia.
  replace (Z.of_nat (length pre) + 1)%Z with (Z.of_nat (S (length pre))) by lia.
  reflexivity.
Qed.

Lemma basename_match (blk pre post sx spost : jsstring) (start e fnse : Z) :
  fnse <> (-1)%Z -> sx <> [] ->
  Forall (fun c => c <> CHAR_FORWARD_SLASH) blk ->
  Path.basename_suffix_loop (pre ++ blk ++ post) (sx ++ blk ++ spost)
    (length (pre ++ blk)) start e false (Z.of_nat (length (sx ++ blk)) - 1) fnse
  = Path.basename_suffix_loop (pre ++ blk ++ post) (sx ++ blk ++ spost)
      (length pre) start e false (Z.of_nat (length sx) - 1) fnse.
Proof.
  intros Hf Hsx. revert post spost.
  induction blk as [|c blk IH] using rev_ind; intros post spost Hb.
  - by rewrite !app_nil_r.
  - apply Forall_app in Hb as [Hb [Hc%N.eqb_neq _]%Forall_cons].
    rewrite <- !(app_assoc blk [c]). cbn [app].
    rewrite (app_assoc pre blk [c]), (app_assoc sx blk [c]), !(length_app _ [c]).
    cbn [length]. rewrite Nat.add_1_r. cbn [Path.basename_suffix_loop].
    rewrite (app_assoc pre blk (c :: post)), charCodeAt_middle, <- app_assoc, Hc.
    apply Z.eqb_neq in Hf. rewrite Hf.
    replace (0 <=? Z.of_nat (length (sx ++ blk) + 1) - 1)%Z with true
      by (symmetry; apply Z.leb_le; lia).
    replace (Z.to_nat (Z.of_nat (length (sx ++ blk) + 1) - 1)) with (length (sx ++ blk))
      by lia.
    rewrite (app_assoc sx blk (c :: spost)), charCodeAt_middle, <- app_assoc, N.eqb_refl.
    replace (Z.of_nat (length (sx ++ blk) + 1) - 1 - 1 =? -1)%Z with false
      by (symmetry; apply Z.eqb_neq; destruct sx; [done|];
          rewrite length_app; cbn [length]; lia).
    replace (Z.of_nat (length (sx ++ blk) + 1) - 1 - 1)%Z
      with (Z.of_nat (length (sx ++ blk)) - 1)%Z by lia.
    by apply IH.
Qed.

Lemma basename_match_at (P suffix blk pre post sx spost : jsstring) (n : nat)
    (start e x fnse : Z) :
  P = pre ++ blk ++ post -> suffix = sx ++ blk ++ spost ->
  n = (length pre + length blk)%nat ->
  x = (Z.of_nat (length sx + length blk) - 1)%Z ->
  fnse <> (-1)%Z -> sx <> [] ->
  Forall (fun c => c <> CHAR_FORWARD_SLASH) blk ->
  Path.basename_suffix_loop P suffix n start e false x fnse
  = Path.basename_suffix_loop P suffix (length pre) start e false
      (Z.of_nat (length sx) - 1) fnse.
Proof.
  intros -> -> -> -> Hf Hsx Hb. rewrite <- !length_app. by apply basename_match.
Qed.

Lemma basename_dot (P suffix pre post spost : jsstring) (n : nat) (start e x fnse : Z) :
  P = pre ++ CHAR_DOT :: post -> suffix = CHAR_DOT :: spost -> n = S (length pre) ->
  x = 0%Z -> fnse <> (-1)%Z ->
  Path.basename_suffix_loop P suffix n start e false x fnse
  = Path.basename_suffix_loop P suffix (length pre) start (Z.of_nat (length pre)) false
      (-1) fnse.
Proof.
  intros -> -> -> -> Hf%Z.eqb_neq. cbn [Path.basename_suffix_loop].
  rewrite charCodeAt_middle, Hf. reflexivity.
Qed.

Lemma basename_skip (blk pre post suffix : jsstring) (start e fnse : Z) :
  fnse <> (-1)%Z ->
  Forall (fun c => c <> CHAR_FORWARD_SLASH) blk ->
  Path.basename_suffix_loop (pre ++ blk ++ post) suffix (length (pre ++ blk))
    start e false (-1) fnse
  = Path.basename_suffix_loop (pre ++ blk ++ post) suffix (length pre)
      start e false (-1) fnse.
Proof.
  intros Hf%Z.eqb_neq. revert post.
  induction blk as [|c blk IH] using rev_ind; intros post Hb.
  - by rewrite !app_nil_r.
  - apply Forall_app in Hb as [Hb [Hc%N.eqb_neq _]%Forall_cons].
    rewrite <- !(app_assoc blk [c]). cbn [app].
    rewrite (app_assoc pre blk [c]), !(length_app _ [c]).
    cbn [length]. rewrite Nat.add_1_r. cbn [Path.basename_suffix_loop].
    rewrite (app_assoc pre blk (c :: post)), charCodeAt_middle, <- app_assoc, Hc, Hf.
    cbn. by apply IH.
Qed.

Lemma basename_skip_at (P suffix blk pre post : jsstring) (n : nat) (start e fnse : Z) :
  P = pre ++ blk ++ post -> n = (length pre + length blk)%nat ->
  fnse <> (-1)%Z -> Forall (fun c => c <> CHAR_FORWARD_SLASH) blk ->
  Path.basename_suffix_loop P suffix n start e false (-1) fnse
  = Path.basename_suffix_loop P suffix (length pre) start e false (-1) fnse.
Proof. intros -> -> Hf Hb. rewrite <- length_app. by apply basename_skip. Qed.

Lemma basename_slash (P suffix pre post : jsstring) (n : nat) (start e x fnse : Z) :
  P = pre ++ CHAR_FORWARD_SLASH :: post -> n = S (length pre) ->
  Path.basename_suffix_loop P suffix n start e false x fnse
  = ((Z.of_nat (length pre) + 1)%Z, e, fnse).
Proof.
  intros -> ->. cbn [Path.basename_suffix_loop]. rewrite charCodeAt_middle. reflexivity.
Qed.

(** The base name of [<dir>/<stem>.<ext>] without the suffix [.<ext>] is
    [stem]. *)
Lemma basename_of_file (dir stem ext : jsstring) :
  stem <> [] -> Forall (fun c => c <> CHAR_FORWARD_SLASH) stem ->
  ext <> [] -> Forall (fun c => c <> CHAR_FORWARD_SLASH) ext ->
  Path.basename (dir ++ js "/" ++ stem ++ js "." ++ ext) (Some (js "." ++ ext)) = stem.
Proof.
  intros Hs Hsf He Hef. unfold Path.basename.
  change (js "/") with [CHAR_FORWARD_SLASH]. change (js ".") with [CHAR_DOT].
  replace (0 <? length ([CHAR_DOT] ++ ext))%nat with true
    by (symmetry; apply Nat.ltb_lt; length_norm).
  replace (length ([CHAR_DOT] ++ ext) <=? length _)%nat with true
    by (symmetry; apply Nat.leb_le; length_norm).
  cbn [andb]. rewrite bool_decide_eq_false_2.
  2: { intros H%(f_equal length). rewrite !length_app in H. cbn [length] in H. lia. }
  destruct ext as [|c ext' _] using rev_ind; [done|].
  apply Forall_app in Hef as [Hef [Hc _]%Forall_cons].
  rewrite (basename_first _ _ (dir ++ [CHAR_FORWARD_SLASH] ++ stem ++ [CHAR_DOT] ++ ext')
             ([CHAR_DOT] ++ ext') c);
    [|list_norm; reflexivity|list_norm; reflexivity|done|length_norm|done|done].
  rewrite (basename_match_at _ _ ext' (dir ++ [CHAR_FORWARD_SLASH] ++ stem ++ [CHAR_DOT])
             [c] [CHAR_DOT] [c]);
    [|list_norm; reflexivity|list_norm; reflexivity|length_norm|length_norm|lia|done|done].
  rewrite (basename_dot _ _ (dir ++ [CHAR_FORWARD_SLASH] ++ stem) (ext' ++ [c]) (ext' ++ [c]));
    [|list_norm; reflexivity|reflexivity|length_norm|reflexivity|lia].
  rewrite (basename_skip_at _ _ stem (dir ++ [CHAR_FORWARD_SLASH]) (CHAR_DOT :: ext' ++ [c]));
    [|list_norm; reflexivity|length_norm|lia|done].
  rewrite (basename_slash _ _ dir (stem ++ CHAR_DOT :: ext' ++ [c]));
    [|list_norm; reflexivity|length_norm].
  replace (_ =? _)%Z with false
    by (symmetry; apply Z.eqb_neq; destruct stem; [done|];
        rewrite !length_app; cbn [length]; lia).
  replace (_ =? -1)%Z with false by (symmetry; apply Z.eqb_neq; lia).
  replace (dir ++ [CHAR_FORWARD_SLASH] ++ stem ++ [CHAR_DOT] ++ ext' ++ [c])
    with ((dir ++ [CHAR_FORWARD_SLASH]) ++ stem ++ (CHAR_DOT :: ext' ++ [c]))
    by (list_norm; reflexivity).
  rewrite <- (slice_middle (dir ++ [CHAR_FORWARD_SLASH]) stem (CHAR_DOT :: ext' ++ [c])) at 3.
  f_equal; rewrite !length_app; cbn [length]; lia.
Qed.

(** Stripping the extension: for a key whose file name is [<stem>.<ext>],
    with [ext] not empty and free of dots, the raw file name is [stem]. *)
Lemma rawFilename_strips_extension (dir stem ext : jsstring) :
  stem <> [] -> Forall (fun c => c <> CHAR_FORWARD_SLASH) stem ->
  ext <> [] -> Forall plain ext ->
  rawFilename_of (dir ++ js "/" ++ stem ++ js "." ++ ext) = stem.
Proof.
  intros Hs Hsf He Hef. unfold rawFilename_of.
  rewrite extname_of_file by done. apply basename_of_file; try done.
  apply (Forall_impl _ _ _ Hef). by intros c [? ?].
Qed.

(** ** The sanitizer *)

Lemma is_hyphen_eq c : is_hyphen c = true -> c = CHAR_HYPHEN.
Proof. unfold is_hyphen. apply N.eqb_eq. Qed.

Lemma hyphen_not_allowed c : is_hyphen c = true -> allowed c = false.
Proof. intros ->%is_hyphen_eq. reflexivity. Qed.

Lemma tidy_weaken s : tidy true s = true -> tidy false s = true.
Proof. destruct s as [|c rest]; simpl; [done|]. destruct (is_hyphen c); simpl; [done|done]. Qed.

Lemma replaced_tidy s b :
  tidy b (replace_runs (fun c => negb (allowed c)) (js "-") b s) = true.
Proof.
  revert b. induction s as [|c rest IH]; intros b; simpl; [done|].
  destruct (allowed c) eqn:Hc; simpl.
  - destruct (is_hyphen c) eqn:Hh.
    + apply hyphen_not_allowed in Hh. congruence.
    + rewrite Hc. apply IH.
  - destruct b; simpl; [apply IH|]. apply IH.
Qed.

Lemma tidy_replaced_id s b :
  tidy b s = true -> replace_runs (fun c => negb (allowed c)) (js "-") b s = s.
Proof.
  revert b. induction s as [|c rest IH]; intros b; simpl; [done|].
  destruct (is_hyphen c) eqn:Hh.
  - rewrite (hyphen_not_allowed _ Hh). simpl.
    intros [Hb Hr]%andb_true_iff. destruct b; [done|].
    apply is_hyphen_eq in Hh as ->. simpl. f_equal. by apply IH.
  - intros [Hc Hr]%andb_true_iff. rewrite Hc. simpl. f_equal. by apply IH.
Qed.

Lemma tidy_collapse_id s b :
  tidy b s = true -> replace_runs is_hyphen (js "-") b s = s.
Proof.
  revert b. induction s as [|c rest IH]; intros b; simpl; [done|].
  destruct (is_hyphen c) eqn:Hh.
  - intros [Hb Hr]%andb_true_iff. destruct b; [done|].
    apply is_hyphen_eq in Hh as ->. simpl. f_equal. by apply IH.
  - intros [Hc Hr]%andb_true_iff. f_equal. by apply IH.
Qed.

Lemma collapsed_tidy s : tidy false (collapsed s) = true.
Proof.
  unfold collapsed. rewrite tidy_collapse_id; apply replaced_tidy.
Qed.

Lemma tidy_strip_last p s b : tidy b s = true -> tidy b (strip_last_if p s) = true.
Proof.
  revert b. induction s as [|c rest IH]; intros b; [done|].
  destruct rest as [|d rest'].
  - simpl. destruct (p c); [done|]. simpl. done.
  - change (strip_last_if p (c :: d :: rest')) with (c :: strip_last_if p (d :: rest')).
    change (tidy b (c :: d :: rest')) with
      (if is_hyphen c then negb b && tidy true (d :: rest') else allowed c && tidy false (d :: rest')).
    change (tidy b (c :: strip_last_if p (d :: rest'))) with
      (if is_hyphen c then negb b && tidy true (strip_last_if p (d :: rest'))
       else allowed c && tidy false (strip_last_if p (d :: rest'))).
    destruct (is_hyphen c); intros [H1 H2]%andb_true_iff; rewrite H1, IH; done.
Qed.

(** The single pass of the third replacement, told by what it removes. *)
Lemma trim_ends_false s : trim_ends false s = strip_last_if trims s.
Proof.
  induction s as [|c rest IH]; [done|].
  destruct rest as [|d rest'].
  - simpl. unfold trims, is_underscore. destruct (is_hyphen c), (c =? CHAR_UNDERSCORE); done.
  - change (trim_ends false (c :: d :: rest')) with (c :: trim_ends false (d :: rest')).
    rewrite IH. done.
Qed.

Lemma trim_ends_true s :
  trim_ends true s = strip_last_if trims (strip_first_if is_hyphen s).
Proof.
  destruct s as [|c rest]; [done|].
  unfold strip_first_if. destruct (is_hyphen c) eqn:Hh.
  - simpl. rewrite Hh. simpl. apply trim_ends_false.
  - rewrite <- trim_ends_false. simpl. rewrite Hh. done.
Qed.

Lemma sanitize_single_pass s :
  sanitizeFilename s = strip_last_if trims (strip_first_if is_hyphen (collapsed s)).
Proof. unfold sanitizeFilename. rewrite trim_ends_true. done. Qed.

Lemma head_ok_strip_last p s : head_ok s = true -> head_ok (strip_last_if p s) = true.
Proof.
  destruct s as [|c [|d rest]]; simpl; [done| |done].
  destruct (p c); done.
Qed.

Lemma tidy_true_head s : tidy true s = true -> head_ok s = true.
Proof. destruct s as [|c rest]; simpl; [done|]. destruct (is_hyphen c); done. Qed.

Lemma head_ok_strip_first s : head_ok s = true -> strip_first_if is_hyphen s = s.
Proof. destruct s as [|c rest]; simpl; [done|]. destruct (is_hyphen c); done. Qed.

Lemma sanitize_tidy s :
  tidy false (sanitizeFilename s) = true /\ head_ok (sanitizeFilename s) = true.
Proof.
  rewrite sanitize_single_pass.
  pose proof (collapsed_tidy s) as Ht.
  destruct (collapsed s) as [|c rest]; [done|].
  unfold strip_first_if. simpl in Ht.
  destruct (is_hyphen c) eqn:Hh.
  - split.
    + apply tidy_strip_last, tidy_weaken, Ht.
    + apply head_ok_strip_last, tidy_true_head, Ht.
  - split.
    + apply tidy_strip_last. simpl. rewrite Hh. done.
    + apply head_ok_strip_last. simpl. rewrite Hh. done.
Qed.

Lemma strip_last_snoc p s c :
  strip_last_if p (s ++ [c]) = if p c then s else s ++ [c].
Proof.
  induction s as [|d rest IH]; [done|].
  destruct rest as [|e rest']; simpl in *.
  - destruct (p c); done.
  - rewrite IH. destruct (p c); done.
Qed.

Lemma strip_last_id s :
  strip_last_if trims s = s <-> trimmed_end s = true.
Proof.
  unfold trimmed_end.
  destruct s as [|d rest] using rev_ind; [done|].
  rewrite strip_last_snoc, last_snoc.
  destruct (trims d); simpl; split; try done.
  intros H%(f_equal length). rewrite length_app in H. simpl in H. lia.
Qed.

(** C3, as amended: sanitizing twice is sanitizing once for every input whose
    sanitized form does not end in a hyphen or an underscore. *)
Theorem sanitize_idempotent_when_trimmed (x : jsstring) :
  trimmed_end (sanitizeFilename x) = true ->
  sanitizeFilename (sanitizeFilename x) = sanitizeFilename x.
Proof.
  intros H. destruct (sanitize_tidy x) as [Ht Hh].
  rewrite (sanitize_single_pass (sanitizeFilename x)). unfold collapsed.
  rewrite (tidy_replaced_id _ _ Ht), (tidy_collapse_id _ _ Ht).
  rewrite (head_ok_strip_first _ Hh). by apply strip_last_id.
Qed.

Lemma sanitize_idempotent_witness :
  trimmed_end (sanitizeFilename (js "My Video (1)")) = true
  /\ sanitizeFilename (sanitizeFilename (js "My Video (1)"))
     = sanitizeFilename (js "My Video (1)").
Proof.
  split; [reflexivity|].
  apply (sanitize_idempotent_when_trimmed (js "My Video (1)")). reflexivity.
Defined.

(** The condition is the exact one: a sanitized form that ends in a hyphen or
    an underscore loses it on the second pass. *)
Lemma sanitize_idempotent_only_when_trimmed (x : jsstring) :
  sanitizeFilename (sanitizeFilename x) = sanitizeFilename x ->
  trimmed_end (sanitizeFilename x) = true.
Proof.
  intros H. destruct (sanitize_tidy x) as [Ht Hh].
  rewrite (sanitize_single_pass (sanitizeFilename x)) in H. unfold collapsed in H.
  rewrite (tidy_replaced_id _ _ Ht), (tidy_collapse_id _ _ Ht) in H.
  rewrite (head_ok_strip_first _ Hh) in H. by apply strip_last_id.
Qed.

(** C3, as stated, fails on the base name [x_-]: the first pass leaves [x_],
    the second [x]. *)
Lemma sanitize_not_idempotent :
  sanitizeFilename (sanitizeFilename (js "x_-")) <> sanitizeFilename (js "x_-").
Proof. vm_compute. discriminate. Qed.

(** The sanitizer agrees with the three trims taken in turn except when the
    collapsed form ends in an underscore followed by a hyphen. *)
Lemma trims_in_turn r :
  strip_last_if trims r = strip_last_if is_underscore (strip_last_if is_hyphen r)
  <-> ends_underscore_hyphen r = false.
Proof.
  destruct r as [|a t _] using rev_ind; [done|].
  unfold ends_underscore_hyphen, trims.
  rewrite !strip_last_snoc, rev_app_distr. simpl.
  destruct (is_hyphen a) eqn:Ha; simpl.
  - destruct t as [|u t' _] using rev_ind; [done|].
    rewrite strip_last_snoc, rev_app_distr. simpl.
    destruct (is_underscore u); split; try done.
    intros H%(f_equal length). rewrite length_app in H. simpl in H. lia.
  - rewrite strip_last_snoc.
    destruct (is_underscore a); destruct (rev t); done.
Qed.

Lemma ends_underscore_hyphen_tail h t :
  is_hyphen h = true -> ends_underscore_hyphen (h :: t) = ends_underscore_hyphen t.
Proof.
  intros Hh. unfold ends_underscore_hyphen. simpl.
  destruct (rev t) as [|a [|b l]]; simpl; [done| |done].
  apply is_hyphen_eq in Hh as ->. by rewrite andb_false_r.
Qed.

Lemma sanitize_in_turn_agrees s :
  sanitizeFilename s = sanitize_in_turn s
  <-> ends_underscore_hyphen (collapsed s) = false.
Proof.
  rewrite sanitize_single_pass. unfold sanitize_in_turn.
  rewrite trims_in_turn.
  destruct (collapsed s) as [|h t]; [done|].
  unfold strip_first_if. destruct (is_hyphen h) eqn:Hh; [|done].
  by rewrite ends_underscore_hyphen_tail.
Qed.

(** C5, as amended: for a key whose file name is [<stem>.<ext>], the base
    name is [stem] (the extension stripped) with every run of characters
    outside [A-Za-z0-9._] replaced by one hyphen and repeated hyphens
    collapsed, from which one pass removes a hyphen at the start and the last
    character when it is a hyphen or an underscore. The base name [x_-] gives
    [x_], and [My Video (1)] gives [My-Video-1]. *)
Theorem sanitize_steps (dir stem ext : jsstring) :
  stem <> [] -> Forall (fun c => c <> CHAR_FORWARD_SLASH) stem ->
  ext <> [] -> Forall plain ext ->
  let key := dir ++ js "/" ++ stem ++ js "." ++ ext in
  rawFilename_of key = stem
  /\ baseFilename_of key
     = strip_last_if trims (strip_first_if is_hyphen (collapsed stem))
  /\ (forall s,
        sanitizeFilename s
        = strip_last_if trims (strip_first_if is_hyphen (collapsed s)))
  /\ sanitizeFilename (js "My Video (1)") = js "My-Video-1"
  /\ sanitizeFilename (js "x_-") = js "x_".
Proof.
  intros Hs Hsf He Hef key.
  assert (Hraw : rawFilename_of key = stem) by (by apply rawFilename_strips_extension).
  split; [done|]. split.
  - unfold baseFilename_of. rewrite Hraw. apply sanitize_single_pass.
  - split; [apply sanitize_single_pass|]. split; reflexivity.
Qed.

Lemma sanitize_steps_witness :
  baseFilename_of (js "source/abc123/My Video (1).mp4") = js "My-Video-1".
Proof.
  destruct (sanitize_steps (js "source/abc123") (js "My Video (1)") (js "mp4"))
    as (_ & H & _).
  - discriminate.
  - vm_compute. repeat constructor; discriminate.
  - discriminate.
  - vm_compute. repeat constructor; discriminate.
  - exact H.
Defined.

(** C5, as stated, fails on the base name [x_-]: trimming in turn would leave
    [x], the code leaves [x_]. *)
Lemma sanitize_not_in_turn :
  sanitize_in_turn (js "x_-") = js "x"
  /\ sanitizeFilename (js "x_-") <> sanitize_in_turn (js "x_-").
Proof. split; [reflexivity|]. vm_compute. discriminate. Qed.

(** C4, as amended: underscores are allowed characters, so the file name
    [__weird__name_.mov] gives the base name [__weird__name]; only the last
    underscore goes. *)
Theorem sanitize_weird_name :
  rawFilename_of (js "__weird__name_.mov") = js "__weird__name_"
  /\ sanitizeFilename (js "__weird__name_") = js "__weird__name"
  /\ baseFilename_of (js "source/abc123/__weird__name_.mov") = js "__weird__name".
Proof. repeat split; reflexivity. Qed.

(** C4, as stated, fails: the base name is not [weird-name]. *)
Lemma sanitize_weird_name_not_hyphenated :
  sanitizeFilename (js "__weird__name_") <> js "weird-name".
Proof. vm_compute. discriminate. Qed.

(** ** Key validation *)

Module RegexFacts.

Import Regex.

Lemma lang_seq_inv r1 r2 s :
  lang (Seq r1 r2) s <-> exists s1 s2, s = s1 ++ s2 /\ lang r1 s1 /\ lang r2 s2.
Proof.
  split.
  - inversion 1; subst. eauto.
  - intros (s1 & s2 & -> & H1 & H2). by constructor.
Qed.

Lemma lang_alt_inv r1 r2 s : lang (Alt r1 r2) s <-> lang r1 s \/ lang r2 s.
Proof.
  split.
  - inversion 1; subst; auto.
  - intros [H|H]; [by apply lang_alt_l|by apply lang_alt_r].
Qed.

Lemma nullable_lang r : nullable r = true <-> lang r [].
Proof.
  induction r as [| |cls|r1 IH1 r2 IH2|r1 IH1 r2 IH2|r IH]; simpl.
  - split; [done|inversion 1].
  - split; [constructor|done].
  - split; [done|inversion 1].
  - rewrite andb_true_iff, IH1, IH2, lang_seq_inv. split.
    + intros [H1 H2]. exists [], []. done.
    + intros (s1 & s2 & Heq & H1 & H2). symmetry in Heq.
      apply app_eq_nil in Heq as [-> ->]. done.
  - rewrite orb_true_iff, IH1, IH2, lang_alt_inv. done.
  - split; [constructor|done].
Qed.

(** A non-empty word of a starred pattern starts with a non-empty word of the
    pattern. *)
Lemma lang_star_cons r c s :
  lang (Star r) (c :: s) ->
  exists s1 s2, s = s1 ++ s2 /\ lang r (c :: s1) /\ lang (Star r) s2.
Proof.
  intros H. remember (Star r) as r' eqn:Hr. remember (c :: s) as w eqn:Hw.
  revert s Hw. induction H as [| | | | | |r0 s1 s2 H1 _ H2 IH2]; intros s' Hw; try done.
  injection Hr as ->. destruct s1 as [|d s1'].
  - simpl in Hw. apply IH2; done.
  - injection Hw as -> <-. exists s1', s2. done.
Qed.

Lemma lang_class_inv cls s : lang (Class cls) s <-> exists c, s = [c] /\ cls c = true.
Proof.
  split.
  - inversion 1; subst. eauto.
  - intros (c & -> & Hc). by constructor.
Qed.

Lemma deriv_lang c r s : lang (deriv c r) s <-> lang r (c :: s).
Proof.
  revert s. induction r as [| |cls|r1 IH1 r2 IH2|r1 IH1 r2 IH2|r IH]; intros s; simpl.
  - split; inversion 1.
  - split; inversion 1.
  - rewrite lang_class_inv. destruct (cls c) eqn:Hc; split.
    + inversion 1; subst. eauto.
    + intros (d & [= -> ->] & _). constructor.
    + inversion 1.
    + intros (d & [= -> ->] & Hd). congruence.
  - assert (Hinv : lang (Seq r1 r2) (c :: s) <->
                   lang (Seq (deriv c r1) r2) s \/ (lang r1 [] /\ lang (deriv c r2) s)).
    { rewrite !lang_seq_inv. split.
      - intros (s1 & s2 & Heq & H1 & H2). destruct s1 as [|d s1'].
        + simpl in Heq. subst s2. right. split; [done|]. by apply IH2.
        + injection Heq as <- ->. left. exists s1', s2. rewrite IH1. done.
      - intros [(s1 & s2 & -> & H1 & H2)|[H1 H2]].
        + exists (c :: s1), s2. rewrite <- IH1. done.
        + exists [], (c :: s). rewrite <- IH2. done. }
    rewrite Hinv. destruct (nullable r1) eqn:Hn.
    + rewrite lang_alt_inv. apply nullable_lang in Hn. tauto.
    + split; [auto|]. intros [H|[H _]]; [done|].
      apply nullable_lang in H. congruence.
  - rewrite !lang_alt_inv, IH1, IH2. done.
  - rewrite lang_seq_inv. split.
    + intros (s1 & s2 & -> & H1 & H2). apply IH in H1.
      apply (lang_star_app _ (c :: s1) s2); done.
    + intros (s1 & s2 & -> & H1 & H2)%lang_star_cons.
      exists s1, s2. rewrite IH. done.
Qed.

(** The matcher decides the language. *)
Lemma matches_lang r s : matches r s = true <-> lang r s.
Proof.
  revert r. induction s as [|c s IH]; intros r; simpl.
  - apply nullable_lang.
  - rewrite IH. apply deriv_lang.
Qed.

Lemma lang_chr c s : lang (Chr c) s <-> s = [c].
Proof.
  unfold Chr. rewrite lang_class_inv. split.
  - intros (d & -> & ->%N.eqb_eq). done.
  - intros ->. exists c. split; [done|apply N.eqb_refl].
Qed.

Lemma lang_lit l s : lang (Lit l) s <-> s = l.
Proof.
  revert s. induction l as [|c l IH]; intros s; simpl.
  - split; [by inversion 1|intros ->; constructor].
  - rewrite lang_seq_inv. split.
    + intros (s1 & s2 & -> & ->%lang_chr & ->%IH). done.
    + intros ->. exists [c], l. rewrite lang_chr, IH. done.
Qed.

Lemma lang_star_class cls s :
  lang (Star (Class cls)) s <-> Forall (fun c => cls c = true) s.
Proof.
  split.
  - intros H. remember (Star (Class cls)) as r eqn:Hr.
    induction H as [| | | | | |r0 s1 s2 H1 _ H2 IH2]; try done.
    injection Hr as ->. apply lang_class_inv in H1 as (c & -> & Hc).
    constructor; [done|by apply IH2].
  - induction 1 as [|c s Hc _ IH]; [constructor|].
    apply (lang_star_app _ [c] s); [by constructor|done].
Qed.

Lemma lang_plus_class cls s :
  lang (Plus (Class cls)) s <-> s <> [] /\ Forall (fun c => cls c = true) s.
Proof.
  unfold Plus. rewrite lang_seq_inv. split.
  - intros (s1 & s2 & -> & (c & -> & Hc)%lang_class_inv & H2%lang_star_class).
    split; [done|]. by constructor.
  - intros [Hne H]. destruct H as [|c s Hc H]; [done|].
    exists [c], s. rewrite lang_star_class. split; [done|]. split; [by constructor|done].
Qed.

End RegexFacts.

Lemma not_slash_segment s :
  Regex.lang (Regex.Plus not_slash) s <-> segment s.
Proof.
  unfold not_slash, segment. rewrite RegexFacts.lang_plus_class.
  apply and_iff_compat_l. apply Forall_iff. intros c.
  rewrite negb_true_iff. apply N.eqb_neq.
Qed.

(** The pattern of line 73 accepts the keys [source/<owner>/<base>.<ext>]. *)
Lemma sourceKeyPattern_well_formed k :
  Regex.matches sourceKeyPattern k = true <-> well_formed_key k.
Proof.
  rewrite RegexFacts.matches_lang. unfold sourceKeyPattern, well_formed_key.
  split.
  - intros (s0 & t0 & -> & ->%RegexFacts.lang_lit & H)%RegexFacts.lang_seq_inv.
    apply RegexFacts.lang_seq_inv in H as (owner & t1 & -> & Ho%not_slash_segment & H).
    apply RegexFacts.lang_seq_inv in H as (s2 & t2 & -> & ->%RegexFacts.lang_chr & H).
    apply RegexFacts.lang_seq_inv in H as (base & t3 & -> & Hb%not_slash_segment & H).
    apply RegexFacts.lang_seq_inv in H as (s4 & ext & -> & ->%RegexFacts.lang_chr & He%not_slash_segment).
    exists owner, base, ext. done.
  - intros (owner & base & ext & -> & Ho & Hb & He).
    repeat (apply Regex.lang_seq); try (by apply not_slash_segment).
    + by apply RegexFacts.lang_lit.
    + by apply RegexFacts.lang_chr.
    + by apply RegexFacts.lang_chr.
Qed.

(** ** Running the handler *)

Lemma run_bind {A B} (m : M A) (f : A -> M B) (s : state) :
  (m ≫= f) s = match m s with
               | (Ok a, s') => f a s'
               | (Throw e, s') => (Throw e, s')
               end.
Proof. reflexivity. Qed.

Lemma try_catch_rethrow {A} (m : M A) (s : state) :
  try_catch m (fun error => throw error) s = m s.
Proof. unfold try_catch, throw. destruct (m s) as [[a|e] s']; done. Qed.

Lemma encode_one_run w res s :
  encode_one w res s =
  let command := command_for res in
  let code := exit_code (ffmpeg w command (fs s)) in
  (if (code =? 0)%Z then Ok tt else Throw (ExecError command code),
   after_encode w res s).
Proof.
  unfold encode_one, exec_ffmpeg.
  repeat (rewrite ?run_bind, ?try_catch_rethrow; simpl).
  fold (segment_pattern_of res) (playlist_of res).
  unfold after_encode, command_for. simpl.
  destruct (exit_code _ =? 0)%Z; reflexivity.
Qed.

Lemma encode_ladder_cons w res rest s :
  encode_ladder w (res :: rest) s =
  match encode_one w res s with
  | (Ok _, s') => encode_ladder w rest s'
  | (Throw e, s') => (Throw e, s')
  end.
Proof. reflexivity. Qed.

Lemma encode_ladder_cons_ok w res rest s :
  exit_code (ffmpeg w (command_for res) (fs s)) = 0%Z ->
  encode_ladder w (res :: rest) s = encode_ladder w rest (after_encode w res s).
Proof.
  intros H. rewrite encode_ladder_cons, encode_one_run. cbv zeta.
  fold (command_for res). by rewrite H.
Qed.

Lemma encode_ladder_cons_fail w res rest s :
  exit_code (ffmpeg w (command_for res) (fs s)) <> 0%Z ->
  encode_ladder w (res :: rest) s
  = (Throw (ExecError (command_for res) (exit_code (ffmpeg w (command_for res) (fs s)))),
     after_encode w res s).
Proof.
  intros H%Z.eqb_neq. rewrite encode_ladder_cons, encode_one_run. cbv zeta.
  fold (command_for res). by rewrite H.
Qed.

(** The three iterations on the ladder of the handler. *)
Lemma resolutions_profiles : resolutions = [profile 0; profile 1; profile 2].
Proof. reflexivity. Qed.

Lemma profile_entries : entry_of <$> resolutions = ladder_entries.
Proof. vm_compute. reflexivity. Qed.

(** ** The file system *)

Lemma write_file_is_Some (p body : jsstring) (files : filesystem) (q : jsstring) :
  is_Some (files !! q) -> is_Some (Fs.writeFileSync p body files !! q).
Proof. intros H. unfold Fs.writeFileSync. rewrite lookup_insert_is_Some'. auto. Qed.

Lemma write_file_other (p body : jsstring) (files : filesystem) (q : jsstring) :
  Fs.entry p <> q -> Fs.writeFileSync p body files !! q = files !! q.
Proof. intros H. unfold Fs.writeFileSync. by rewrite lookup_insert_ne. Qed.

Lemma write_segments_is_Some (pattern : jsstring) (segs : list (nat * jsstring))
    (files : filesystem) (q : jsstring) :
  is_Some (files !! q) ->
  is_Some (fold_left
             (fun fs seg => Fs.writeFileSync (expand_pattern pattern seg.1) seg.2 fs)
             segs files !! q).
Proof.
  revert files. induction segs as [|seg segs IH]; intros files H; simpl; [done|].
  apply IH. by apply write_file_is_Some.
Qed.

Lemma write_segments_other (pattern : jsstring) (segs : list (nat * jsstring))
    (files : filesystem) (q : jsstring) :
  (forall i, Fs.entry (expand_pattern pattern i) <> q) ->
  fold_left
    (fun fs seg => Fs.writeFileSync (expand_pattern pattern seg.1) seg.2 fs)
    segs files !! q = files !! q.
Proof.
  intros Hq. revert files. induction segs as [|seg segs IH]; intros files; simpl; [done|].
  rewrite IH. by apply write_file_other.
Qed.

(** The encoder only adds files: what exists before a run exists after it. *)
Lemma write_outputs_is_Some (run : encoder_run) (pattern playlist : jsstring)
    (files : filesystem) (q : jsstring) :
  is_Some (files !! q) -> is_Some (write_outputs run pattern playlist files !! q).
Proof.
  intros H. unfold write_outputs.
  destruct (playlist_body run); [apply write_file_is_Some|];
    by apply write_segments_is_Some.
Qed.

(** A run leaves alone every path that is neither a segment nor the playlist. *)
Lemma write_outputs_other (run : encoder_run) (pattern playlist : jsstring)
    (files : filesystem) (q : jsstring) :
  (forall i, Fs.entry (expand_pattern pattern i) <> q) ->
  Fs.entry playlist <> q ->
  write_outputs run pattern playlist files !! q = files !! q.
Proof.
  intros Hs Hp. unfold write_outputs.
  destruct (playlist_body run); [rewrite write_file_other by done|];
    by apply write_segments_other.
Qed.

Lemma entry_snoc (p : jsstring) (c : N) : c <> CHAR_FORWARD_SLASH -> Fs.entry (p ++ [c]) = p ++ [c].
Proof.
  intros Hc%N.eqb_neq. unfold Fs.entry. rewrite rev_app_distr. simpl.
  rewrite Hc. simpl. by rewrite rev_involutive.
Qed.

Lemma expand_pattern_cons (c : N) (rest : jsstring) (i : nat) :
  expand_pattern (c :: rest) i =
  if Fs.starts_with (js "%03d") (c :: rest) then pad3 i ++ drop 3 rest
  else c :: expand_pattern rest i.
Proof. reflexivity. Qed.

Lemma starts_with_percent (c : N) (rest : jsstring) :
  c <> CHAR_PERCENT -> Fs.starts_with (js "%03d") (c :: rest) = false.
Proof.
  intros Hc. change (js "%03d") with (CHAR_PERCENT :: js "03d").
  cbn [Fs.starts_with]. apply andb_false_iff. left.
  apply N.eqb_neq. congruence.
Qed.

Lemma expand_pattern_prefix (pre rest : jsstring) (i : nat) :
  Forall (fun c => c <> CHAR_PERCENT) pre ->
  expand_pattern (pre ++ rest) i = pre ++ expand_pattern rest i.
Proof.
  induction 1 as [|c pre Hc _ IH]; [done|].
  rewrite <- !app_comm_cons, expand_pattern_cons, starts_with_percent by done.
  by rewrite IH.
Qed.

(** The segments of a profile are written next to its playlist. *)
Lemma segment_path (name : string) (i : nat) :
  Forall (fun c => c <> CHAR_PERCENT) (js name) ->
  Fs.entry (expand_pattern (js "/tmp/output/" ++ js name ++ js "_%03d.ts") i)
  = js "/tmp/output/" ++ js name ++ js "_" ++ pad3 i ++ js ".ts".
Proof.
  intros Hn.
  rewrite (app_assoc (js "/tmp/output/")), (app_assoc _ (js name)).
  change (js "_%03d.ts") with (js "_" ++ js "%03d.ts").
  rewrite (app_assoc _ (js "_")).
  rewrite expand_pattern_prefix.
  - change (expand_pattern (js "%03d.ts") i) with (pad3 i ++ js ".t" ++ [115]).
    rewrite !app_assoc. rewrite entry_snoc by (unfold CHAR_FORWARD_SLASH; lia).
    by rewrite <- (app_assoc _ (js ".t")).
  - apply Forall_app; split; [apply Forall_app; split; [|done]|];
      cbn; repeat constructor; unfold CHAR_PERCENT; lia.
Qed.

(** ** The encode ladder *)

Ltac no_percent := cbn; repeat constructor; unfold CHAR_PERCENT; lia.

(** C8: when the encoder succeeds on the first profile and exits with a
    non-zero code on the second, the ladder throws the error of that run,
    whose command line is the one of the second profile; the encoder was
    started twice, never for the third profile; nothing was pushed for the
    third profile and no path of the third profile was touched; every file
    that existed after the first run still exists. *)
Theorem ladder_fails_fast (w : world) (s : state) :
  let c1 := command_of 0 "1080p" in
  let c2 := command_of 1 "720p" in
  let run1 := ffmpeg w c1 (fs s) in
  let fs1 :=
    write_outputs run1 (js "/tmp/output/1080p_%03d.ts") (js "/tmp/output/1080p.m3u8")
      (fs s) in
  let run2 := ffmpeg w c2 fs1 in
  let fs2 :=
    write_outputs run2 (js "/tmp/output/720p_%03d.ts") (js "/tmp/output/720p.m3u8")
      fs1 in
  exit_code run1 = 0%Z ->
  exit_code run2 <> 0%Z ->
  let r := encode_ladder w resolutions s in
  r.1 = Throw (ExecError c2 (exit_code run2))
  /\ ends_with (js " /tmp/output/720p_%03d.ts /tmp/output/720p.m3u8") c2 = true
  /\ trace r.2 = trace s ++ [EvExec c1; EvExec c2]
  /\ playlists r.2
     = playlists s ++ [pushed_entry "1080p" "5000k"; pushed_entry "720p" "3000k"]
  /\ fs r.2 = fs2
  /\ (forall p : jsstring, is_Some (fs1 !! p) -> is_Some (fs r.2 !! p))
  /\ (forall p : jsstring,
        Fs.starts_with (js "/tmp/output/480p") p = true -> fs r.2 !! p = fs s !! p).
Proof.
  intros c1 c2 run1 fs1 run2 fs2 H1 H2 r.
  assert (Hs0 : segment_pattern_of (profile 0) = js "/tmp/output/1080p_%03d.ts")
    by (vm_compute; reflexivity).
  assert (Hs1 : segment_pattern_of (profile 1) = js "/tmp/output/720p_%03d.ts")
    by (vm_compute; reflexivity).
  assert (Hp0 : playlist_of (profile 0) = js "/tmp/output/1080p.m3u8")
    by (vm_compute; reflexivity).
  assert (Hp1 : playlist_of (profile 1) = js "/tmp/output/720p.m3u8")
    by (vm_compute; reflexivity).
  assert (Hc0 : command_for (profile 0) = c1) by (vm_compute; reflexivity).
  assert (Hc1 : command_for (profile 1) = c2) by (vm_compute; reflexivity).
  assert (He0 : entry_of (profile 0) = pushed_entry "1080p" "5000k")
    by (vm_compute; reflexivity).
  assert (He1 : entry_of (profile 1) = pushed_entry "720p" "3000k")
    by (vm_compute; reflexivity).
  assert (Hf1 : fs (after_encode w (profile 0) s) = fs1).
  { unfold after_encode. cbn [fs]. rewrite Hs0, Hp0, Hc0. done. }
  assert (Hr : r = (Throw (ExecError c2 (exit_code run2)), after_encode w (profile 1) (after_encode w (profile 0) s))).
  { subst r. rewrite resolutions_profiles.
    rewrite encode_ladder_cons_ok by (by rewrite Hc0).
    rewrite encode_ladder_cons_fail; rewrite Hc1, Hf1; done. }
  rewrite Hr. cbn [fst snd].
  assert (Hf2 : fs (after_encode w (profile 1) (after_encode w (profile 0) s)) = fs2).
  { unfold after_encode at 1. cbn [fs]. rewrite Hs1, Hp1, Hc1, Hf1. done. }
  rewrite Hf2.
  split; [done|]. split; [vm_compute; reflexivity|].
  split; [unfold after_encode; cbn [trace]; rewrite Hc0, Hc1, <- app_assoc; done|].
  split; [unfold after_encode; cbn [playlists]; rewrite He0, He1, <- app_assoc; done|].
  split; [done|]. split.
  - intros p. apply write_outputs_is_Some.
  - intros p Hp. subst fs2 fs1.
    rewrite write_outputs_other; [rewrite write_outputs_other| |].
    + reflexivity.
    + intros i Heq. rewrite (segment_path "1080p") in Heq by no_percent.
      subst p. discriminate Hp.
    + intros Heq. subst p. discriminate Hp.
    + intros i Heq. rewrite (segment_path "720p") in Heq by no_percent.
      subst p. discriminate Hp.
    + intros Heq. subst p. discriminate Hp.
Qed.

(** ** The handler, stage by stage *)

Lemma authenticate_set w s :
  credentials_set s = true -> authenticateGCP w s = (Ok tt, after_auth w s).
Proof.
  unfold credentials_set, authenticateGCP, after_auth. intros H.
  rewrite try_catch_rethrow, run_bind. unfold getenv.
  destruct (env s !! "GCP_SERVICE_KEY") as [[|c key]|]; try done.
Qed.

Lemma authenticate_unset w s :
  credentials_set s = false -> authenticateGCP w s = (Throw MissingServiceKey, s).
Proof.
  unfold credentials_set, authenticateGCP. intros H.
  rewrite try_catch_rethrow, run_bind. unfold getenv.
  destruct (env s !! "GCP_SERVICE_KEY") as [[|c key]|]; try done.
Qed.

Lemma cleanup_run s : cleanup s = (Ok tt, after_cleanup s).
Proof.
  unfold cleanup, after_cleanup, existsSync, unlinkSync, rmSync.
  repeat (rewrite run_bind; cbn [get_fs mret M_ret]).
  destruct (Fs.existsSync TEMP_INPUT_FILE (fs s));
    repeat (rewrite ?run_bind; cbn [get_fs mret M_ret emit modify_fs]);
    match goal with |- context [Fs.existsSync TEMP_OUTPUT_DIR ?f] =>
      destruct (Fs.existsSync TEMP_OUTPUT_DIR f) end; reflexivity.
Qed.

Lemma try_finally_cleanup {A} (m : M A) s :
  try_finally m cleanup s = ((m s).1, after_cleanup (m s).2).
Proof.
  unfold try_finally. destruct (m s) as [r s']. by rewrite cleanup_run.
Qed.

(** The handler is the guarded block only when the credentials are set and
    the key passes the pattern. *)
Lemma handler_run w cfg ev s :
  handler w cfg ev s =
  if credentials_set s then
    match sourceKey_of (object_key ev) with
    | None => (Throw URIError, after_auth w s)
    | Some k =>
        if Regex.matches sourceKeyPattern k then
          let r := convert w cfg (bucket_name ev) k (after_auth w s) in
          (r.1, after_cleanup r.2)
        else (Throw (InvalidSourceKey k), after_auth w s)
    end
  else (Throw MissingServiceKey, s).
Proof.
  unfold handler. rewrite run_bind.
  destruct (credentials_set s) eqn:Hc.
  - rewrite authenticate_set by done.
    destruct (sourceKey_of (object_key ev)) as [k|]; [|done].
    destruct (Regex.matches sourceKeyPattern k); [|done].
    cbn [negb]. by rewrite try_finally_cleanup, try_catch_rethrow.
  - by rewrite authenticate_unset.
Qed.

(** ** Cleanup *)

Lemma existsSync_false (p : jsstring) (files : filesystem) :
  Fs.existsSync p files = false <-> files !! Fs.entry p = None.
Proof.
  unfold Fs.existsSync. rewrite bool_decide_eq_false, <- eq_None_not_Some. done.
Qed.

Lemma within_refl (d : jsstring) : Fs.within d d = true.
Proof. unfold Fs.within. by rewrite bool_decide_eq_true_2. Qed.

Lemma rmSync_gone (p : jsstring) (files : filesystem) :
  Fs.existsSync p (Fs.rmSync p files) = false.
Proof.
  apply existsSync_false. unfold Fs.rmSync. apply map_lookup_filter_None.
  right. intros x _. cbn. rewrite within_refl. done.
Qed.

Lemma rmSync_absent (p q : jsstring) (files : filesystem) :
  Fs.existsSync q files = false -> Fs.existsSync q (Fs.rmSync p files) = false.
Proof.
  rewrite !existsSync_false. intros H. unfold Fs.rmSync.
  apply map_lookup_filter_None. by left.
Qed.

Lemma unlinkSync_gone (p : jsstring) (files : filesystem) :
  Fs.existsSync p (Fs.unlinkSync p files) = false.
Proof. apply existsSync_false. unfold Fs.unlinkSync. apply lookup_delete_eq. Qed.

(** After the [finally] block neither the input file nor the output
    directory exists. *)
Lemma cleanup_clean s :
  Fs.existsSync TEMP_INPUT_FILE (fs (after_cleanup s)) = false
  /\ Fs.existsSync TEMP_OUTPUT_DIR (fs (after_cleanup s)) = false.
Proof.
  unfold after_cleanup.
  set (s1 := if Fs.existsSync TEMP_INPUT_FILE (fs s) then _ else s).
  assert (H1 : Fs.existsSync TEMP_INPUT_FILE (fs s1) = false).
  { subst s1. destruct (Fs.existsSync TEMP_INPUT_FILE (fs s)) eqn:E; [|done].
    cbn [fs with_fs log]. apply unlinkSync_gone. }
  destruct (Fs.existsSync TEMP_OUTPUT_DIR (fs s1)) eqn:E2; [|done].
  cbn [fs with_fs log]. split; [by apply rmSync_absent|apply rmSync_gone].
Qed.

(** C2, as amended: every invocation that got past the credentials and the
    validation of the key (whatever its outcome: success or an error of the
    fetch, the encoder, an upload or the notification) leaves neither the
    local input file nor the local output directory behind. *)
Theorem cleanup_after_validation (w : world) (cfg : config) (ev : s3_event)
    (s : state) (k : jsstring) :
  credentials_set s = true ->
  sourceKey_of (object_key ev) = Some k ->
  Regex.matches sourceKeyPattern k = true ->
  let r := handler w cfg ev s in
  Fs.existsSync TEMP_INPUT_FILE (fs r.2) = false
  /\ Fs.existsSync TEMP_OUTPUT_DIR (fs r.2) = false.
Proof.
  intros Hc Hk Hm r. subst r. rewrite handler_run, Hc, Hk, Hm. cbv zeta.
  cbn [snd]. apply cleanup_clean.
Qed.

Lemma cleanup_after_validation_witness :
  let r := handler failing_world sample_config (sample_event "source/u1/clip.mp4")
             (initial stale_files sample_env) in
  Fs.existsSync TEMP_INPUT_FILE (fs r.2) = false
  /\ Fs.existsSync TEMP_OUTPUT_DIR (fs r.2) = false.
Proof.
  apply (cleanup_after_validation failing_world sample_config
           (sample_event "source/u1/clip.mp4") (initial stale_files sample_env)
           (js "source/u1/clip.mp4")); vm_compute; reflexivity.
Defined.

(** An invocation that stops at the credentials or at the validation of the
    key runs no cleanup and leaves the file system as it is, but for the
    credentials file. *)
Lemma early_exit_untouched (w : world) (cfg : config) (ev : s3_event) (s : state) :
  credentials_set s = false
  \/ (exists k, sourceKey_of (object_key ev) = Some k
                /\ Regex.matches sourceKeyPattern k = false) ->
  let r := handler w cfg ev s in
  (exists e, r.1 = Throw e)
  /\ forall p : jsstring, p <> serviceKeyPath -> fs r.2 !! p = fs s !! p.
Proof.
  intros H r. subst r. rewrite handler_run.
  destruct H as [Hc|(k & Hk & Hm)].
  - rewrite Hc. cbn. eauto.
  - rewrite Hk, Hm. destruct (credentials_set s); cbn; [|eauto].
    split; [eauto|]. intros p Hp. unfold Fs.writeFileSync. by rewrite lookup_insert_ne.
Qed.

(** C2, as stated, fails: with the working set of an aborted invocation on
    disk, an invocation with a malformed key, or without the credential
    variable, throws and leaves the input file and the output directory. *)
Lemma cleanup_skipped_before_validation :
  let r1 := handler good_world sample_config (sample_event "source/video.mp4")
              (initial stale_files sample_env) in
  let r2 := handler good_world sample_config (sample_event "source/u1/clip.mp4")
              (initial stale_files ∅) in
  r1.1 = Throw (InvalidSourceKey (js "source/video.mp4"))
  /\ Fs.existsSync TEMP_INPUT_FILE (fs r1.2) = true
  /\ Fs.existsSync TEMP_OUTPUT_DIR (fs r1.2) = true
  /\ r2.1 = Throw MissingServiceKey
  /\ Fs.existsSync TEMP_INPUT_FILE (fs r2.2) = true
  /\ Fs.existsSync TEMP_OUTPUT_DIR (fs r2.2) = true.
Proof. vm_compute. repeat split; reflexivity. Qed.

(** ** The actions of an invocation *)

Lemma ladder_trace w l s :
  exists cmds, trace (encode_ladder w l s).2 = trace s ++ (EvExec <$> cmds).
Proof.
  revert s. induction l as [|res rest IH]; intros s.
  - exists []. cbn. by rewrite app_nil_r.
  - rewrite encode_ladder_cons, encode_one_run. cbv zeta.
    destruct (exit_code _ =? 0)%Z.
    + destruct (IH (after_encode w res s)) as [cmds ->].
      exists (command_for res :: cmds). cbn [after_encode trace].
      by rewrite <- app_assoc.
    + exists [command_for res]. done.
Qed.

Lemma ladder_playlists w l s :
  (encode_ladder w l s).1 = Ok tt ->
  playlists (encode_ladder w l s).2 = playlists s ++ (entry_of <$> l).
Proof.
  revert s. induction l as [|res rest IH]; intros s.
  - intros _. cbn. by rewrite app_nil_r.
  - rewrite encode_ladder_cons, encode_one_run. cbv zeta.
    destruct (exit_code _ =? 0)%Z; [|done].
    intros H. rewrite (IH _ H). cbn [after_encode playlists].
    by rewrite <- app_assoc.
Qed.

Lemma upload_trace w bucket prefix files s :
  exists ups,
    trace (upload_all w bucket prefix files s).2 = trace s ++ ups
    /\ Forall (fun e => exists key body, e = EvUpload bucket key body) ups.
Proof.
  revert s. induction files as [|file rest IH]; intros s.
  - exists []. cbn. by rewrite app_nil_r.
  - cbn [upload_all].
    repeat (rewrite run_bind; cbn [get_fs emit]).
    destruct (s3_upload w bucket _ _).
    + cbn [mret M_ret].
      match goal with |- context [upload_all _ _ _ _ ?s'] =>
        destruct (IH s') as (ups & -> & Hups) end.
      eexists (_ :: ups). cbn [log trace]. rewrite <- app_assoc. split; [done|].
      constructor; eauto.
    + cbn [throw]. eexists [_]. cbn [log trace snd]. split; [done|].
      constructor; eauto.
Qed.

Lemma run_ret {A} (a : A) (s : state) : (mret a : M A) s = (Ok a, s).
Proof. reflexivity. Qed.

Lemma master_path : Path.join [TEMP_OUTPUT_DIR; js "master.m3u8"] = masterPlaylistPath.
Proof. vm_compute. reflexivity. Qed.

(** The guarded block, outcome by outcome. *)
Lemma convert_run w cfg bucket key s :
  convert w cfg bucket key s =
  match s3_getObject w bucket key with
  | None => (Throw (GetObjectError bucket key), log (EvGetObject bucket key) s)
  | Some body =>
      match encode_ladder w resolutions (ready_state (fetched_state body bucket key s)) with
      | (Throw e, s') => (Throw e, s')
      | (Ok _, encoded) =>
          let synthesized := synthesized_state encoded in
          let files := Fs.readdirSync TEMP_OUTPUT_DIR (fs synthesized) in
          match upload_all w bucket (targetPrefix_of key) files synthesized with
          | (Throw e, s') => (Throw e, s')
          | (Ok _, uploaded) =>
              let resp := response_of cfg key in
              let published :=
                log (EvPublish (PROJECT_ID cfg) (PUBSUB_TOPIC cfg) resp) uploaded in
              if pubsub_publish w (PROJECT_ID cfg) (PUBSUB_TOPIC cfg) resp
              then (Ok resp, published)
              else (Throw PublishError, published)
          end
      end
  end.
Proof.
  unfold convert. cbv zeta. rewrite master_path. fold (response_of cfg key).
  rewrite run_bind. cbn [emit].
  destruct (s3_getObject w bucket key) as [body|]; [|done].
  unfold writeFileSync, existsSync, mkdirSync, readdirSync.
  repeat (rewrite run_bind; cbn [emit modify_fs get_fs mret M_ret]).
  fold (fetched_state body bucket key s).
  unfold ready_state.
  destruct (Fs.existsSync TEMP_OUTPUT_DIR (fs (fetched_state body bucket key s)));
    cbn [negb];
    repeat (rewrite ?run_ret, ?run_bind; cbn [emit modify_fs get_fs set_playlists]);
    (destruct (encode_ladder w resolutions _) as [[[]|e] encoded]; [|done]);
    repeat (rewrite ?run_ret, ?run_bind; cbn [emit modify_fs get_fs get_playlists]);
    fold (synthesized_state encoded);
    (destruct (upload_all w bucket _ _ _) as [[[]|e] uploaded]; [|done]);
    unfold publishToPubSub; rewrite run_bind, try_catch_rethrow;
    rewrite run_bind; cbn [emit];
    destruct (pubsub_publish w _ _ _); reflexivity.
Qed.

Lemma cleanup_trace s :
  exists cleaned,
    trace (after_cleanup s) = trace s ++ cleaned
    /\ Forall (fun e => e = EvUnlink TEMP_INPUT_FILE \/ e = EvRm TEMP_OUTPUT_DIR) cleaned.
Proof.
  unfold after_cleanup.
  destruct (Fs.existsSync TEMP_INPUT_FILE (fs s));
    match goal with |- context [Fs.existsSync TEMP_OUTPUT_DIR ?f] =>
      destruct (Fs.existsSync TEMP_OUTPUT_DIR f) end;
    cbn [trace log with_fs]; rewrite <- ?app_assoc;
    eexists; (split; [try reflexivity; symmetry; apply app_nil_r|]);
    cbn [app]; repeat (constructor; [auto|]); constructor.
Qed.

Lemma ready_trace s :
  exists made,
    trace (ready_state s) = trace s ++ made
    /\ Forall (fun e => e = EvMkdir TEMP_OUTPUT_DIR) made
    /\ playlists (ready_state s) = [].
Proof.
  unfold ready_state. destruct (Fs.existsSync TEMP_OUTPUT_DIR (fs s));
    cbn [trace playlists log with_fs with_playlists].
  - exists []. rewrite app_nil_r. repeat split; constructor.
  - exists [EvMkdir TEMP_OUTPUT_DIR]. repeat split. repeat constructor.
Qed.

(** The shape of the actions of the guarded block. *)
Lemma convert_shape w cfg bucket key s :
  let r := convert w cfg bucket key s in
  exists fetched made execs master uploads published,
    trace r.2 = trace s ++ EvGetObject bucket key :: fetched ++ made
                ++ (EvExec <$> execs) ++ master ++ uploads ++ published
    /\ Forall (fun e => exists body, e = EvWriteFile TEMP_INPUT_FILE body) fetched
    /\ Forall (fun e => e = EvMkdir TEMP_OUTPUT_DIR) made
    /\ Forall (fun e => e = EvWriteFile masterPlaylistPath (master_playlist ladder_entries))
         master
    /\ Forall (fun e => exists key body, e = EvUpload bucket key body) uploads
    /\ Forall (fun e => exists projectId topicId msg, e = EvPublish projectId topicId msg)
         published
    /\ (forall resp, r.1 = Ok resp -> master <> []).
Proof.
  intros r. subst r. rewrite convert_run.
  destruct (s3_getObject w bucket key) as [body|].
  2: { exists [], [], [], [], [], []. cbn [trace log snd fst]. repeat split; done. }
  destruct (ready_trace (fetched_state body bucket key s)) as (made & Hm & Hmade & Hnil).
  destruct (ladder_trace w resolutions (ready_state (fetched_state body bucket key s)))
    as [execs He].
  pose proof (ladder_playlists w resolutions (ready_state (fetched_state body bucket key s)))
    as Hp.
  rewrite Hnil, profile_entries in Hp.
  assert (Hf : Forall (fun e => exists body, e = EvWriteFile TEMP_INPUT_FILE body)
                 [EvWriteFile TEMP_INPUT_FILE body]) by (repeat constructor; eauto).
  assert (H0 : trace (fetched_state body bucket key s)
               = trace s ++ [EvGetObject bucket key; EvWriteFile TEMP_INPUT_FILE body]).
  { unfold fetched_state. cbn [trace log with_fs]. by rewrite <- app_assoc. }
  destruct (encode_ladder w resolutions _) as [[[]|e] encoded]; cbn [fst snd] in He, Hp |- *.
  2: { exists [EvWriteFile TEMP_INPUT_FILE body], made, execs, [], [], [].
       split; [|repeat split; done].
       rewrite He, Hm, H0, !app_nil_r, <- !app_assoc. reflexivity. }
  specialize (Hp eq_refl). cbn [app] in Hp.
  destruct (upload_trace w bucket (targetPrefix_of key)
              (Fs.readdirSync TEMP_OUTPUT_DIR (fs (synthesized_state encoded)))
              (synthesized_state encoded)) as (ups & Hu & Hups).
  assert (Hs : trace (synthesized_state encoded)
               = trace encoded
                 ++ [EvWriteFile masterPlaylistPath (master_playlist ladder_entries)]).
  { unfold synthesized_state. cbn [trace log with_fs]. rewrite Hp. reflexivity. }
  set (written := EvWriteFile masterPlaylistPath (master_playlist ladder_entries)) in *.
  clearbody written.
  assert (Hmaster : Forall (fun e => e = written) [written])
    by (constructor; [reflexivity|constructor]).
  cbv zeta.
  destruct (upload_all w bucket _ _ _) as [[[]|e] uploaded]; cbn [fst snd] in Hu |- *.
  2: { exists [EvWriteFile TEMP_INPUT_FILE body], made, execs, [written], ups, [].
       split; [|repeat split; done].
       rewrite Hu, Hs, He, Hm, H0, !app_nil_r, <- !app_assoc. reflexivity. }
  set (pub := EvPublish (PROJECT_ID cfg) (PUBSUB_TOPIC cfg) (response_of cfg key)).
  assert (Hpub : Forall (fun e => exists projectId topicId msg,
                           e = EvPublish projectId topicId msg) [pub])
    by (repeat constructor; subst pub; eauto).
  clearbody pub.
  destruct (pubsub_publish w _ _ _); cbn [fst snd trace log];
    (exists [EvWriteFile TEMP_INPUT_FILE body], made, execs, [written], ups, [pub];
     split; [|repeat split; done];
     rewrite Hu, Hs, He, Hm, H0, <- !app_assoc; reflexivity).
Qed.

(** The actions of the handler, whatever the outcome. *)
Lemma handler_actions w cfg ev s :
  let r := handler w cfg ev s in
  (credentials_set s = false /\ trace r.2 = trace s)
  \/ (exists cred,
        (forall k, sourceKey_of (object_key ev) = Some k ->
                   Regex.matches sourceKeyPattern k = false)
        /\ trace r.2 = trace s ++ [EvWriteFile serviceKeyPath cred])
  \/ (exists cred k t,
        sourceKey_of (object_key ev) = Some k
        /\ Regex.matches sourceKeyPattern k = true
        /\ trace r.2 = trace s ++ EvWriteFile serviceKeyPath cred :: t
        /\ run_shape (bucket_name ev) k t
        /\ (forall resp, r.1 = Ok resp ->
              EvWriteFile masterPlaylistPath (master_playlist ladder_entries) ∈ t)).
Proof.
  intros r. subst r. rewrite handler_run.
  destruct (credentials_set s); [|left; done]. right.
  assert (Ha : forall t, trace (after_auth w s) ++ t
               = trace s ++ EvWriteFile serviceKeyPath
                              (base64_decode w (default [] (env s !! "GCP_SERVICE_KEY"))) :: t).
  { intros t. unfold after_auth. cbn [trace log with_fs with_env].
    by rewrite <- app_assoc. }
  destruct (sourceKey_of (object_key ev)) as [k|].
  2: { left. eexists. split; [done|]. rewrite <- Ha, app_nil_r. done. }
  destruct (Regex.matches sourceKeyPattern k) eqn:Hm.
  2: { left. eexists. split; [by intros ? [= <-]|]. rewrite <- Ha, app_nil_r. done. }
  right. cbv zeta. cbn [fst snd].
  destruct (convert_shape w cfg (bucket_name ev) k (after_auth w s))
    as (fetched & made & execs & master & uploads & published
        & Ht & Hf & Hmk & Hms & Hup & Hpb & Hok).
  destruct (cleanup_trace (convert w cfg (bucket_name ev) k (after_auth w s)).2)
    as (cleaned & Hc & Hcl).
  exists (base64_decode w (default [] (env s !! "GCP_SERVICE_KEY"))), k,
    (EvGetObject (bucket_name ev) k :: fetched ++ made ++ (EvExec <$> execs) ++ master
       ++ uploads ++ published ++ cleaned).
  split; [done|]. split; [done|].
  split; [rewrite Hc, Ht, <- app_assoc, Ha; cbn [app]; by rewrite <- !app_assoc|].
  split.
  - exists fetched, made, execs, master, uploads, published, cleaned. done.
  - intros resp Hr. specialize (Hok resp Hr).
    destruct master as [|e master]; [done|].
    apply Forall_cons in Hms as [-> _].
    apply elem_of_cons. right. do 3 (apply elem_of_app; right).
    apply elem_of_app. left. apply elem_of_cons. by left.
Qed.

(** Every action of a validated invocation belongs to one of its stages. *)
Lemma run_shape_elem bucket key t e :
  run_shape bucket key t -> e ∈ t ->
  e = EvGetObject bucket key
  \/ (exists body, e = EvWriteFile TEMP_INPUT_FILE body)
  \/ e = EvMkdir TEMP_OUTPUT_DIR
  \/ (exists command, e = EvExec command)
  \/ e = EvWriteFile masterPlaylistPath (master_playlist ladder_entries)
  \/ (exists k body, e = EvUpload bucket k body)
  \/ (exists projectId topicId msg, e = EvPublish projectId topicId msg)
  \/ e = EvUnlink TEMP_INPUT_FILE
  \/ e = EvRm TEMP_OUTPUT_DIR.
Proof.
  intros (fetched & made & execs & master & uploads & published & cleaned
          & -> & Hf & Hmk & Hms & Hup & Hpb & Hcl).
  rewrite Forall_forall in Hf, Hmk, Hms, Hup, Hpb, Hcl.
  rewrite elem_of_cons, !elem_of_app, list_elem_of_fmap.
  intros [->|[H|[H|[(c & -> & _)|[H|[H|[H|H]]]]]]]; [eauto 10..|].
  destruct (Hcl _ H) as [->| ->]; auto 10.
Qed.

(** ** Stage order *)

Lemma staged_app (a b c d : nat) (t1 t2 : list event) :
  staged a b t1 -> staged c d t2 -> (a <= b <= c)%nat -> (c <= d)%nat ->
  staged a d (t1 ++ t2).
Proof.
  intros [H1 S1] [H2 S2] Habc Hcd. split.
  - apply Forall_app.
    split; [apply (Forall_impl _ _ _ H1)|apply (Forall_impl _ _ _ H2)];
      intros e He; cbn in He; lia.
  - unfold in_stage_order in *. rewrite !fmap_app.
    apply StronglySorted_app_2; [|done|done].
    intros x1 x2 (e1 & -> & (s1 & -> & Hs1)%list_elem_of_fmap)%list_elem_of_fmap
                 (e2 & -> & (s2 & -> & Hs2)%list_elem_of_fmap)%list_elem_of_fmap.
    rewrite Forall_forall in H1, H2.
    specialize (H1 _ Hs1). specialize (H2 _ Hs2). cbn in *. lia.
Qed.

Lemma staged_stage (n : nat) (t : list event) :
  Forall (fun e => rank (stage_of e) = n) t -> staged n n t.
Proof.
  intros H. split.
  - apply (Forall_impl _ _ _ H). intros e He. lia.
  - unfold in_stage_order. induction H as [|e t He Ht IH]; [constructor|].
    cbn. constructor; [done|].
    rewrite Forall_fmap, Forall_fmap. apply (Forall_impl _ _ _ Ht).
    intros e' He'. cbn. lia.
Qed.

Lemma shape_in_order bucket key t cred :
  run_shape bucket key t -> in_stage_order (EvWriteFile serviceKeyPath cred :: t).
Proof.
  intros (fetched & made & execs & master & uploads & published & cleaned
          & -> & Hf & Hmk & Hms & Hup & Hpb & Hcl).
  assert (B0 : staged 0 0 [EvWriteFile serviceKeyPath cred]).
  { apply staged_stage. repeat constructor. }
  assert (B1 : staged 1 1 (EvGetObject bucket key :: fetched)).
  { apply staged_stage. constructor; [done|].
    apply (Forall_impl _ _ _ Hf). by intros e [body ->]. }
  assert (B2 : staged 2 2 made).
  { apply staged_stage. apply (Forall_impl _ _ _ Hmk). by intros e ->. }
  assert (B2' : staged 2 2 (EvExec <$> execs)).
  { apply staged_stage. apply Forall_fmap. by apply Forall_true. }
  assert (B3 : staged 3 3 master).
  { apply staged_stage. apply (Forall_impl _ _ _ Hms). by intros e ->. }
  assert (B4 : staged 4 4 uploads).
  { apply staged_stage. apply (Forall_impl _ _ _ Hup). by intros e (k & body & ->). }
  assert (B5 : staged 5 5 published).
  { apply staged_stage. apply (Forall_impl _ _ _ Hpb). by intros e (p & q & m & ->). }
  assert (B6 : staged 6 6 cleaned).
  { apply staged_stage. apply (Forall_impl _ _ _ Hcl). by intros e [->| ->]. }
  pose proof (staged_app 5 5 6 6 _ _ B5 B6 ltac:(lia) ltac:(lia)) as C5.
  pose proof (staged_app 4 4 5 6 _ _ B4 C5 ltac:(lia) ltac:(lia)) as C4.
  pose proof (staged_app 3 3 4 6 _ _ B3 C4 ltac:(lia) ltac:(lia)) as C3.
  pose proof (staged_app 2 2 3 6 _ _ B2' C3 ltac:(lia) ltac:(lia)) as C2'.
  pose proof (staged_app 2 2 2 6 _ _ B2 C2' ltac:(lia) ltac:(lia)) as C2.
  pose proof (staged_app 1 1 2 6 _ _ B1 C2 ltac:(lia) ltac:(lia)) as C1.
  pose proof (staged_app 0 0 1 6 _ _ B0 C1 ltac:(lia) ltac:(lia)) as C0.
  destruct C0 as [_ C0]. exact C0.
Qed.

(** C6, as amended: the actions of every invocation follow the order of the
    stages, Fetch, Encode Ladder, Synthesize Master, Upload All, Notify, and
    Cleanup last; the key is validated before the fetch, so the source object
    is requested only under a key that was decoded and passed the pattern,
    and never for a malformed key. *)
Theorem stages_in_order (w : world) (cfg : config) (ev : s3_event) (s : state) :
  let r := handler w cfg ev s in
  exists t,
    trace r.2 = trace s ++ t
    /\ in_stage_order t
    /\ forall b k,
         EvGetObject b k ∈ t ->
         b = bucket_name ev
         /\ sourceKey_of (object_key ev) = Some k
         /\ Regex.matches sourceKeyPattern k = true.
Proof.
  intros r. subst r.
  destruct (handler_actions w cfg ev s)
    as [[_ Ht]|[(cred & _ & Ht)|(cred & k & t & Hk & Hm & Ht & Hshape & _)]].
  - exists []. rewrite app_nil_r. split; [done|]. split; [constructor|].
    intros b k' H. by apply elem_of_nil in H.
  - exists [EvWriteFile serviceKeyPath cred]. split; [done|].
    split; [repeat constructor|].
    intros b k' H. apply list_elem_of_singleton in H. done.
  - exists (EvWriteFile serviceKeyPath cred :: t). split; [done|].
    split; [by eapply shape_in_order|].
    intros b k' [H|H]%elem_of_cons; [done|].
    destruct (run_shape_elem _ _ _ _ Hshape H)
      as [[= -> ->]|[[? ?]|[?|[[? ?]|[?|[(? & ? & ?)|[(? & ? & ? & ?)|[?|?]]]]]]]];
      done.
Qed.

(** C6, as stated, fails: for the malformed key [source/video.mp4] the
    handler throws the validation error and has made no request to the object
    store. *)
Lemma no_fetch_for_malformed_key :
  let r := handler good_world sample_config (sample_event "source/video.mp4")
             (initial ∅ sample_env) in
  r.1 = Throw (InvalidSourceKey (js "source/video.mp4"))
  /\ trace r.2 = [EvWriteFile serviceKeyPath (js "{}")].
Proof. vm_compute. split; reflexivity. Qed.

(** C10: every upload of every invocation goes to the bucket named by the
    triggering event. *)
Theorem uploads_to_source_bucket (w : world) (cfg : config) (ev : s3_event)
    (s : state) :
  let r := handler w cfg ev s in
  exists t,
    trace r.2 = trace s ++ t
    /\ forall b k body, EvUpload b k body ∈ t -> b = bucket_name ev.
Proof.
  intros r. subst r.
  destruct (handler_actions w cfg ev s)
    as [[_ Ht]|[(cred & _ & Ht)|(cred & k & t & Hk & Hm & Ht & Hshape & _)]].
  - exists []. rewrite app_nil_r. split; [done|].
    intros b k' body H. by apply elem_of_nil in H.
  - exists [EvWriteFile serviceKeyPath cred]. split; [done|].
    intros b k' body H. apply list_elem_of_singleton in H. done.
  - exists (EvWriteFile serviceKeyPath cred :: t). split; [done|].
    intros b k' body [H|H]%elem_of_cons; [done|].
    destruct (run_shape_elem _ _ _ _ Hshape H)
      as [?|[[? ?]|[?|[[? ?]|[?|[(? & ? & [= -> _ _])|[(? & ? & ? & ?)|[?|?]]]]]]]];
      done.
Qed.

(** A successful invocation does upload: the renditions and the master
    playlist go to the bucket of the event. *)
Lemma uploads_happen :
  let r := handler good_world sample_config (sample_event "source/u1/clip.mp4")
             (initial ∅ sample_env) in
  (fun e => match e with EvUpload b k _ => Some (b, k) | _ => None end) <$> trace r.2
  !! 8%nat = Some (Some (js "videos", js "hls/u1/clip/480p_001.ts")).
Proof. vm_compute. reflexivity. Qed.

(** ** The master playlist *)

Lemma ladder_master_lines : master_lines (master_playlist ladder_entries).
Proof.
  exists (js "RESOLUTION=undefinedxundefined"), (js "RESOLUTION=undefinedxundefined"),
    (js "RESOLUTION=undefinedxundefined").
  vm_compute. reflexivity.
Qed.

(** C9: whatever an invocation writes to [master.m3u8] starts with the two
    header lines and then holds, for the three profiles in ladder order, a
    stream-information line with the bandwidth 5000000, 3000000, 1500000
    followed by the bare playlist name; an invocation that succeeds has
    written it. *)
Theorem master_playlist_lines (w : world) (cfg : config) (ev : s3_event) (s : state) :
  let r := handler w cfg ev s in
  exists t,
    trace r.2 = trace s ++ t
    /\ (forall body, EvWriteFile masterPlaylistPath body ∈ t -> master_lines body)
    /\ (forall resp, r.1 = Ok resp ->
          exists body, EvWriteFile masterPlaylistPath body ∈ t)
    /\ (forall s0,
          let ladder := encode_ladder w resolutions (with_playlists [] s0) in
          ladder.1 = Ok tt -> master_lines (master_playlist (playlists ladder.2))).
Proof.
  intros r. subst r.
  assert (Hladder : forall s0,
            let ladder := encode_ladder w resolutions (with_playlists [] s0) in
            ladder.1 = Ok tt -> master_lines (master_playlist (playlists ladder.2))).
  { intros s0 ladder Hok. subst ladder.
    rewrite (ladder_playlists _ _ _ Hok), profile_entries.
    apply ladder_master_lines. }
  destruct (handler_actions w cfg ev s)
    as [[Hc Ht]|[(cred & Hk & Ht)|(cred & k & t & Hk & Hm & Ht & Hshape & Hok)]].
  - exists []. rewrite app_nil_r. split; [done|]. split; [|split; [|done]].
    + intros body H. by apply elem_of_nil in H.
    + intros resp Hr. rewrite handler_run, Hc in Hr. done.
  - exists [EvWriteFile serviceKeyPath cred]. split; [done|]. split; [|split; [|done]].
    + intros body H%list_elem_of_singleton. exfalso.
      injection H as H _. vm_compute in H. discriminate H.
    + intros resp Hr. rewrite handler_run in Hr.
      destruct (credentials_set s); [|done].
      destruct (sourceKey_of (object_key ev)) as [k|]; [|done].
      rewrite (Hk k eq_refl) in Hr. done.
  - exists (EvWriteFile serviceKeyPath cred :: t). split; [done|].
    split; [|split; [|done]].
    + intros body [H|H]%elem_of_cons.
      { exfalso. injection H as H _. vm_compute in H. discriminate H. }
      destruct (run_shape_elem _ _ _ _ Hshape H)
        as [?|[[? E]|[?|[[? ?]|[E|[(? & ? & ?)|[(? & ? & ? & ?)|[?|?]]]]]]]];
        try done.
      injection E as ->. apply ladder_master_lines.
    + intros resp Hr. eexists. apply elem_of_cons. right. by eapply Hok.
Qed.

(** C1 fails on the code: the entries pushed on [playlists] carry no width
    and no height, so every stream-information line of the master playlist
    reads [RESOLUTION=undefinedxundefined]; here on a run where every
    collaborator succeeds. *)
Theorem resolution_attribute_undefined :
  let r := handler good_world sample_config (sample_event "source/u1/clip.mp4")
             (initial ∅ sample_env) in
  (exists resp, r.1 = Ok resp)
  /\ trace r.2 !! 7%nat
     = Some (EvWriteFile masterPlaylistPath
               (JS.join newline
                  [ js "#EXTM3U"; js "#EXT-X-VERSION:3";
                    js "#EXT-X-STREAM-INF:BANDWIDTH=5000000,RESOLUTION=undefinedxundefined";
                    js "1080p.m3u8";
                    js "#EXT-X-STREAM-INF:BANDWIDTH=3000000,RESOLUTION=undefinedxundefined";
                    js "720p.m3u8";
                    js "#EXT-X-STREAM-INF:BANDWIDTH=1500000,RESOLUTION=undefinedxundefined";
                    js "480p.m3u8" ]))
  /\ (fun entry => (get entry "width", get entry "height")) <$> ladder_entries
     = [(VUndefined, VUndefined); (VUndefined, VUndefined); (VUndefined, VUndefined)]
  /\ (fun res => (get res "width", get res "height")) <$> resolutions
     = [(VNumber 1920, VNumber 1080); (VNumber 1280, VNumber 720);
        (VNumber 854, VNumber 480)].
Proof. vm_compute. split; [eexists; reflexivity|]. repeat split; reflexivity. Qed.

(** ** Key validation *)

(** C7: once decoded, a key passes the validation exactly when it has the
    form [source/<owner>/<base>.<ext>] with three non-empty parts without
    slash: the handler then goes on to request the object under that key, and
    otherwise throws the validation error. [source/abc123/video.mp4] passes;
    [source/abc123/sub/video.mp4] and [source/video.mp4] do not. *)
Theorem key_validation (w : world) (cfg : config) (ev : s3_event) (s : state)
    (k : jsstring) :
  credentials_set s = true ->
  sourceKey_of (object_key ev) = Some k ->
  let r := handler w cfg ev s in
  (Regex.matches sourceKeyPattern k = true <-> well_formed_key k)
  /\ (well_formed_key k ->
      exists cred t,
        trace r.2 = trace s ++ EvWriteFile serviceKeyPath cred
                               :: EvGetObject (bucket_name ev) k :: t)
  /\ (~ well_formed_key k -> r = (Throw (InvalidSourceKey k), after_auth w s))
  /\ (sourceKey_of (js "source/abc123/video.mp4") = Some (js "source/abc123/video.mp4")
      /\ Regex.matches sourceKeyPattern (js "source/abc123/video.mp4") = true)
  /\ (sourceKey_of (js "source/abc123/sub/video.mp4")
      = Some (js "source/abc123/sub/video.mp4")
      /\ Regex.matches sourceKeyPattern (js "source/abc123/sub/video.mp4") = false)
  /\ (sourceKey_of (js "source/video.mp4") = Some (js "source/video.mp4")
      /\ Regex.matches sourceKeyPattern (js "source/video.mp4") = false).
Proof.
  intros Hc Hk r.
  split; [apply sourceKeyPattern_well_formed|].
  split; [|split; [|repeat split; vm_compute; reflexivity]].
  - intros Hw%sourceKeyPattern_well_formed. subst r.
    rewrite handler_run, Hc, Hk, Hw. cbv zeta. cbn [snd].
    destruct (convert_shape w cfg (bucket_name ev) k (after_auth w s))
      as (fetched & made & execs & master & uploads & published & Ht & _).
    destruct (cleanup_trace (convert w cfg (bucket_name ev) k (after_auth w s)).2)
      as (cleaned & Hcl & _).
    eexists _, _. rewrite Hcl, Ht. unfold after_auth. cbn [trace log with_fs with_env].
    rewrite <- !app_assoc. cbn [app]. reflexivity.
  - intros Hw. subst r. rewrite handler_run, Hc, Hk.
    destruct (Regex.matches sourceKeyPattern k) eqn:Hm; [|done].
    by apply sourceKeyPattern_well_formed in Hm.
Qed.

Lemma key_validation_witness :
  Regex.matches sourceKeyPattern (js "source/a b/My Video+(1).mp4") = true
  <-> well_formed_key (js "source/a b/My Video+(1).mp4").
Proof.
  apply (key_validation good_world sample_config
           (sample_event "source/a+b/My+Video%2B%281%29.mp4") (initial ∅ sample_env)
           (js "source/a b/My Video+(1).mp4")); vm_compute; reflexivity.
Defined.

(** Dots at either end of the file name do not make an extension, and an
    escaped slash counts as a slash. *)
Lemma key_validation_edges :
  Regex.matches sourceKeyPattern (js "source/abc123/.mp4") = false
  /\ Regex.matches sourceKeyPattern (js "source/abc123/video.") = false
  /\ (Regex.matches sourceKeyPattern <$> sourceKey_of (js "source/abc123/a%2Fb.mp4"))
     = Some false
  /\ sourceKey_of (js "source/abc123/100%.mp4") = None.
Proof. vm_compute. repeat split; reflexivity. Qed.

Lemma ladder_fails_fast_witness :
  (encode_ladder failing_world resolutions (initial stale_files sample_env)).1
  = Throw (ExecError (command_of 1 "720p") 1).
Proof.
  apply (ladder_fails_fast failing_world (initial stale_files sample_env));
    vm_compute; [reflexivity|discriminate].
Defined.

(** * Further properties of the code *)

(** ** The sanitizer: what it lets through *)

Lemma tidy_spec (b : bool) (s : jsstring) :
  tidy b s = true
  <-> name_alphabet s /\ single_hyphens s /\ (b = true -> head s <> Some CHAR_HYPHEN).
Proof.
  unfold name_alphabet, single_hyphens.
  revert b. induction s as [|c rest IH]; intros b.
  - simpl. split; [|done]. intros _. split; [constructor|]. split; [|done].
    intros i Hi. by rewrite lookup_nil in Hi.
  - cbn [tidy]. destruct (is_hyphen c) eqn:Hh.
    + rewrite andb_true_iff, (IH true). apply is_hyphen_eq in Hh as ->.
      split.
      * intros (Hb & Ha & Hs & Hd). apply negb_true_iff in Hb as ->.
        split; [constructor; [by right|done]|]. split; [|done].
        intros [|i] Hi; cbn.
        -- destruct rest as [|d rest']; [done|]. cbn in *. intros [= ->]. by apply Hd.
        -- by apply Hs.
      * intros (Ha & Hs & Hd). apply Forall_cons in Ha as [_ Ha].
        split; [|split; [done|split]].
        -- destruct b; [|done]. exfalso. by apply Hd.
        -- intros i Hi. apply (Hs (S i) Hi).
        -- intros _ Hd'. apply (Hs 0%nat eq_refl). cbn.
           destruct rest; [done|]. cbn in *. done.
    + rewrite andb_true_iff, (IH false).
      assert (Hc : c <> CHAR_HYPHEN).
      { intros ->. done. }
      split.
      * intros (Hb & Ha & Hs & _).
        split; [constructor; [by left|done]|]. split.
        -- intros [|i] Hi; cbn in *; [congruence|by apply Hs].
        -- intros _. cbn. congruence.
      * intros (Ha & Hs & _). apply Forall_cons in Ha as [[Ha1|Ha1] Ha]; [|done].
        split; [done|]. split; [done|]. split; [|done].
        intros i Hi. apply (Hs (S i) Hi).
Qed.

Lemma head_ok_spec (s : jsstring) : head_ok s = true <-> head s <> Some CHAR_HYPHEN.
Proof.
  destruct s as [|c rest]; cbn; [done|].
  unfold is_hyphen. rewrite negb_true_iff, N.eqb_neq. split; congruence.
Qed.

Lemma trimmed_end_spec (s : jsstring) :
  trimmed_end s = true
  <-> last s <> Some CHAR_HYPHEN /\ last s <> Some CHAR_UNDERSCORE.
Proof.
  unfold trimmed_end. destruct (last s) as [c|]; [|done].
  unfold trims, is_hyphen, is_underscore.
  rewrite negb_true_iff, orb_false_iff, !N.eqb_neq. split.
  - intros [H1 H2]. split; congruence.
  - intros [H1 H2]. split; congruence.
Qed.

Lemma replace_runs_length (cls : N -> bool) (b : bool) (s : jsstring) :
  (length (replace_runs cls (js "-") b s) <= length s)%nat.
Proof.
  change (js "-") with [CHAR_HYPHEN].
  revert b. induction s as [|c rest IH]; intros b; cbn; [done|].
  destruct (cls c).
  - destruct b; cbn; [specialize (IH true); lia|specialize (IH true); lia].
  - cbn. specialize (IH false). lia.
Qed.

Lemma trim_ends_length (b : bool) (s : jsstring) :
  (length (trim_ends b s) <= length s)%nat.
Proof.
  revert b. induction s as [|c rest IH]; intros b; [done|].
  cbn [trim_ends]. destruct (_ || _); cbn [length]; specialize (IH false); lia.
Qed.

(** X1: whatever the input, the sanitized name holds only characters of
    [[A-Za-z0-9._]] and hyphens, no two hyphens in a row, no hyphen in first
    place, and is never longer than the input. *)
Theorem sanitize_output (x : jsstring) :
  let out := sanitizeFilename x in
  name_alphabet out
  /\ single_hyphens out
  /\ head out <> Some CHAR_HYPHEN
  /\ (length out <= length x)%nat.
Proof.
  intros out. subst out.
  destruct (sanitize_tidy x) as [Ht Hh].
  apply tidy_spec in Ht as (Ha & Hs & _). apply head_ok_spec in Hh.
  repeat split; try done.
  unfold sanitizeFilename.
  etrans; [apply trim_ends_length|].
  etrans; [apply replace_runs_length|]. apply replace_runs_length.
Qed.

(** X2: the names that the sanitizer leaves as they are: those made of
    characters of [[A-Za-z0-9._]] and single hyphens that do not start with a
    hyphen and end neither in a hyphen nor in an underscore. *)
Theorem sanitize_fixed_points (x : jsstring) :
  sanitizeFilename x = x
  <-> name_alphabet x /\ single_hyphens x /\ head x <> Some CHAR_HYPHEN
      /\ last x <> Some CHAR_HYPHEN /\ last x <> Some CHAR_UNDERSCORE.
Proof.
  split.
  - intros Hx.
    destruct (sanitize_tidy x) as [Ht Hh]. rewrite Hx in Ht, Hh.
    apply tidy_spec in Ht as (Ha & Hs & _). apply head_ok_spec in Hh.
    assert (Hl : trimmed_end (sanitizeFilename x) = true).
    { apply sanitize_idempotent_only_when_trimmed. by rewrite !Hx. }
    rewrite Hx in Hl. apply trimmed_end_spec in Hl as [? ?]. done.
  - intros (Ha & Hs & Hh & Hl1 & Hl2).
    assert (Ht : tidy false x = true) by (apply tidy_spec; done).
    rewrite sanitize_single_pass. unfold collapsed.
    rewrite (tidy_replaced_id x false Ht), (tidy_collapse_id x false Ht).
    rewrite head_ok_strip_first by by apply head_ok_spec.
    apply strip_last_id, trimmed_end_spec. done.
Qed.

(** ** The sanitizer: when nothing is left *)

Lemma collapsed_replaced (s : jsstring) :
  collapsed s = replace_runs (fun c => negb (allowed c)) (js "-") false s.
Proof. unfold collapsed. apply tidy_collapse_id, replaced_tidy. Qed.

Lemma replaced_disallowed (d rest : jsstring) (b : bool) :
  Forall (fun c => allowed c = false) d ->
  replace_runs (fun c => negb (allowed c)) (js "-") b (d ++ rest)
  = (if b then [] else match d with [] => [] | _ => js "-" end)
    ++ replace_runs (fun c => negb (allowed c)) (js "-")
         (match d with [] => b | _ => true end) rest.
Proof.
  revert b. induction d as [|c d IH]; intros b Hd.
  - cbn. by destruct b.
  - apply Forall_cons in Hd as [Hc Hd]. cbn [app replace_runs]. rewrite Hc. cbn [negb].
    rewrite (IH true Hd). cbn [app]. destruct b, d; reflexivity.
Qed.

Lemma disallowed_prefix (x : jsstring) :
  exists d rest,
    x = d ++ rest /\ Forall (fun c => allowed c = false) d
    /\ (rest = [] \/ exists c r, rest = c :: r /\ allowed c = true).
Proof.
  induction x as [|c x (d & rest & -> & Hd & Hr)].
  - exists [], []. split; [done|]. split; [constructor|by left].
  - destruct (allowed c) eqn:Hc.
    + exists [], (c :: d ++ rest). split; [done|]. split; [constructor|].
      right. by exists c, (d ++ rest).
    + exists (c :: d), rest. split; [done|]. split; [by constructor|done].
Qed.

Lemma replaced_nil (b : bool) (s : jsstring) :
  replace_runs (fun c => negb (allowed c)) (js "-") b s = [] ->
  Forall (fun c => allowed c = false) s /\ (b = false -> s = []).
Proof.
  revert b. induction s as [|c rest IH]; intros b; [by split; [constructor|]|].
  cbn [replace_runs]. destruct (allowed c) eqn:Hc; cbn [negb]; [done|].
  destruct b; [|done]. intros [H _]%IH. split; [by constructor|done].
Qed.

Lemma strip_last_nil (p : N -> bool) (s : jsstring) :
  strip_last_if p s = [] <-> s = [] \/ exists c, s = [c] /\ p c = true.
Proof.
  destruct s as [|c [|d rest]]; cbn.
  - split; [by left|done].
  - destruct (p c) eqn:Hp; split; try done.
    + intros _. right. by exists c.
    + intros [?|(c' & [= <-] & ?)]; [done|congruence].
  - split; [done|]. intros [?|(c' & ? & _)]; done.
Qed.

(** X3: the sanitized name is empty exactly when the input is a run
    (possibly empty) of characters outside [[A-Za-z0-9._]], followed by at
    most one underscore. *)
Theorem sanitize_empty (x : jsstring) :
  sanitizeFilename x = []
  <-> exists d u,
        x = d ++ u /\ Forall (fun c => allowed c = false) d
        /\ (u = [] \/ u = [CHAR_UNDERSCORE]).
Proof.
  rewrite sanitize_single_pass, collapsed_replaced. split.
  - intros H.
    destruct (disallowed_prefix x) as (d & rest & -> & Hd & Hr).
    exists d, rest. split; [done|]. split; [done|].
    destruct Hr as [->|(c & r & -> & Hc)]; [by left|right].
    rewrite (replaced_disallowed d (c :: r) false Hd) in H.
    cbn [replace_runs] in H. rewrite Hc in H. cbn [negb] in H.
    assert (Hh : is_hyphen c = false).
    { destruct (is_hyphen c) eqn:E; [|done]. apply hyphen_not_allowed in E. congruence. }
    assert (Hn : forall t : jsstring,
               strip_last_if trims (c :: t) = [] -> t = [] /\ c = CHAR_UNDERSCORE).
    { intros t [?|(c' & [= <- <-] & Hp)]%strip_last_nil; [done|]. split; [done|].
      unfold trims in Hp. rewrite Hh in Hp. cbn in Hp. by apply N.eqb_eq in Hp. }
    assert (Hr : replace_runs (fun c => negb (allowed c)) (js "-") false r = []
                 /\ c = CHAR_UNDERSCORE).
    { destruct d as [|d0 d']; cbn [app strip_first_if] in H.
      - rewrite Hh in H. by apply Hn.
      - change (js "-") with [CHAR_HYPHEN] in H. cbn [app strip_first_if] in H.
        change (is_hyphen CHAR_HYPHEN) with true in H. cbn iota in H. by apply Hn. }
    destruct Hr as [[_ Hr]%replaced_nil ->]. by rewrite Hr.
  - intros (d & u & -> & Hd & Hu).
    rewrite (replaced_disallowed d u false Hd).
    destruct Hu as [->| ->]; destruct d; reflexivity.
Qed.

(** ** Decoding the key of the event *)

Lemma replace_plus (s : jsstring) :
  replace_each (N.eqb CHAR_PLUS) (js " ") s = plus_to_space <$> s.
Proof.
  unfold replace_each. induction s as [|c rest IH]; [done|].
  cbn [fmap list_fmap List.concat]. cbn [fmap] in IH. rewrite IH.
  unfold plus_to_space. rewrite (N.eqb_sym CHAR_PLUS c).
  destruct (c =? CHAR_PLUS); reflexivity.
Qed.

Lemma plus_to_space_percent (c : N) :
  c <> CHAR_PERCENT -> plus_to_space c <> CHAR_PERCENT.
Proof.
  unfold plus_to_space. destruct (c =? CHAR_PLUS); [discriminate|done].
Qed.

Lemma decode_without_escapes (pre rest : jsstring) :
  Forall (fun c => c <> CHAR_PERCENT) pre ->
  JS.decodeURIComponent (pre ++ rest) = app pre <$> JS.decodeURIComponent rest.
Proof.
  induction pre as [|c pre IH]; intros Hp.
  - cbn [app]. by destruct (JS.decodeURIComponent rest).
  - apply Forall_cons in Hp as [Hc%N.eqb_neq Hp].
    unfold JS.decodeURIComponent at 1. cbn [app length JS.decode]. rewrite Hc.
    rewrite decode_fuel by done. rewrite IH by done.
    by destruct (JS.decodeURIComponent rest).
Qed.

Lemma decode_bad_escape (rest : jsstring) :
  (forall h l tail, rest = h :: l :: tail ->
                    JS.hex_value h = None \/ JS.hex_value l = None) ->
  JS.decodeURIComponent (CHAR_PERCENT :: rest) = None.
Proof.
  intros H. unfold JS.decodeURIComponent. cbn [length JS.decode].
  change (CHAR_PERCENT =? CHAR_PERCENT) with true. cbn iota.
  unfold JS.parse_escape. destruct rest as [|h [|l tail]]; [done|done|].
  change (CHAR_PERCENT =? CHAR_PERCENT) with true. cbn iota.
  destruct (H h l tail eq_refl) as [-> | ->]; [done|].
  by destruct (JS.hex_value h).
Qed.

Lemma hex_value_plus_to_space (c : N) :
  JS.hex_value c = None -> JS.hex_value (plus_to_space c) = None.
Proof.
  unfold plus_to_space. destruct (c =? CHAR_PLUS); [reflexivity|done].
Qed.

(** X4: a key without percent sign never fails to decode: it is taken as it
    is, each [+] turned into a space. *)
Theorem sourceKey_without_escapes (key : jsstring) :
  Forall (fun c => c <> CHAR_PERCENT) key ->
  sourceKey_of key = Some (plus_to_space <$> key).
Proof.
  intros Hk. unfold sourceKey_of. rewrite replace_plus.
  rewrite <- (app_nil_r (plus_to_space <$> key)) at 1.
  rewrite decode_without_escapes.
  - cbn. by rewrite app_nil_r.
  - apply Forall_fmap. eapply Forall_impl; [exact Hk|].
    intros c Hc. by apply plus_to_space_percent.
Qed.

Lemma sourceKey_without_escapes_witness :
  sourceKey_of (js "source/u1/my+clip.mp4") = Some (js "source/u1/my clip.mp4").
Proof.
  apply (sourceKey_without_escapes (js "source/u1/my+clip.mp4")).
  repeat constructor; discriminate.
Defined.

(** X5: a key in which a percent sign is not followed by two hexadecimal
    digits does not decode: with the credentials set, the handler throws the
    [URIError] right after writing the credentials file, before any
    validation, fetch or cleanup. *)
Theorem malformed_escape_is_fatal (w : world) (cfg : config) (ev : s3_event)
    (s : state) (pre rest : jsstring) :
  object_key ev = pre ++ CHAR_PERCENT :: rest ->
  Forall (fun c => c <> CHAR_PERCENT) pre ->
  (forall h l tail, rest = h :: l :: tail ->
                    JS.hex_value h = None \/ JS.hex_value l = None) ->
  sourceKey_of (object_key ev) = None
  /\ (credentials_set s = true -> handler w cfg ev s = (Throw URIError, after_auth w s)).
Proof.
  intros Hk Hp Hr.
  assert (Hn : sourceKey_of (object_key ev) = None).
  { rewrite Hk. unfold sourceKey_of. rewrite replace_plus, fmap_app, fmap_cons.
    change (plus_to_space CHAR_PERCENT) with CHAR_PERCENT.
    rewrite decode_without_escapes.
    - rewrite decode_bad_escape; [done|].
      intros h l tail Ht. destruct rest as [|h' [|l' tail']]; try done.
      cbn in Ht. injection Ht as <- <- _.
      destruct (Hr h' l' tail' eq_refl) as [H|H]; [left|right];
        by apply hex_value_plus_to_space.
    - apply Forall_fmap. eapply Forall_impl; [exact Hp|].
      intros c Hc. by apply plus_to_space_percent. }
  split; [done|]. intros Hc. by rewrite handler_run, Hc, Hn.
Qed.

Lemma malformed_escape_is_fatal_witness :
  let ev := sample_event "source/u1/100%.mp4" in
  let s := initial ∅ sample_env in
  sourceKey_of (object_key ev) = None
  /\ (credentials_set s = true ->
      handler good_world sample_config ev s = (Throw URIError, after_auth good_world s)).
Proof.
  apply (malformed_escape_is_fatal good_world sample_config
           (sample_event "source/u1/100%.mp4") (initial ∅ sample_env)
           (js "source/u1/100") (js ".mp4") eq_refl).
  - repeat constructor; discriminate.
  - intros h l tail [= <- <- <-]. by left.
Defined.

(** ** The parts of an accepted key *)

Lemma split_from_segment (sep : N) (seg rest cur : jsstring) :
  Forall (fun c => c <> sep) seg ->
  JS.split_from sep (seg ++ rest) cur = JS.split_from sep rest (rev seg ++ cur).
Proof.
  revert cur. induction seg as [|c seg IH]; intros cur Hs; [done|].
  apply Forall_cons in Hs as [Hc%N.eqb_neq Hs].
  cbn [app JS.split_from]. rewrite Hc, IH by done.
  cbn [rev]. by rewrite <- app_assoc.
Qed.

Lemma split_segments (sep : N) (seg : jsstring) (rest : jsstring) :
  Forall (fun c => c <> sep) seg ->
  JS.split sep (seg ++ sep :: rest) = seg :: JS.split sep rest.
Proof.
  intros Hs. unfold JS.split. rewrite split_from_segment by done.
  cbn [JS.split_from]. rewrite N.eqb_refl, app_nil_r, rev_involutive. done.
Qed.

Lemma split_last (sep : N) (seg : jsstring) :
  Forall (fun c => c <> sep) seg -> JS.split sep seg = [seg].
Proof.
  intros Hs. unfold JS.split. rewrite <- (app_nil_r seg) at 1.
  rewrite split_from_segment by done. cbn. by rewrite app_nil_r, rev_involutive.
Qed.

(** X6: a key that passes validation splits at its slashes into exactly
    three parts, [source], the owner and the file name; the unique key is the
    owner part (never [undefined]) and the target prefix is
    [hls/<owner>/<sanitized base name>/]. *)
Theorem accepted_key_parts (k : jsstring) :
  Regex.matches sourceKeyPattern k = true ->
  exists owner file,
    k = js "source/" ++ owner ++ js "/" ++ file
    /\ segment owner /\ segment file
    /\ JS.split CHAR_FORWARD_SLASH k = [js "source"; owner; file]
    /\ uniqueKey_of k = VString owner
    /\ targetPrefix_of k = js "hls/" ++ owner ++ js "/" ++ baseFilename_of k ++ js "/".
Proof.
  intros (owner & base & ext & -> & Ho & Hb & He)%sourceKeyPattern_well_formed.
  exists owner, (base ++ js "." ++ ext).
  assert (Hf : segment (base ++ js "." ++ ext)).
  { destruct Hb as [Hb1 Hb2], He as [He1 He2]. split.
    - destruct base; done.
    - apply Forall_app. split; [done|]. apply Forall_app. split; [|done].
      repeat constructor. discriminate. }
  assert (Hs : JS.split CHAR_FORWARD_SLASH
                 (js "source/" ++ owner ++ js "/" ++ base ++ js "." ++ ext)
               = [js "source"; owner; base ++ js "." ++ ext]).
  { change (js "source/" ++ ?r) with (js "source" ++ CHAR_FORWARD_SLASH :: r).
    rewrite split_segments by (repeat constructor; discriminate).
    change (js "/" ++ ?r) with (CHAR_FORWARD_SLASH :: r).
    rewrite split_segments by apply Ho.
    rewrite split_last by apply Hf. done. }
  assert (Hu : uniqueKey_of (js "source/" ++ owner ++ js "/" ++ base ++ js "." ++ ext)
               = VString owner).
  { unfold uniqueKey_of. by rewrite Hs. }
  repeat split; try done; try apply Ho; try apply Hf.
  unfold targetPrefix_of. by rewrite Hu.
Qed.

Lemma accepted_key_parts_witness :
  exists owner file,
    js "source/abc123/My Video (1).mp4" = js "source/" ++ owner ++ js "/" ++ file
    /\ segment owner /\ segment file
    /\ JS.split CHAR_FORWARD_SLASH (js "source/abc123/My Video (1).mp4")
       = [js "source"; owner; file]
    /\ uniqueKey_of (js "source/abc123/My Video (1).mp4") = VString owner
    /\ targetPrefix_of (js "source/abc123/My Video (1).mp4")
       = js "hls/" ++ owner ++ js "/"
         ++ baseFilename_of (js "source/abc123/My Video (1).mp4") ++ js "/".
Proof. apply (accepted_key_parts (js "source/abc123/My Video (1).mp4")). reflexivity. Defined.

(** ** Paths as segments *)

Lemma join_snoc (l : list jsstring) (x : jsstring) :
  l <> [] -> JS.join (js "/") (l ++ [x]) = JS.join (js "/") l ++ js "/" ++ x.
Proof.
  induction l as [|a l IH]; [done|]. intros _.
  destruct l as [|b l]; [done|].
  change (JS.join (js "/") ((a :: b :: l) ++ [x]))
    with (a ++ js "/" ++ JS.join (js "/") ((b :: l) ++ [x])).
  rewrite IH by done.
  change (JS.join (js "/") (a :: b :: l)) with (a ++ js "/" ++ JS.join (js "/") (b :: l)).
  by rewrite <- !app_assoc.
Qed.

Lemma render_cons (top next : jsstring) (below : list jsstring) :
  render (top :: next :: below) = render (next :: below) ++ js "/" ++ top.
Proof.
  unfold render. cbn [rev]. apply join_snoc.
  intros H%(f_equal length). rewrite length_app in H. cbn in H. lia.
Qed.

Lemma render_one (top : jsstring) : render [top] = top.
Proof. reflexivity. Qed.

Lemma lastIndexOf_from_app (c : N) (a b : jsstring) (i found : Z) :
  JS.lastIndexOf_from c (a ++ b) i found
  = JS.lastIndexOf_from c b (i + Z.of_nat (length a)) (JS.lastIndexOf_from c a i found).
Proof.
  revert i found. induction a as [|d a IH]; intros i found.
  - cbn. f_equal. lia.
  - cbn [app JS.lastIndexOf_from length]. rewrite IH. f_equal. lia.
Qed.

Lemma lastIndexOf_from_free (c : N) (s : jsstring) (i found : Z) :
  Forall (fun d => d <> c) s -> JS.lastIndexOf_from c s i found = found.
Proof.
  revert i found. induction s as [|d s IH]; intros i found Hs; [done|].
  apply Forall_cons in Hs as [Hd%N.eqb_neq Hs]. cbn. rewrite Hd. by apply IH.
Qed.

Lemma lastIndexOf_free (s : jsstring) :
  slash_free s -> JS.lastIndexOf s CHAR_FORWARD_SLASH = (-1)%Z.
Proof. apply lastIndexOf_from_free. Qed.

Lemma lastIndexOf_last (a b : jsstring) :
  slash_free b ->
  JS.lastIndexOf (a ++ js "/" ++ b) CHAR_FORWARD_SLASH = Z.of_nat (length a).
Proof.
  intros Hb. unfold JS.lastIndexOf.
  rewrite lastIndexOf_from_app. change (js "/" ++ b) with (CHAR_FORWARD_SLASH :: b).
  cbn [JS.lastIndexOf_from]. rewrite N.eqb_refl.
  rewrite lastIndexOf_from_free by done. lia.
Qed.

Lemma slice_prefix (a b : jsstring) : JS.slice (a ++ b) 0 (Z.of_nat (length a)) = a.
Proof.
  pose proof (slice_middle [] a b) as H. cbn [app length] in H. exact H.
Qed.

Lemma last_cons_default (c code : N) (blk : jsstring) :
  default code (last (c :: blk)) = default c (last blk).
Proof. rewrite last_cons. by destruct (last blk). Qed.

(** The characters of one segment only move the index and count the dots. *)
Lemma scan_segment (path : jsstring) (allow : bool) (blk pre post : jsstring)
    (fuel : nat) (res : jsstring) (lsl ls d : Z) (code : N) :
  path = pre ++ blk ++ post -> slash_free blk ->
  Path.normalizeString_loop path allow (length blk + fuel) (Z.of_nat (length pre))
    res lsl ls d code
  = Path.normalizeString_loop path allow fuel (Z.of_nat (length pre + length blk))
      res lsl ls (fold_left count_dots blk d) (default code (last blk)).
Proof.
  intros -> Hb. revert pre d code.
  induction blk as [|c blk IH]; intros pre d code.
  - cbn [length Nat.add fold_left last default]. by rewrite Nat.add_0_r.
  - apply Forall_cons in Hb as [Hc%N.eqb_neq Hb].
    cbn [length Nat.add Path.normalizeString_loop].
    replace (Z.of_nat (length pre) <? Z.of_nat (length (pre ++ (c :: blk) ++ post)))%Z
      with true by (symmetry; apply Z.ltb_lt; rewrite !length_app; cbn [length]; lia).
    rewrite Nat2Z.id. cbn [app]. rewrite charCodeAt_middle, Hc.
    cbn [fold_left]. rewrite last_cons_default.
    replace (Z.of_nat (length pre) + 1)%Z with (Z.of_nat (length (pre ++ [c])))
      by (rewrite length_app; cbn [length]; lia).
    replace (length pre + S (length blk))%nat with (length (pre ++ [c]) + length blk)%nat
      by (rewrite length_app; cbn [length]; lia).
    specialize (IH Hb (pre ++ [c])). rewrite <- !app_assoc in IH. cbn [app] in IH.
    rewrite <- IH. unfold count_dots.
    by destruct ((c =? CHAR_DOT) && negb (d =? -1)%Z).
Qed.

Lemma count_dots_off (blk : jsstring) : fold_left count_dots blk (-1)%Z = (-1)%Z.
Proof.
  induction blk as [|c blk IH]; [done|]. cbn [fold_left].
  unfold count_dots at 2. cbn. by rewrite andb_false_r.
Qed.

Lemma count_dots_from (blk : jsstring) (d : Z) :
  (0 <= d)%Z ->
  fold_left count_dots blk d
  = if forallb (N.eqb CHAR_DOT) blk then (d + Z.of_nat (length blk))%Z else (-1)%Z.
Proof.
  revert d. induction blk as [|c blk IH]; intros d Hd.
  - cbn. lia.
  - cbn [fold_left forallb length]. unfold count_dots at 2.
    rewrite (N.eqb_sym CHAR_DOT c).
    replace (d =? -1)%Z with false by (symmetry; apply Z.eqb_neq; lia).
    destruct (c =? CHAR_DOT); cbn [andb negb].
    + rewrite IH by lia. destruct (forallb _ blk); lia.
    + apply count_dots_off.
Qed.

Lemma all_dots (blk : jsstring) :
  forallb (N.eqb CHAR_DOT) blk = true -> blk = replicate (length blk) CHAR_DOT.
Proof.
  induction blk as [|c blk IH]; [done|]. cbn [forallb length replicate].
  intros [<-%N.eqb_eq H]%andb_true_iff. f_equal. by apply IH.
Qed.

(** The cases of a segment, as its dots are counted. *)
Lemma segment_cases (seg : jsstring) :
  (seg = [] /\ fold_left count_dots seg 0%Z = 0%Z)
  \/ (seg = js "." /\ fold_left count_dots seg 0%Z = 1%Z)
  \/ (seg = js ".." /\ fold_left count_dots seg 0%Z = 2%Z)
  \/ (seg <> [] /\ seg <> js "." /\ seg <> js ".."
      /\ fold_left count_dots seg 0%Z <> 1%Z /\ fold_left count_dots seg 0%Z <> 2%Z).
Proof.
  rewrite count_dots_from by lia.
  destruct (forallb (N.eqb CHAR_DOT) seg) eqn:E.
  - apply all_dots in E. destruct (length seg) as [|[|[|n]]] eqn:L.
    + left. by rewrite E.
    + right; left. by rewrite E.
    + right; right; left. by rewrite E.
    + right; right; right. rewrite E. cbn. repeat split; try done; lia.
  - right; right; right. repeat split; try done; by intros ->.
Qed.

Lemma resolve_step_skip (allow : bool) (stack : list jsstring) (seg : jsstring) :
  seg = [] \/ seg = js "." -> resolve_step allow stack seg = stack.
Proof. intros [-> | ->]; reflexivity. Qed.

Lemma resolve_step_push (allow : bool) (stack : list jsstring) (seg : jsstring) :
  seg <> [] -> seg <> js "." -> seg <> js ".." ->
  resolve_step allow stack seg = seg :: stack.
Proof.
  intros H1 H2 H3. unfold resolve_step.
  by rewrite !bool_decide_eq_false_2.
Qed.

Lemma resolve_step_dotdot (allow : bool) (stack : list jsstring) :
  resolve_step allow stack (js "..")
  = match stack with
    | top :: below =>
        if bool_decide (top = js "..")
        then if allow then js ".." :: stack else stack
        else below
    | [] => if allow then [js ".."] else []
    end.
Proof. reflexivity. Qed.

Lemma render_length (top : jsstring) (below : list jsstring) :
  kept (top :: below) -> (0 < length (render (top :: below)))%nat.
Proof.
  intros Hk. destruct below as [|next below].
  - apply Forall_cons in Hk as [[Hn _] _]. rewrite render_one.
    destruct top; [done|cbn; lia].
  - rewrite render_cons, !length_app. cbn. lia.
Qed.

Lemma render_suffix (top : jsstring) (below : list jsstring) :
  exists pre, render (top :: below) = pre ++ top
              /\ (below = [] -> pre = [])
              /\ (below <> [] -> pre = render below ++ js "/").
Proof.
  destruct below as [|next below].
  - exists []. by rewrite render_one.
  - exists (render (next :: below) ++ js "/"). rewrite render_cons, <- app_assoc. done.
Qed.

Lemma render_slash_free_top (top : jsstring) (below : list jsstring) :
  kept (top :: below) -> slash_free top.
Proof. by intros [[_ H] _]%Forall_cons. Qed.

(** The test that the result ends in a segment [..]. *)
Lemma ends_in_dotdot (top : jsstring) (below : list jsstring) :
  kept (top :: below) ->
  let res := render (top :: below) in
  let rlen := Z.of_nat (length res) in
  (rlen <? 2)%Z || negb (top_length (top :: below) =? 2)%Z
  || negb (JS.charCodeAt res (Z.to_nat (rlen - 1)) =? CHAR_DOT)
  || negb (JS.charCodeAt res (Z.to_nat (rlen - 2)) =? CHAR_DOT)
  = negb (bool_decide (top = js "..")).
Proof.
  intros Hk res rlen. subst rlen res.
  destruct (render_suffix top below) as (pre & -> & _).
  cbn [top_length]. rewrite length_app.
  destruct top as [|a [|b [|c top]]].
  - by apply Forall_cons in Hk as [[? _] _].
  - cbn [length]. rewrite bool_decide_eq_false_2 by done.
    replace (Z.of_nat 1 =? 2)%Z with false by done.
    cbn [negb]. by rewrite orb_true_r.
  - cbn [length].
    replace (Z.of_nat (length pre + 2) <? 2)%Z with false
      by (symmetry; apply Z.ltb_ge; lia).
    replace (Z.of_nat 2 =? 2)%Z with true by done.
    replace (Z.to_nat (Z.of_nat (length pre + 2) - 1)) with (length (pre ++ [a])) by length_norm.
    replace (Z.to_nat (Z.of_nat (length pre + 2) - 2)) with (length pre) by lia.
    rewrite charCodeAt_middle.
    replace (pre ++ [a; b]) with ((pre ++ [a]) ++ [b]) by by rewrite <- app_assoc.
    rewrite charCodeAt_middle. cbn [negb orb].
    destruct (a =? CHAR_DOT) eqn:Ea, (b =? CHAR_DOT) eqn:Eb; cbn [negb orb];
      try apply N.eqb_eq in Ea as ->; try apply N.eqb_eq in Eb as ->;
      try apply N.eqb_neq in Ea; try apply N.eqb_neq in Eb.
    + by rewrite bool_decide_eq_true_2.
    + rewrite bool_decide_eq_false_2; [done|]. intros [= ?]. done.
    + rewrite bool_decide_eq_false_2; [done|]. intros [= ?]. done.
    + rewrite bool_decide_eq_false_2; [done|]. intros [= ? ?]. done.
  - cbn [length]. rewrite bool_decide_eq_false_2 by done.
    replace (Z.of_nat (S (S (S (length top)))) =? 2)%Z with false
      by (symmetry; apply Z.eqb_neq; lia).
    cbn [negb]. by rewrite orb_true_r.
Qed.

(** Removing the last segment of the result. *)
Lemma pop_segment {A} (K : jsstring -> Z -> A) (other : A) (top : jsstring)
    (below : list jsstring) :
  kept (top :: below) ->
  let res := render (top :: below) in
  let rlen := Z.of_nat (length res) in
  (if (2 <? rlen)%Z then
     let lastSlashIndex := JS.lastIndexOf res CHAR_FORWARD_SLASH in
     if (lastSlashIndex =? -1)%Z then K [] 0%Z
     else
       let res' := JS.slice res 0 lastSlashIndex in
       K res' (Z.of_nat (length res') - 1 - JS.lastIndexOf res' CHAR_FORWARD_SLASH)%Z
   else if negb (rlen =? 0)%Z then K [] 0%Z
   else other)
  = K (render below) (top_length below).
Proof.
  intros Hk res rlen. subst res rlen. cbn zeta.
  pose proof (render_slash_free_top top below Hk) as Hf.
  apply Forall_cons in Hk as [[Hne _] Hk].
  destruct below as [|next below].
  - rewrite render_one, lastIndexOf_free by done. cbn [Z.eqb].
    replace (Z.of_nat (length top) =? 0)%Z with false
      by (symmetry; apply Z.eqb_neq; destruct top; [done|cbn [length]; lia]).
    cbn [negb]. by destruct (2 <? _)%Z.
  - rewrite render_cons.
    pose proof (render_length next below Hk) as Hl.
    replace (2 <? _)%Z with true
      by (symmetry; apply Z.ltb_lt; rewrite !length_app;
          change (length (js "/")) with 1%nat;
          destruct top; [done|cbn [length]; lia]).
    rewrite lastIndexOf_last by done.
    replace (Z.of_nat (length (render (next :: below))) =? -1)%Z with false
      by (symmetry; apply Z.eqb_neq; lia).
    rewrite slice_prefix. f_equal. cbn [top_length].
    pose proof (render_slash_free_top next below Hk) as Hn.
    destruct below as [|next' below].
    + rewrite render_one, lastIndexOf_free by done. lia.
    + rewrite render_cons, lastIndexOf_last by done. rewrite !length_app.
      change (length (js "/")) with 1%nat. lia.
Qed.

(** The end of a segment: the iteration that reads the slash after it, or
    the one past the end of the path. *)
Lemma segment_end (allow : bool) (path : jsstring) (fuel : nat) (i ls : Z)
    (stack : list jsstring) (seg : jsstring) (code : N) :
  kept stack -> slash_free seg -> JS.slice path (ls + 1) i = seg ->
  i = (ls + 1 + Z.of_nat (length seg))%Z ->
  ((i < Z.of_nat (length path))%Z /\ JS.charCodeAt path (Z.to_nat i) = CHAR_FORWARD_SLASH
   \/ (Z.of_nat (length path) <= i)%Z /\ code <> CHAR_FORWARD_SLASH) ->
  Path.normalizeString_loop path allow (S fuel) i (render stack) (top_length stack) ls
    (fold_left count_dots seg 0%Z) code
  = Path.normalizeString_loop path allow fuel (i + 1)
      (render (resolve_step allow stack seg))
      (top_length (resolve_step allow stack seg)) i 0 CHAR_FORWARD_SLASH.
Proof.
  intros Hk Hs Hsl Hi Hat.
  cbn [Path.normalizeString_loop].
  set (next := Path.normalizeString_loop path allow fuel (i + 1)).
  destruct Hat as [[H1 H2]|[H1 H2]];
    [ rewrite (proj2 (Z.ltb_lt _ _) H1), H2
    | rewrite (proj2 (Z.ltb_ge _ _) H1), (proj2 (N.eqb_neq _ _) H2) ];
    change (CHAR_FORWARD_SLASH =? CHAR_FORWARD_SLASH) with true; cbn iota.
  all: destruct (segment_cases seg)
         as [[-> ->]|[[-> ->]|[[-> ->]|(Hn1 & Hn2 & Hn3 & Hd1 & Hd2)]]].
  all: try (cbn in Hi).
  (* the empty segment *)
  1, 5: replace (ls =? i - 1)%Z with true by (symmetry; apply Z.eqb_eq; lia);
        cbn [orb]; reflexivity.
  (* [.] *)
  1, 4: rewrite orb_true_r; reflexivity.
  (* [..] *)
  1, 3: replace (ls =? i - 1)%Z with false by (symmetry; apply Z.eqb_neq; lia);
        cbn [orb Z.eqb Pos.eqb];
        destruct stack as [|top below];
        [ destruct allow; reflexivity
        | rewrite (ends_in_dotdot top below Hk);
          rewrite resolve_step_dotdot;
          destruct (bool_decide (top = js "..")) eqn:Et; cbn [negb];
          [ apply bool_decide_eq_true_1 in Et as ->;
            replace (0 <? Z.of_nat (length (render (js ".." :: below))))%Z with true
              by (symmetry; apply Z.ltb_lt;
                  pose proof (render_length (js "..") below Hk); lia);
            destruct allow; [|reflexivity];
            change (js "/..") with (js "/" ++ js "..");
            rewrite <- render_cons; reflexivity
          | apply (pop_segment (fun r l => next r l i 0%Z CHAR_FORWARD_SLASH)); exact Hk ] ].
  (* a segment kept *)
  all: replace (ls =? i - 1)%Z with false
         by (symmetry; apply Z.eqb_neq; destruct seg; [done|cbn [length] in Hi; lia]).
  all: apply Z.eqb_neq in Hd1, Hd2; rewrite Hd1, Hd2; cbn [orb].
  all: rewrite resolve_step_push, Hsl by done.
  all: replace (i - ls - 1)%Z with (Z.of_nat (length seg)) by lia.
  all: destruct stack as [|top below]; [reflexivity|].
  all: replace (0 <? Z.of_nat (length (render (top :: below))))%Z with true
         by (symmetry; apply Z.ltb_lt;
             pose proof (render_length top below Hk); lia).
  all: rewrite <- render_cons; reflexivity.
Qed.

Lemma resolve_step_kept (allow : bool) (stack : list jsstring) (seg : jsstring) :
  kept stack -> slash_free seg -> kept (resolve_step allow stack seg).
Proof.
  intros Hk Hs.
  assert (Hd : kept [js ".."]).
  { constructor; [|constructor]. split; [done|]. repeat constructor; discriminate. }
  apply Forall_cons in Hd as [Hd _].
  destruct (segment_cases seg) as [[-> _]|[[-> _]|[[-> _]|(Hn1 & Hn2 & Hn3 & _)]]].
  - done.
  - done.
  - rewrite resolve_step_dotdot. destruct stack as [|top below].
    + destruct allow; [|done]. by constructor.
    + destruct (bool_decide (top = js "..")).
      * destruct allow; [|done]. by constructor.
      * by apply Forall_cons in Hk as [_ Hk].
  - rewrite resolve_step_push by done. by constructor.
Qed.

Lemma last_slash_free (seg : jsstring) (code : N) :
  slash_free seg -> default code (last seg) = CHAR_FORWARD_SLASH ->
  seg = [] /\ code = CHAR_FORWARD_SLASH.
Proof.
  intros Hs. destruct seg as [|c seg] using rev_ind; [done|].
  rewrite last_snoc. cbn. intros ->.
  apply Forall_app in Hs as [_ [Hc _]%Forall_cons]. done.
Qed.

(** The loop of [normalizeString], segment by segment. *)
Lemma loop_segments (allow : bool) (path : jsstring) (segs : list jsstring) :
  forall (pre : jsstring) (stack : list jsstring) (code : N),
    Forall slash_free segs -> segs <> [] ->
    path = pre ++ JS.join (js "/") segs -> kept stack ->
    Path.normalizeString_loop path allow (S (length (JS.join (js "/") segs)))
      (Z.of_nat (length pre)) (render stack) (top_length stack)
      (Z.of_nat (length pre) - 1) 0 code
    = render (fold_left (resolve_step allow) segs stack).
Proof.
  induction segs as [|seg rest IH]; intros pre stack code Hf Hne Hp Hk; [done|].
  apply Forall_cons in Hf as [Hs Hf].
  destruct rest as [|seg' rest].
  - cbn [JS.join fold_left] in *.
    replace (S (length seg)) with (length seg + 1)%nat by lia.
    rewrite (scan_segment path allow seg pre [] 1) by (by rewrite ?app_nil_r).
    destruct (decide (default code (last seg) = CHAR_FORWARD_SLASH)) as [Hc|Hc].
    + destruct (last_slash_free seg code Hs Hc) as [-> ->].
      cbn [Path.normalizeString_loop length last default].
      replace (_ <? _)%Z with false
        by (symmetry; apply Z.ltb_ge; subst path; rewrite length_app; cbn [length]; lia).
      reflexivity.
    + rewrite (segment_end allow path 0 _ (Z.of_nat (length pre) - 1) stack seg); try done.
      * replace (Z.of_nat (length pre) - 1 + 1)%Z with (Z.of_nat (length pre)) by lia.
        subst path. rewrite <- (app_nil_r seg) at 1.
        rewrite <- (slice_middle pre seg []) at 3. f_equal.
        rewrite length_app. lia.
      * lia.
      * right. split; [|done]. subst path. rewrite length_app. lia.
  - change (JS.join (js "/") (seg :: seg' :: rest))
      with (seg ++ js "/" ++ JS.join (js "/") (seg' :: rest)) in *.
    set (J := JS.join (js "/") (seg' :: rest)) in *.
    replace (S (length (seg ++ js "/" ++ J))) with (length seg + S (S (length J)))%nat
      by (rewrite !length_app; change (length (js "/")) with 1%nat; lia).
    rewrite (scan_segment path allow seg pre (js "/" ++ J)) by done.
    rewrite (segment_end allow path (S (length J)) _ (Z.of_nat (length pre) - 1) stack seg);
      try done.
    + replace (Z.of_nat (length pre + length seg) + 1)%Z
        with (Z.of_nat (length (pre ++ seg ++ js "/")))
        by (rewrite !length_app; change (length (js "/")) with 1%nat; lia).
      replace (Z.of_nat (length pre + length seg))
        with (Z.of_nat (length (pre ++ seg ++ js "/")) - 1)%Z
        by (rewrite !length_app; change (length (js "/")) with 1%nat; lia).
      cbn [fold_left]. apply IH; try done.
      * subst path. by rewrite <- !app_assoc.
      * by apply resolve_step_kept.
    + replace (Z.of_nat (length pre) - 1 + 1)%Z with (Z.of_nat (length pre)) by lia.
      subst path. rewrite <- (slice_middle pre seg (js "/" ++ J)) at 3. f_equal.
      rewrite length_app. lia.
    + lia.
    + left. subst path. split.
      * rewrite !length_app. change (length (js "/")) with 1%nat. lia.
      * rewrite Nat2Z.id, <- length_app.
        rewrite (app_assoc pre seg). change (js "/" ++ J) with (CHAR_FORWARD_SLASH :: J).
        apply charCodeAt_middle.
Qed.

(** [normalizeString] on a path given by its segments. *)
Lemma normalizeString_segments (allow : bool) (segs : list jsstring) :
  Forall slash_free segs -> segs <> [] ->
  Path.normalizeString (JS.join (js "/") segs) allow = render (resolve allow segs).
Proof.
  intros Hf Hne. unfold Path.normalizeString, resolve.
  apply (loop_segments allow _ segs [] [] 0); try done. constructor.
Qed.

Lemma trailing_char (pre name : jsstring) :
  name <> [] -> slash_free name ->
  (JS.charCodeAt (pre ++ name) (length (pre ++ name) - 1) =? CHAR_FORWARD_SLASH) = false.
Proof.
  intros Hne Hs. destruct name as [|c name _] using rev_ind; [done|].
  apply Forall_app in Hs as [_ [Hc _]%Forall_cons].
  rewrite (app_assoc pre name [c]).
  replace (length ((pre ++ name) ++ [c]) - 1)%nat with (length (pre ++ name))
    by (rewrite (length_app _ [c]); cbn [length]; lia).
  rewrite charCodeAt_middle. by apply N.eqb_neq.
Qed.

Lemma ordinary_push (allow : bool) (stack : list jsstring) (seg : jsstring) :
  ordinary seg -> resolve_step allow stack seg = seg :: stack.
Proof. intros (H1 & _ & H2 & H3). by apply resolve_step_push. Qed.

Lemma resolve_snoc (allow : bool) (segs : list jsstring) (seg : jsstring) :
  resolve allow (segs ++ [seg]) = resolve_step allow (resolve allow segs) seg.
Proof. unfold resolve. by rewrite fold_left_app. Qed.

Lemma render_nonempty (top : jsstring) (below : list jsstring) :
  top <> [] -> render (top :: below) <> [].
Proof.
  intros Hne. destruct (render_suffix top below) as (pre & -> & _).
  intros [_ ?]%app_eq_nil. done.
Qed.

Lemma normalize_eq (path : jsstring) (first : N) (rest : jsstring) :
  path = first :: rest ->
  Path.normalize path
  = let isAbsolute := first =? CHAR_FORWARD_SLASH in
    let trailingSeparator :=
      JS.charCodeAt path (length path - 1) =? CHAR_FORWARD_SLASH in
    let p := Path.normalizeString path (negb isAbsolute) in
    match p with
    | [] => if isAbsolute then js "/" else if trailingSeparator then js "./" else js "."
    | _ =>
        let p := if trailingSeparator then p ++ js "/" else p in
        if isAbsolute then js "/" ++ p else p
    end.
Proof. intros ->. reflexivity. Qed.

(** A file of the output directory. *)
Lemma join_output_dir (name : jsstring) :
  ordinary name -> Path.join [TEMP_OUTPUT_DIR; name] = js "/tmp/output/" ++ name.
Proof.
  intros Ho. pose proof Ho as (Hne & Hs & _).
  unfold Path.join.
  assert (Hf : filter (fun arg : jsstring => (0 <? length arg)%nat = true)
                 [TEMP_OUTPUT_DIR; name] = [TEMP_OUTPUT_DIR; name]).
  { rewrite filter_cons_True by done. rewrite filter_cons_True; [done|].
    destruct name; [done|reflexivity]. }
  rewrite Hf.
  change (JS.join (js "/") [TEMP_OUTPUT_DIR; name])
    with (JS.join (js "/") ([ []; js "tmp"; js "output"; [] ] ++ [name])).
  set (segs := [ []; js "tmp"; js "output"; [] ] ++ [name]).
  assert (Hsegs : Forall slash_free segs).
  { subst segs. apply Forall_app. split; [|by repeat constructor].
    repeat constructor; discriminate. }
  assert (Hj : JS.join (js "/") segs
               = CHAR_FORWARD_SLASH :: js "tmp/output/" ++ js "/" ++ name) by reflexivity.
  rewrite (normalize_eq _ _ _ Hj). cbn zeta.
  rewrite N.eqb_refl. cbn [negb].
  rewrite normalizeString_segments by done.
  subst segs. rewrite resolve_snoc.
  change (resolve false [[]; js "tmp"; js "output"; []]) with [js "output"; js "tmp"].
  rewrite ordinary_push by done.
  rewrite Hj.
  change (CHAR_FORWARD_SLASH :: js "tmp/output/" ++ js "/" ++ name)
    with (js "/tmp/output//" ++ name).
  rewrite trailing_char by done.
  pose proof (render_nonempty name [js "output"; js "tmp"] Hne) as Hr.
  destruct (render [name; js "output"; js "tmp"]) as [|c r] eqn:E; [done|].
  rewrite <- E. rewrite !render_cons. reflexivity.
Qed.

(** A key below the target prefix. *)
Lemma join_prefix (owner base file : jsstring) :
  slash_free owner -> slash_free base -> ordinary file ->
  Path.join [js "hls/" ++ owner ++ js "/" ++ base ++ js "/"; file]
  = render (file :: resolve true [js "hls"; owner; base]).
Proof.
  intros Hso Hsb Ho. pose proof Ho as (Hne & Hs & _).
  unfold Path.join.
  rewrite filter_cons_True by done.
  rewrite filter_cons_True by (destruct file; [done|reflexivity]).
  rewrite filter_nil.
  change (Path.normalize
            (JS.join (js "/") [js "hls/" ++ owner ++ js "/" ++ base ++ js "/"; file])
          = render (file :: resolve true [js "hls"; owner; base])).
  set (segs := [js "hls"; owner; base; []] ++ [file]).
  assert (Hj : JS.join (js "/") [js "hls/" ++ owner ++ js "/" ++ base ++ js "/"; file]
               = JS.join (js "/") segs).
  { subst segs. cbn [JS.join app]. rewrite <- !app_assoc. reflexivity. }
  rewrite Hj.
  assert (Hsegs : Forall slash_free segs).
  { subst segs. repeat constructor; try done; discriminate. }
  assert (Hh : JS.join (js "/") segs
               = 104 :: js "ls/" ++ owner ++ js "/" ++ base ++ js "/" ++ js "/" ++ file)
    by reflexivity.
  rewrite (normalize_eq _ _ _ Hh). cbn zeta.
  change (104 =? CHAR_FORWARD_SLASH) with false. cbn [negb].
  rewrite normalizeString_segments by done.
  rewrite Hh.
  replace (104 :: js "ls/" ++ owner ++ js "/" ++ base ++ js "/" ++ js "/" ++ file)
    with ((js "hls/" ++ owner ++ js "/" ++ base ++ js "/" ++ js "/") ++ file)
    by (rewrite <- !app_assoc; reflexivity).
  rewrite trailing_char by done.
  subst segs. rewrite resolve_snoc.
  change [js "hls"; owner; base; []] with ([js "hls"; owner; base] ++ [[]]).
  rewrite resolve_snoc, (resolve_step_skip true _ []) by by left.
  rewrite ordinary_push by done.
  pose proof (render_nonempty file (resolve true [js "hls"; owner; base]) Hne) as Hr.
  by destruct (render (file :: resolve true [js "hls"; owner; base])).
Qed.

Lemma resolve_three (owner base : jsstring) :
  resolve true [js "hls"; owner; base]
  = resolve_step true (resolve_step true [js "hls"] owner) base.
Proof. reflexivity. Qed.

Lemma sanitize_slash_free (s : jsstring) : slash_free (sanitizeFilename s).
Proof.
  destruct (sanitize_tidy s) as [Ht _].
  apply tidy_spec in Ht as (Ha & _).
  eapply Forall_impl; [exact Ha|]. intros c [Hc| ->]; [|done].
  intros ->. done.
Qed.

(** ** Where the uploads go *)

Lemma accepted_owner (k : jsstring) :
  Regex.matches sourceKeyPattern k = true ->
  exists owner,
    uniqueKey_of k = VString owner /\ segment owner
    /\ targetPrefix_of k = js "hls/" ++ owner ++ js "/" ++ baseFilename_of k ++ js "/".
Proof.
  intros (owner & base & ext & -> & Ho & Hb & He)%sourceKeyPattern_well_formed.
  assert (Hu : uniqueKey_of (js "source/" ++ owner ++ js "/" ++ base ++ js "." ++ ext)
               = VString owner).
  { unfold uniqueKey_of.
    change (js "source/" ++ ?r) with (js "source" ++ CHAR_FORWARD_SLASH :: r).
    rewrite split_segments by (repeat constructor; discriminate).
    change (js "/" ++ ?r) with (CHAR_FORWARD_SLASH :: r).
    rewrite split_segments by apply Ho. done. }
  exists owner. split; [done|]. split; [done|].
  unfold targetPrefix_of. by rewrite Hu.
Qed.

Lemma target_key (k file owner : jsstring) :
  Regex.matches sourceKeyPattern k = true -> ordinary file ->
  uniqueKey_of k = VString owner ->
  Path.join [targetPrefix_of k; file]
  = render (file :: resolve true [js "hls"; owner; baseFilename_of k]).
Proof.
  intros Hk Hf Hu.
  destruct (accepted_owner k Hk) as (owner' & Hu' & [_ Ho] & ->).
  assert (owner' = owner) as -> by congruence.
  apply join_prefix; [done| |done]. apply sanitize_slash_free.
Qed.

Lemma target_key_ordinary (k file owner : jsstring) :
  Regex.matches sourceKeyPattern k = true ->
  uniqueKey_of k = VString owner ->
  ordinary owner -> ordinary (baseFilename_of k) -> ordinary file ->
  Path.join [targetPrefix_of k; file]
  = js "hls/" ++ owner ++ js "/" ++ baseFilename_of k ++ js "/" ++ file.
Proof.
  intros Hk Hu Ho Hb Hf.
  rewrite (target_key k file owner) by done.
  rewrite resolve_three, !ordinary_push by done.
  rewrite !render_cons. by rewrite <- !app_assoc.
Qed.

(** X7: for an accepted key whose owner part and sanitized base name are
    ordinary names (not empty, not [.] or [..]), a file [f] of the output
    directory is read from [/tmp/output/f] and uploaded under the key
    [hls/<owner>/<base>/f]. *)
Theorem upload_key_below_prefix (k file owner : jsstring) :
  Regex.matches sourceKeyPattern k = true ->
  uniqueKey_of k = VString owner ->
  ordinary owner -> ordinary (baseFilename_of k) -> ordinary file ->
  Path.join [targetPrefix_of k; file]
  = js "hls/" ++ owner ++ js "/" ++ baseFilename_of k ++ js "/" ++ file
  /\ Path.join [TEMP_OUTPUT_DIR; file] = js "/tmp/output/" ++ file.
Proof.
  intros Hk Hu Ho Hb Hf. split; [by apply target_key_ordinary|by apply join_output_dir].
Qed.

Lemma ordinary_literal (s : jsstring) :
  s <> [] -> forallb (fun c => negb (c =? CHAR_FORWARD_SLASH)) s = true ->
  s <> js "." -> s <> js ".." -> ordinary s.
Proof.
  intros H1 H2 H3 H4. split; [done|]. split; [|done].
  apply Forall_forall. intros c Hc.
  rewrite forallb_forall in H2. apply list_elem_of_In, H2 in Hc.
  by apply negb_true_iff, N.eqb_neq in Hc.
Qed.

Lemma upload_key_below_prefix_witness :
  Path.join [targetPrefix_of (js "source/abc123/My Video (1).mp4"); js "720p_004.ts"]
  = js "hls/abc123/My-Video-1/720p_004.ts"
  /\ Path.join [TEMP_OUTPUT_DIR; js "720p_004.ts"] = js "/tmp/output/720p_004.ts".
Proof.
  apply (upload_key_below_prefix (js "source/abc123/My Video (1).mp4")
           (js "720p_004.ts") (js "abc123"));
    try reflexivity; by apply ordinary_literal.
Defined.

(** X8: the keys of the uploads when the owner part or the sanitized base
    name is not an ordinary name, since [path.join] normalizes the key: an
    empty base name or [.] is dropped, a base name [..] removes the owner part
    from the key, an owner [..] removes the [hls] prefix. *)
Theorem upload_key_degenerate (k file owner : jsstring) :
  Regex.matches sourceKeyPattern k = true ->
  uniqueKey_of k = VString owner ->
  ordinary file ->
  let base := baseFilename_of k in
  let key := Path.join [targetPrefix_of k; file] in
  (ordinary owner -> base = [] \/ base = js "." ->
   key = js "hls/" ++ owner ++ js "/" ++ file)
  /\ (ordinary owner -> base = js ".." -> key = js "hls/" ++ file)
  /\ (owner = js "." -> ordinary base -> key = js "hls/" ++ base ++ js "/" ++ file)
  /\ (owner = js ".." -> ordinary base -> key = base ++ js "/" ++ file)
  /\ (owner = js ".." -> base = js ".." -> key = js "../" ++ file).
Proof.
  intros Hk Hu Hf base key. subst base key.
  rewrite (target_key k file owner) by done.
  rewrite resolve_three.
  repeat split.
  - intros Ho Hb. rewrite (ordinary_push _ _ owner), resolve_step_skip by done.
    rewrite !render_cons. by rewrite <- !app_assoc.
  - intros Ho ->. rewrite (ordinary_push _ _ owner) by done.
    rewrite resolve_step_dotdot, bool_decide_eq_false_2 by apply Ho.
    by rewrite render_cons.
  - intros -> Hb. rewrite (resolve_step_skip _ _ (js ".")) by by right.
    rewrite ordinary_push by done. rewrite !render_cons. by rewrite <- !app_assoc.
  - intros -> Hb. rewrite ordinary_push by done. by rewrite render_cons.
  - intros -> ->.
    change (resolve_step true (resolve_step true [js "hls"] (js "..")) (js ".."))
      with [js ".."].
    by rewrite render_cons.
Qed.

Lemma upload_key_degenerate_witness :
  let key k := Path.join [targetPrefix_of (js k); js "master.m3u8"] in
  key "source/u1/@@@.mp4" = js "hls/u1/master.m3u8"
  /\ key "source/u1/...mp4" = js "hls/master.m3u8"
  /\ key "source/../clip.mp4" = js "clip/master.m3u8".
Proof.
  assert (Hf : ordinary (js "master.m3u8")) by by apply ordinary_literal.
  assert (Hu : ordinary (js "u1")) by by apply ordinary_literal.
  assert (Hc : ordinary (js "clip")) by by apply ordinary_literal.
  cbn zeta. split; [|split].
  - destruct (upload_key_degenerate (js "source/u1/@@@.mp4") (js "master.m3u8") (js "u1")
                eq_refl eq_refl Hf) as (H & _).
    apply (H Hu). by left.
  - destruct (upload_key_degenerate (js "source/u1/...mp4") (js "master.m3u8") (js "u1")
                eq_refl eq_refl Hf) as (_ & H & _).
    by apply (H Hu).
  - destruct (upload_key_degenerate (js "source/../clip.mp4") (js "master.m3u8") (js "..")
                eq_refl eq_refl Hf) as (_ & _ & _ & H & _).
    by apply (H eq_refl).
Defined.

(** ** The upload loop *)

Lemma upload_all_cons w bucket prefix file rest s :
  upload_all w bucket prefix (file :: rest) s
  = if upload_accepted w bucket prefix (fs s) file
    then upload_all w bucket prefix rest (log (upload_of bucket prefix (fs s) file) s)
    else (Throw (UploadError bucket (Path.join [prefix; file])),
          log (upload_of bucket prefix (fs s) file) s).
Proof.
  cbn [upload_all]. unfold upload_accepted, upload_of.
  repeat (rewrite run_bind; cbn [get_fs emit]).
  by destruct (s3_upload w bucket _ _).
Qed.

Lemma upload_all_keeps w bucket prefix files s :
  fs (upload_all w bucket prefix files s).2 = fs s
  /\ env (upload_all w bucket prefix files s).2 = env s
  /\ playlists (upload_all w bucket prefix files s).2 = playlists s.
Proof.
  revert s. induction files as [|file rest IH]; intros s; [done|].
  rewrite upload_all_cons. destruct (upload_accepted _ _ _ _ _); [|done].
  destruct (IH (log (upload_of bucket prefix (fs s) file) s)) as (-> & -> & ->). done.
Qed.

Lemma upload_all_ok w bucket prefix files s :
  (upload_all w bucket prefix files s).1 = Ok tt ->
  trace (upload_all w bucket prefix files s).2
  = trace s ++ (upload_of bucket prefix (fs s) <$> files).
Proof.
  revert s. induction files as [|file rest IH]; intros s.
  - intros _. cbn. by rewrite app_nil_r.
  - rewrite upload_all_cons. destruct (upload_accepted _ _ _ _ _); [|done].
    intros H. rewrite IH by done. cbn [log trace fs fmap list_fmap].
    by rewrite <- app_assoc.
Qed.


(** X9: the upload loop sends the listed files in order, each under
    [path.join(prefix, file)] with the content of [/tmp/output/file]; it stops
    at the first upload that fails and throws its error, it goes through the
    whole listing otherwise; it changes neither the local files, nor the
    environment, nor [playlists]. *)
Theorem upload_all_stops_at_failure (w : world) (bucket prefix : jsstring)
    (files : list jsstring) (s : state) :
  let r := upload_all w bucket prefix files s in
  fs r.2 = fs s /\ env r.2 = env s /\ playlists r.2 = playlists s
  /\ match list_find (fun file => upload_accepted w bucket prefix (fs s) file = false) files with
     | None =>
         r.1 = Ok tt
         /\ trace r.2 = trace s ++ (upload_of bucket prefix (fs s) <$> files)
     | Some (i, file) =>
         r.1 = Throw (UploadError bucket (Path.join [prefix; file]))
         /\ trace r.2 = trace s ++ (upload_of bucket prefix (fs s) <$> take (S i) files)
     end.
Proof.
  cbv zeta. revert s. induction files as [|file rest IH]; intros s.
  - cbn. by rewrite app_nil_r.
  - rewrite upload_all_cons. cbn [list_find].
    destruct (upload_accepted w bucket prefix (fs s) file) eqn:Ha.
    + rewrite decide_False by done.
      specialize (IH (log (upload_of bucket prefix (fs s) file) s)).
      cbn [log fs env playlists trace] in IH.
      destruct IH as (-> & -> & -> & IH). repeat split.
      destruct (list_find _ rest) as [[i file']|]; cbn [fmap option_fmap option_map prod_map fst snd].
      * destruct IH as [-> ->]. split; [done|].
        cbn [take fmap list_fmap]. by rewrite <- app_assoc.
      * destruct IH as [-> ->]. split; [done|]. by rewrite <- app_assoc.
    + rewrite decide_True by done. cbn. done.
Qed.

(** ** The encode ladder, whatever the profiles *)


Lemma ladder_ok_trace w (ladder : list object) s :
  (encode_ladder w ladder s).1 = Ok tt ->
  trace (encode_ladder w ladder s).2 = trace s ++ (EvExec <$> (command_for <$> ladder)).
Proof.
  revert s. induction ladder as [|res rest IH]; intros s.
  - intros _. cbn. by rewrite app_nil_r.
  - rewrite encode_ladder_cons, encode_one_run. cbv zeta.
    destruct (exit_code _ =? 0)%Z; [|done].
    intros H. rewrite IH by done. cbn [after_encode trace fmap list_fmap].
    by rewrite <- app_assoc.
Qed.


(** X10: on any ladder, the loop starts the encoder for the profiles in
    order and stops at the first run that fails: the encoder was started for
    the first [n] profiles, an entry was pushed for each of them (the failed
    one included), the result is [Ok] only if all were run, and an error is
    the one of the last run, with its command line and non-zero exit code. *)
Theorem ladder_stops_at_failure (w : world) (ladder : list object) (s : state) :
  let r := encode_ladder w ladder s in
  exists n : nat,
    (n <= length ladder)%nat
    /\ trace r.2 = trace s ++ (EvExec <$> (command_for <$> take n ladder))
    /\ playlists r.2 = playlists s ++ (entry_of <$> take n ladder)
    /\ env r.2 = env s
    /\ (r.1 = Ok tt -> n = length ladder)
    /\ (forall e, r.1 = Throw e ->
          exists res code,
            ladder !! (n - 1)%nat = Some res /\ n <> 0%nat /\ code <> 0%Z
            /\ e = ExecError (command_for res) code).
Proof.
  cbv zeta. revert s. induction ladder as [|res rest IH]; intros s.
  - exists 0%nat. cbn. rewrite !app_nil_r. repeat split; done.
  - rewrite encode_ladder_cons, encode_one_run. cbv zeta.
    destruct (exit_code _ =? 0)%Z eqn:Hc.
    + destruct (IH (after_encode w res s)) as (n & Hn & Ht & Hp & He & Hok & Hth).
      exists (S n). cbn [length take fmap list_fmap].
      rewrite Ht, Hp, He. cbn [after_encode trace playlists env].
      rewrite <- !app_assoc. repeat split; try done.
      * lia.
      * intros H. f_equal. by apply Hok.
      * intros e H. destruct (Hth e H) as (res' & code & Hl & Hn0 & Hc0 & ->).
        exists res', code. repeat split; try done.
        destruct n; [done|]. cbn in *. by rewrite Nat.sub_0_r in Hl.
    + exists 1%nat. cbn [length take fmap list_fmap fst snd after_encode trace playlists env].
      repeat split; try done.
      * lia.
      * intros e [= <-]. eexists res, _. repeat split; try done.
        by apply Z.eqb_neq in Hc.
Qed.

(** ** What an invocation leaves on the file system *)




Lemma ladder_is_Some w (ladder : list object) s (p : jsstring) :
  is_Some (fs s !! p) -> is_Some (fs (encode_ladder w ladder s).2 !! p).
Proof.
  revert s. induction ladder as [|res rest IH]; intros s Hp; [done|].
  rewrite encode_ladder_cons, encode_one_run. cbv zeta.
  assert (H : is_Some (fs (after_encode w res s) !! p))
    by (unfold after_encode; cbn [fs]; by apply write_outputs_is_Some).
  destruct (exit_code _ =? 0)%Z; [by apply IH|done].
Qed.








(** ** Outcomes of an invocation *)

(** X12: when the variable [GCP_SERVICE_KEY] is unset or empty the handler
    throws before it reads the event: the state is untouched, nothing is
    written, fetched or logged. *)
Theorem missing_credentials (w : world) (cfg : config) (ev : s3_event) (s : state) :
  env s !! "GCP_SERVICE_KEY" = None \/ env s !! "GCP_SERVICE_KEY" = Some [] ->
  handler w cfg ev s = (Throw MissingServiceKey, s).
Proof.
  intros H. rewrite handler_run.
  assert (credentials_set s = false) as ->; [|done].
  unfold credentials_set. by destruct H as [-> | ->].
Qed.

Lemma missing_credentials_witness :
  handler good_world sample_config (sample_event "source/u1/clip.mp4")
    (initial stale_files {[ "GCP_SERVICE_KEY" := [] ]})
  = (Throw MissingServiceKey, initial stale_files {[ "GCP_SERVICE_KEY" := [] ]}).
Proof.
  apply (missing_credentials good_world sample_config (sample_event "source/u1/clip.mp4")
           (initial stale_files {[ "GCP_SERVICE_KEY" := [] ]})).
  right. reflexivity.
Defined.

(** X13: when the fetch of the source object fails, the handler throws that
    error; it asked the object store once, started no encoder, uploaded and
    published nothing, and ran the cleanup. *)
Theorem fetch_failure (w : world) (cfg : config) (ev : s3_event) (s : state)
    (k : jsstring) :
  credentials_set s = true ->
  sourceKey_of (object_key ev) = Some k ->
  Regex.matches sourceKeyPattern k = true ->
  s3_getObject w (bucket_name ev) k = None ->
  let r := handler w cfg ev s in
  r.1 = Throw (GetObjectError (bucket_name ev) k)
  /\ exists cred cleaned,
       trace r.2 = trace s ++ [EvWriteFile serviceKeyPath cred; EvGetObject (bucket_name ev) k]
                   ++ cleaned
       /\ Forall (fun e => e = EvUnlink TEMP_INPUT_FILE \/ e = EvRm TEMP_OUTPUT_DIR) cleaned.
Proof.
  intros Hc Hk Hm Hg r. subst r. rewrite handler_run, Hc, Hk, Hm. cbv zeta.
  rewrite convert_run, Hg. cbn [fst snd]. split; [done|].
  destruct (cleanup_trace (log (EvGetObject (bucket_name ev) k) (after_auth w s)))
    as (cleaned & -> & Hcl).
  eexists _, cleaned. split; [|done].
  unfold after_auth. cbn [trace log with_fs with_env]. by rewrite <- !app_assoc.
Qed.

Lemma fetch_failure_witness :
  let r := handler offline_world sample_config (sample_event "source/u1/clip.mp4")
             (initial ∅ sample_env) in
  r.1 = Throw (GetObjectError (js "videos") (js "source/u1/clip.mp4"))
  /\ exists cred cleaned,
       trace r.2 = [] ++ [EvWriteFile serviceKeyPath cred;
                          EvGetObject (js "videos") (js "source/u1/clip.mp4")] ++ cleaned
       /\ Forall (fun e => e = EvUnlink TEMP_INPUT_FILE \/ e = EvRm TEMP_OUTPUT_DIR) cleaned.
Proof.
  apply (fetch_failure offline_world sample_config (sample_event "source/u1/clip.mp4")
           (initial ∅ sample_env) (js "source/u1/clip.mp4")); vm_compute; reflexivity.
Defined.

Lemma starts_with_spec (p s : jsstring) :
  Fs.starts_with p s = true <-> exists r, s = p ++ r.
Proof.
  revert s. induction p as [|c p IH]; intros s.
  - cbn. split; [eauto|done].
  - destruct s as [|d s]; cbn.
    + split; [done|]. by intros (r & ?).
    + rewrite andb_true_iff, N.eqb_eq, IH. split.
      * intros [-> (r & ->)]. eauto.
      * intros (r & [= -> ->]). eauto.
Qed.

(** The listing of the output directory. *)
Lemma readdir_elem (files : filesystem) (name : jsstring) :
  name ∈ Fs.readdirSync TEMP_OUTPUT_DIR files
  <-> name <> [] /\ slash_free name /\ is_Some (files !! (js "/tmp/output/" ++ name)).
Proof.
  unfold Fs.readdirSync. change (Fs.entry TEMP_OUTPUT_DIR) with (js "/tmp/output").
  rewrite list_elem_of_omap. unfold Fs.child_name.
  change (js "/tmp/output" ++ js "/") with (js "/tmp/output/").
  change (length (js "/tmp/output") + 1)%nat with (length (js "/tmp/output/")).
  split.
  - intros ([k x] & Hin%elem_of_map_to_list & H). cbn [fst] in H.
    destruct (Fs.starts_with (js "/tmp/output/") k) eqn:E; [|done].
    apply starts_with_spec in E as (r & ->). rewrite drop_app_length in H.
    destruct (bool_decide (r <> []) && _) eqn:E2; [|done].
    injection H as ->. apply andb_true_iff in E2 as [E2 E3].
    apply bool_decide_eq_true_1 in E2. split; [done|]. split; [|by rewrite Hin].
    apply Forall_forall. intros c Hc. rewrite forallb_forall in E3.
    apply list_elem_of_In, E3 in Hc. by apply negb_true_iff, N.eqb_neq in Hc.
  - intros (Hne & Hs & [x Hx]). exists (js "/tmp/output/" ++ name, x).
    split; [by apply elem_of_map_to_list|]. cbn [fst].
    assert (E : Fs.starts_with (js "/tmp/output/") (js "/tmp/output/" ++ name) = true)
      by (apply starts_with_spec; eauto).
    rewrite E, drop_app_length, bool_decide_eq_true_2 by done.
    cbn [andb].
    assert (E3 : forallb (fun c => negb (c =? CHAR_FORWARD_SLASH)) name = true).
    { apply forallb_forall. intros c Hc%list_elem_of_In.
      apply negb_true_iff, N.eqb_neq. by eapply Forall_forall in Hs. }
    by rewrite E3.
Qed.

Lemma ladder_commands :
  command_for <$> resolutions
  = [command_of 0 "1080p"; command_of 1 "720p"; command_of 2 "480p"].
Proof. vm_compute. reflexivity. Qed.

(** A successful invocation, action by action. *)
Lemma success_shape (w : world) (cfg : config) (ev : s3_event) (s : state)
    (resp : response) :
  (handler w cfg ev s).1 = Ok resp ->
  exists k cred body made listing,
    sourceKey_of (object_key ev) = Some k
    /\ Regex.matches sourceKeyPattern k = true
    /\ s3_getObject w (bucket_name ev) k = Some body
    /\ resp = response_of cfg k
    /\ Forall (fun e => e = EvMkdir TEMP_OUTPUT_DIR) made
    /\ listing !! masterPlaylistPath = Some (File (master_playlist ladder_entries))
    /\ (forall p : jsstring, is_Some (fs s !! p) -> is_Some (listing !! p))
    /\ trace (handler w cfg ev s).2
       = trace s
         ++ [EvWriteFile serviceKeyPath cred; EvGetObject (bucket_name ev) k;
             EvWriteFile TEMP_INPUT_FILE body]
         ++ made
         ++ (EvExec <$> [command_of 0 "1080p"; command_of 1 "720p"; command_of 2 "480p"])
         ++ [EvWriteFile masterPlaylistPath (master_playlist ladder_entries)]
         ++ (upload_of (bucket_name ev) (targetPrefix_of k) listing
               <$> Fs.readdirSync TEMP_OUTPUT_DIR listing)
         ++ [EvPublish (PROJECT_ID cfg) (PUBSUB_TOPIC cfg) resp;
             EvUnlink TEMP_INPUT_FILE; EvRm TEMP_OUTPUT_DIR].
Proof.
  rewrite handler_run.
  destruct (credentials_set s) eqn:Hc; [|done].
  destruct (sourceKey_of (object_key ev)) as [k|]; [|done].
  destruct (Regex.matches sourceKeyPattern k) eqn:Hm; [|done].
  cbv zeta. cbn [fst snd]. rewrite convert_run.
  destruct (s3_getObject w (bucket_name ev) k) as [body|] eqn:Hg; [|done].
  set (b := bucket_name ev) in *.
  set (s0 := after_auth w s).
  set (s1 := ready_state (fetched_state body b k s0)).
  destruct (ready_trace (fetched_state body b k s0)) as (made & Hmade & Hmk & Hnil).
  fold s1 in Hmade, Hnil.
  pose proof (ladder_ok_trace w resolutions s1) as Ht.
  pose proof (ladder_playlists w resolutions s1) as Hp.
  pose proof (fun p => ladder_is_Some w resolutions s1 p) as Hi.
  rewrite Hnil, profile_entries in Hp. rewrite ladder_commands in Ht.
  destruct (encode_ladder w resolutions s1) as [[[]|e] s2]; [|done].
  cbn [fst snd] in Ht, Hp, Hi. specialize (Ht eq_refl). specialize (Hp eq_refl).
  cbn [app] in Hp. cbv zeta.
  set (s3 := synthesized_state s2).
  pose proof (upload_all_ok w b (targetPrefix_of k)
                (Fs.readdirSync TEMP_OUTPUT_DIR (fs s3)) s3) as Hu.
  destruct (upload_all_keeps w b (targetPrefix_of k)
              (Fs.readdirSync TEMP_OUTPUT_DIR (fs s3)) s3) as (Hf & _ & _).
  destruct (upload_all w b _ _ s3) as [[[]|e] s4]; [|done].
  cbn [fst snd] in Hu, Hf. specialize (Hu eq_refl).
  destruct (pubsub_publish w _ _ _); [|done].
  cbn [fst snd]. intros [= <-].
  assert (H3 : fs s3 = Fs.writeFileSync masterPlaylistPath (master_playlist ladder_entries)
                         (fs s2)).
  { subst s3. unfold synthesized_state. cbn [fs with_fs log]. by rewrite Hp. }
  assert (Hkeep : forall p : jsstring, is_Some (fs s !! p) -> is_Some (fs s3 !! p)).
  { intros p Hp0. rewrite H3. apply write_file_is_Some, Hi.
    subst s1. unfold ready_state, fetched_state.
    destruct (Fs.existsSync _ _); cbn [fs with_fs with_playlists log].
    - apply write_file_is_Some. subst s0. unfold after_auth. cbn [fs with_fs with_env log].
      by apply write_file_is_Some.
    - unfold Fs.mkdirSync. apply lookup_insert_is_Some'. right.
      apply write_file_is_Some. subst s0. unfold after_auth. cbn [fs with_fs with_env log].
      by apply write_file_is_Some. }
  assert (Hin : is_Some (fs s3 !! TEMP_INPUT_FILE)).
  { rewrite H3. apply write_file_is_Some, Hi.
    subst s1. unfold ready_state, fetched_state.
    destruct (Fs.existsSync _ _); cbn [fs with_fs with_playlists log].
    - unfold Fs.writeFileSync. change (Fs.entry TEMP_INPUT_FILE) with TEMP_INPUT_FILE.
      by rewrite lookup_insert_eq.
    - unfold Fs.mkdirSync. apply lookup_insert_is_Some'. right.
      unfold Fs.writeFileSync. change (Fs.entry TEMP_INPUT_FILE) with TEMP_INPUT_FILE.
      by rewrite lookup_insert_eq. }
  assert (Hout : is_Some (fs s3 !! js "/tmp/output")).
  { rewrite H3. apply write_file_is_Some, Hi.
    subst s1. unfold ready_state.
    destruct (Fs.existsSync TEMP_OUTPUT_DIR _) eqn:E; cbn [fs with_fs with_playlists log].
    - unfold Fs.existsSync in E. by apply bool_decide_eq_true_1 in E.
    - unfold Fs.mkdirSync. change (Fs.entry TEMP_OUTPUT_DIR) with (js "/tmp/output").
      by rewrite lookup_insert_eq. }
  exists k, (base64_decode w (default [] (env s !! "GCP_SERVICE_KEY"))), body, made, (fs s3).
  split; [done|]. split; [done|]. split; [done|]. split; [done|]. split; [done|].
  split.
  { rewrite H3. unfold Fs.writeFileSync.
    change (Fs.entry masterPlaylistPath) with masterPlaylistPath.
    by rewrite lookup_insert_eq. }
  split; [done|].
  set (pub := EvPublish (PROJECT_ID cfg) (PUBSUB_TOPIC cfg) (response_of cfg k)).
  set (s5 := log pub s4).
  assert (E1 : Fs.existsSync TEMP_INPUT_FILE (fs s5) = true).
  { subst s5. cbn [fs log]. rewrite Hf. unfold Fs.existsSync.
    by apply bool_decide_eq_true_2. }
  assert (E2 : Fs.existsSync TEMP_OUTPUT_DIR
                 (fs (with_fs (Fs.unlinkSync TEMP_INPUT_FILE)
                        (log (EvUnlink TEMP_INPUT_FILE) s5))) = true).
  { subst s5. cbn [fs log with_fs]. rewrite Hf. unfold Fs.existsSync, Fs.unlinkSync.
    apply bool_decide_eq_true_2.
    change (Fs.entry TEMP_OUTPUT_DIR) with (js "/tmp/output").
    change (Fs.entry TEMP_INPUT_FILE) with TEMP_INPUT_FILE.
    by rewrite lookup_delete_ne. }
  unfold after_cleanup. rewrite E1, E2.
  subst s5. cbn [trace log with_fs]. rewrite Hu.
  assert (H3t : trace s3 = trace s2
                  ++ [EvWriteFile masterPlaylistPath (master_playlist ladder_entries)]).
  { subst s3. unfold synthesized_state. cbn [trace with_fs log]. by rewrite Hp. }
  assert (H0t : trace (fetched_state body b k s0)
                = trace s ++ [EvWriteFile serviceKeyPath
                                (base64_decode w (default [] (env s !! "GCP_SERVICE_KEY")));
                              EvGetObject b k; EvWriteFile TEMP_INPUT_FILE body]).
  { unfold fetched_state. subst s0. unfold after_auth.
    cbn [trace log with_fs with_env]. by rewrite <- !app_assoc. }
  set (uploads := upload_of b (targetPrefix_of k) (fs s3)
                    <$> Fs.readdirSync TEMP_OUTPUT_DIR (fs s3)) in *.
  set (execs := EvExec <$> [command_of 0 "1080p"; command_of 1 "720p"; command_of 2 "480p"])
    in *.
  set (written := EvWriteFile masterPlaylistPath (master_playlist ladder_entries)) in *.
  clearbody uploads execs written pub.
  rewrite H3t, Ht, Hmade, H0t, <- !app_assoc. reflexivity.
Qed.



Lemma master_listed (listing : filesystem) (text : jsstring) :
  listing !! masterPlaylistPath = Some (File text) ->
  js "master.m3u8" ∈ Fs.readdirSync TEMP_OUTPUT_DIR listing
  /\ Fs.read (Path.join [TEMP_OUTPUT_DIR; js "master.m3u8"]) listing = text.
Proof.
  intros H. split.
  - apply readdir_elem. split; [done|]. split; [repeat constructor; discriminate|].
    change (js "/tmp/output/" ++ js "master.m3u8") with masterPlaylistPath. by rewrite H.
  - rewrite master_path. unfold Fs.read.
    change (Fs.entry masterPlaylistPath) with masterPlaylistPath. by rewrite H.
Qed.

(** X15: on success the master playlist is uploaded under the key
    [hls/<owner>/<base>/master.m3u8], while the URL announced in the response
    is [<CLOUDFRONT_URL>/<owner>/<base>/master.m3u8], without the [hls]
    prefix. *)
Theorem master_key_and_url (w : world) (cfg : config) (ev : s3_event) (s : state)
    (resp : response) (k owner : jsstring) :
  (handler w cfg ev s).1 = Ok resp ->
  sourceKey_of (object_key ev) = Some k ->
  uniqueKey_of k = VString owner ->
  ordinary owner -> ordinary (baseFilename_of k) ->
  EvUpload (bucket_name ev)
    (js "hls/" ++ owner ++ js "/" ++ baseFilename_of k ++ js "/master.m3u8")
    (master_playlist ladder_entries) ∈ trace (handler w cfg ev s).2
  /\ masterPlaylist resp
     = to_string (CLOUDFRONT_URL cfg) ++ js "/" ++ owner ++ js "/" ++ baseFilename_of k
       ++ js "/master.m3u8".
Proof.
  intros H Hk Hu Ho Hb.
  destruct (success_shape w cfg ev s resp H)
    as (k' & cred & body & made & listing & Hk' & Hm & Hg & -> & Hmk & Hl & _ & Ht).
  assert (k' = k) as -> by congruence.
  split.
  - rewrite Ht. destruct (master_listed listing _ Hl) as [Hin Hread].
    rewrite !elem_of_app. do 5 right. left.
    apply list_elem_of_fmap. exists (js "master.m3u8"). split; [|done].
    unfold upload_of. rewrite Hread.
    rewrite (target_key_ordinary k (js "master.m3u8") owner); try done.
    by apply ordinary_literal.
  - unfold response_of. cbn [masterPlaylist]. by rewrite Hu.
Qed.

Lemma master_key_and_url_witness :
  EvUpload (js "videos") (js "hls/u1/clip/master.m3u8") (master_playlist ladder_entries)
    ∈ trace (handler good_world sample_config (sample_event "source/u1/clip.mp4")
               (initial ∅ sample_env)).2
  /\ masterPlaylist (response_of sample_config (js "source/u1/clip.mp4"))
     = js "https://cdn.example.com/u1/clip/master.m3u8".
Proof.
  apply (master_key_and_url good_world sample_config (sample_event "source/u1/clip.mp4")
           (initial ∅ sample_env) (response_of sample_config (js "source/u1/clip.mp4"))
           (js "source/u1/clip.mp4") (js "u1"));
    try (vm_compute; reflexivity); by apply ordinary_literal.
Defined.

(** X16: the output directory is reused, not emptied: a file that lay in
    [/tmp/output/] before a successful invocation is uploaded with the
    renditions, under the target prefix of the new key. *)
Theorem leftovers_are_uploaded (w : world) (cfg : config) (ev : s3_event) (s : state)
    (resp : response) (k name : jsstring) :
  (handler w cfg ev s).1 = Ok resp ->
  sourceKey_of (object_key ev) = Some k ->
  name <> [] -> slash_free name ->
  is_Some (fs s !! (js "/tmp/output/" ++ name)) ->
  exists body,
    EvUpload (bucket_name ev) (Path.join [targetPrefix_of k; name]) body
      ∈ trace (handler w cfg ev s).2.
Proof.
  intros H Hk Hne Hs Hin.
  destruct (success_shape w cfg ev s resp H)
    as (k' & cred & body & made & listing & Hk' & Hm & Hg & -> & Hmk & Hl & Hkeep & Ht).
  assert (k' = k) as -> by congruence.
  eexists. rewrite Ht, !elem_of_app. do 5 right. left.
  apply list_elem_of_fmap. exists name. split; [reflexivity|].
  apply readdir_elem. split; [done|]. split; [done|]. by apply Hkeep.
Qed.

Lemma leftovers_are_uploaded_witness :
  exists body,
    EvUpload (js "videos") (Path.join [targetPrefix_of (js "source/u1/clip.mp4");
                                       js "old_000.ts"]) body
      ∈ trace (handler good_world sample_config (sample_event "source/u1/clip.mp4")
                 (initial leftover_files sample_env)).2.
Proof.
  apply (leftovers_are_uploaded good_world sample_config
           (sample_event "source/u1/clip.mp4") (initial leftover_files sample_env)
           (response_of sample_config (js "source/u1/clip.mp4"))
           (js "source/u1/clip.mp4") (js "old_000.ts")).
  - vm_compute. reflexivity.
  - vm_compute. reflexivity.
  - discriminate.
  - repeat constructor; discriminate.
  - vm_compute. eauto.
Defined.



(** ** The entry pushed for a profile *)

Lemma basename_loop_skip (blk pre post : jsstring) (start e : Z) :
  e <> (-1)%Z -> slash_free blk ->
  Path.basename_loop (pre ++ blk ++ post) (length (pre ++ blk)) start e false
  = Path.basename_loop (pre ++ blk ++ post) (length pre) start e false.
Proof.
  intros He. revert post. induction blk as [|c blk IH] using rev_ind; intros post Hb.
  - by rewrite app_nil_r.
  - apply Forall_app in Hb as [Hb [Hc%N.eqb_neq _]%Forall_cons].
    rewrite <- (app_assoc blk [c] post). cbn [app].
    rewrite (app_assoc pre blk [c]), length_app. cbn [length].
    rewrite Nat.add_1_r. cbn [Path.basename_loop].
    rewrite (app_assoc pre blk (c :: post)), charCodeAt_middle, <- app_assoc, Hc.
    apply Z.eqb_neq in He. rewrite He. by apply IH.
Qed.

Lemma basename_loop_last (path q : jsstring) (c : N) (n : nat) :
  path = q ++ [c] -> n = S (length q) -> c <> CHAR_FORWARD_SLASH ->
  Path.basename_loop path n 0 (-1) true
  = Path.basename_loop path (length q) 0 (Z.of_nat (length q) + 1) false.
Proof.
  intros -> -> Hc%N.eqb_neq. cbn [Path.basename_loop].
  by rewrite charCodeAt_middle, Hc.
Qed.

Lemma basename_loop_slash (path d rest : jsstring) (n : nat) (start e : Z) :
  path = d ++ CHAR_FORWARD_SLASH :: rest -> n = S (length d) ->
  Path.basename_loop path n start e false = ((Z.of_nat (length d) + 1)%Z, e).
Proof.
  intros -> ->. cbn [Path.basename_loop]. by rewrite charCodeAt_middle, N.eqb_refl.
Qed.

Lemma basename_loop_skip_at (path blk pre post : jsstring) (n : nat) (start e : Z) :
  path = pre ++ blk ++ post -> n = (length pre + length blk)%nat ->
  e <> (-1)%Z -> slash_free blk ->
  Path.basename_loop path n start e false
  = Path.basename_loop path (length pre) start e false.
Proof. intros -> -> He Hb. rewrite <- length_app. by apply basename_loop_skip. Qed.

(** The last segment of a path that does not end in a slash. *)
Lemma basename_of_path (dir file : jsstring) :
  file <> [] -> slash_free file ->
  Path.basename (dir ++ js "/" ++ file) None = file.
Proof.
  intros Hne Hs. unfold Path.basename.
  destruct file as [|c file _] using rev_ind; [done|].
  apply Forall_app in Hs as [Hs [Hc _]%Forall_cons].
  change (js "/") with [CHAR_FORWARD_SLASH].
  set (P := dir ++ [CHAR_FORWARD_SLASH] ++ file ++ [c]).
  rewrite (basename_loop_last P (dir ++ [CHAR_FORWARD_SLASH] ++ file) c)
    by (done || (subst P; list_norm; reflexivity) || (subst P; length_norm)).
  rewrite (basename_loop_skip_at P file (dir ++ [CHAR_FORWARD_SLASH]) [c])
    by (done || (subst P; list_norm; reflexivity) || length_norm).
  rewrite (basename_loop_slash P dir (file ++ [c]))
    by ((subst P; list_norm; reflexivity) || length_norm).
  replace (_ =? -1)%Z with false by (symmetry; apply Z.eqb_neq; lia).
  subst P.
  replace (dir ++ [CHAR_FORWARD_SLASH] ++ file ++ [c])
    with ((dir ++ [CHAR_FORWARD_SLASH]) ++ (file ++ [c]) ++ [])
    by (rewrite app_nil_r; list_norm; reflexivity).
  rewrite <- (slice_middle (dir ++ [CHAR_FORWARD_SLASH]) (file ++ [c]) []) at 2.
  f_equal; rewrite !length_app; cbn [length]; lia.
Qed.

Lemma playlist_name_ordinary (name : jsstring) :
  slash_free name -> ordinary (name ++ js ".m3u8").
Proof.
  intros Hs. split; [by destruct name|]. split.
  - apply Forall_app. split; [done|]. repeat constructor; discriminate.
  - split; intros H%(f_equal length); rewrite length_app in H; cbn in H; lia.
Qed.

Lemma entry_of_fields (res : object) :
  get (entry_of res) "name" = get res "name"
  /\ get (entry_of res) "bitrate" = get res "bitrate"
  /\ get (entry_of res) "playlist" = VString (playlist_of res)
  /\ get (entry_of res) "width" = VUndefined
  /\ get (entry_of res) "height" = VUndefined.
Proof. repeat split; reflexivity. Qed.

(** X18: whatever the profile, the entry that the loop pushes on
    [playlists] carries the name, the bitrate and the playlist path only: it
    has no width and no height, so its stream-information line reads
    [RESOLUTION=undefinedxundefined]; the playlist lies at
    [/tmp/output/<name>.m3u8] and the master playlist lists its bare name. *)
Theorem pushed_entry_has_no_size (w : world) (res : object) (s : state) :
  let name := to_string (get res "name") in
  exists entry,
    playlists (encode_one w res s).2 = playlists s ++ [entry]
    /\ get entry "name" = get res "name"
    /\ get entry "bitrate" = get res "bitrate"
    /\ get entry "width" = VUndefined
    /\ get entry "height" = VUndefined
    /\ (slash_free name ->
        get entry "playlist" = VString (js "/tmp/output/" ++ name ++ js ".m3u8")
        /\ stream_inf entry
           = js "#EXT-X-STREAM-INF:BANDWIDTH="
             ++ JS.number_to_string
                  (JS.times (JS.parseInt (to_string (get res "bitrate")) (Some 10)) 1000)
             ++ js ",RESOLUTION=undefinedxundefined" ++ newline ++ name ++ js ".m3u8").
Proof.
  intros name. exists (entry_of res).
  destruct (entry_of_fields res) as (Hn & Hb & Hp & Hw & Hh).
  rewrite encode_one_run. cbv zeta. cbn [snd after_encode playlists].
  repeat (split; [done|]).
  intros Hs.
  assert (Hpl : playlist_of res = js "/tmp/output/" ++ name ++ js ".m3u8").
  { unfold playlist_of. fold name. apply join_output_dir. by apply playlist_name_ordinary. }
  rewrite Hp, Hpl. split; [done|].
  unfold stream_inf. rewrite Hb, Hw, Hh, Hp, Hpl. cbn [to_string].
  change (js "/tmp/output/" ++ name ++ js ".m3u8")
    with (js "/tmp/output" ++ js "/" ++ name ++ js ".m3u8").
  rewrite basename_of_path; [|by destruct name|apply (playlist_name_ordinary name Hs)].
  reflexivity.
Qed.

(** ** What is done only after what *)







(** ** The base name of an accepted key *)

Lemma extname_first_dot (P pre : jsstring) (n : nat) :
  P = pre ++ [CHAR_DOT] -> n = S (length pre) ->
  Path.extname_loop P n (-1) 0 (-1) true 0
  = Path.extname_loop P (length pre) (Z.of_nat (length pre)) 0 (Z.of_nat n) false 0.
Proof.
  intros -> ->. cbn [Path.extname_loop]. rewrite charCodeAt_middle. cbn.
  by replace (Z.of_nat (length pre) + 1)%Z with (Z.pos (Pos.of_succ_nat (length pre))) by lia.
Qed.

(** A file name that ends in a dot has the extension [.]. *)
Lemma extname_trailing_dot (dir stem : jsstring) :
  (2 <= length stem)%nat -> slash_free stem ->
  Path.extname (dir ++ js "/" ++ stem ++ js ".") = js ".".
Proof.
  intros Hl Hs. unfold Path.extname.
  change (js "/") with [CHAR_FORWARD_SLASH]. change (js ".") with [CHAR_DOT].
  set (P := dir ++ [CHAR_FORWARD_SLASH] ++ stem ++ [CHAR_DOT]).
  rewrite (extname_first_dot P (dir ++ [CHAR_FORWARD_SLASH] ++ stem))
    by ((subst P; list_norm; reflexivity) || (subst P; length_norm)).
  destruct (extname_stem_at P stem (dir ++ [CHAR_FORWARD_SLASH]) [CHAR_DOT]
              (length (dir ++ [CHAR_FORWARD_SLASH] ++ stem))
              (Z.of_nat (length (dir ++ [CHAR_FORWARD_SLASH] ++ stem))) 0
              (Z.of_nat (length P)) 0)
    as (pds & -> & Hpds);
    try done; try (subst P; list_norm; reflexivity); try length_norm.
  { intros ->. cbn in Hl. lia. }
  rewrite (extname_slash P dir (stem ++ [CHAR_DOT]))
    by ((subst P; list_norm; reflexivity) || length_norm).
  apply Z.eqb_neq in Hpds. rewrite Hpds.
  replace (_ =? -1)%Z with false by (symmetry; apply Z.eqb_neq; lia).
  replace (Z.of_nat (length P) =? -1)%Z with false by (symmetry; apply Z.eqb_neq; lia).
  replace (Z.of_nat (length (dir ++ [CHAR_FORWARD_SLASH] ++ stem))
           =? Z.of_nat (length dir) + 1 + 1)%Z with false
    by (symmetry; apply Z.eqb_neq; rewrite !length_app; cbn [length]; lia).
  rewrite andb_false_r. cbn [orb andb].
  subst P.
  replace (dir ++ [CHAR_FORWARD_SLASH] ++ stem ++ [CHAR_DOT])
    with ((dir ++ [CHAR_FORWARD_SLASH] ++ stem) ++ [CHAR_DOT] ++ [])
    by (list_norm; reflexivity).
  rewrite <- (slice_middle (dir ++ [CHAR_FORWARD_SLASH] ++ stem) [CHAR_DOT] []) at 3.
  f_equal; rewrite !length_app; cbn [length]; lia.
Qed.

Lemma basename_first_only (P suffix pre : jsstring) (c : N) (n : nat) :
  P = pre ++ [c] -> suffix = [c] -> n = S (length pre) -> c <> CHAR_FORWARD_SLASH ->
  Path.basename_suffix_loop P suffix n 0 (-1) true 0 (-1)
  = Path.basename_suffix_loop P suffix (length pre) 0 (Z.of_nat (length pre)) false
      (-1) (Z.of_nat n).
Proof.
  intros -> -> -> Hc%N.eqb_neq. cbn [Path.basename_suffix_loop].
  rewrite charCodeAt_middle, Hc. cbn [Z.eqb Z.leb Z.compare Z.to_nat].
  unfold JS.charCodeAt at 1. cbn [lookup list_lookup default]. rewrite N.eqb_refl.
  cbn [Z.sub Z.add Z.opp Z.pos_sub Z.eqb Pos.eqb].
  replace (Z.of_nat (length pre) + 1)%Z with (Z.of_nat (S (length pre))) by lia.
  reflexivity.
Qed.

Lemma basename_trailing_dot (dir stem : jsstring) :
  stem <> [] -> slash_free stem ->
  Path.basename (dir ++ js "/" ++ stem ++ js ".") (Some (js ".")) = stem.
Proof.
  intros Hne Hs. unfold Path.basename.
  change (js "/") with [CHAR_FORWARD_SLASH]. change (js ".") with [CHAR_DOT].
  set (P := dir ++ [CHAR_FORWARD_SLASH] ++ stem ++ [CHAR_DOT]).
  assert (HL : length P = (length dir + 1 + length stem + 1)%nat) by (subst P; length_norm).
  replace ((0 <? length [CHAR_DOT])%nat && (length [CHAR_DOT] <=? length P)%nat) with true
    by (symmetry; apply andb_true_iff; split;
        [reflexivity|apply Nat.leb_le; cbn [length]; lia]).
  rewrite bool_decide_eq_false_2
    by (intros H%(f_equal length); rewrite HL in H; cbn [length] in H; lia).
  change (Z.of_nat (length [CHAR_DOT]) - 1)%Z with 0%Z.
  rewrite (basename_first_only P [CHAR_DOT] (dir ++ [CHAR_FORWARD_SLASH] ++ stem) CHAR_DOT)
    by (done || (subst P; list_norm; reflexivity) || (subst P; length_norm)).
  rewrite (basename_skip_at P [CHAR_DOT] stem (dir ++ [CHAR_FORWARD_SLASH]) [CHAR_DOT])
    by (done || (subst P; list_norm; reflexivity) || length_norm).
  rewrite (basename_slash P [CHAR_DOT] dir (stem ++ [CHAR_DOT]))
    by ((subst P; list_norm; reflexivity) || length_norm).
  replace (_ =? _)%Z with false
    by (symmetry; apply Z.eqb_neq; rewrite !length_app; cbn [length];
        destruct stem; [done|cbn [length]; lia]).
  replace (_ =? -1)%Z with false by (symmetry; apply Z.eqb_neq; lia).
  subst P.
  replace (dir ++ [CHAR_FORWARD_SLASH] ++ stem ++ [CHAR_DOT])
    with ((dir ++ [CHAR_FORWARD_SLASH]) ++ stem ++ [CHAR_DOT]) by (list_norm; reflexivity).
  rewrite <- (slice_middle (dir ++ [CHAR_FORWARD_SLASH]) stem [CHAR_DOT]) at 3.
  f_equal; rewrite !length_app; cbn [length]; lia.
Qed.

Lemma last_dot_split (s : jsstring) :
  Forall (fun c => c <> CHAR_DOT) s
  \/ exists a b, s = a ++ [CHAR_DOT] ++ b /\ Forall (fun c => c <> CHAR_DOT) b.
Proof.
  induction s as [|c s IH] using rev_ind; [left; constructor|].
  destruct (decide (c = CHAR_DOT)) as [->|Hc].
  - right. exists s, []. split; [done|constructor].
  - destruct IH as [IH|(a & b & -> & Hb)].
    + left. apply Forall_app. split; [done|]. by constructor.
    + right. exists a, (b ++ [c]). split; [by rewrite <- !app_assoc|].
      apply Forall_app. split; [done|]. by constructor.
Qed.

(** The file name cut at its last dot. *)
Lemma file_name_cut (dir stem ext : jsstring) :
  stem <> [] -> slash_free stem -> Forall plain ext ->
  (ext = [] -> (2 <= length stem)%nat) ->
  Path.extname (dir ++ js "/" ++ stem ++ js "." ++ ext) = js "." ++ ext
  /\ rawFilename_of (dir ++ js "/" ++ stem ++ js "." ++ ext) = stem.
Proof.
  intros Hne Hs He Hl. destruct ext as [|c ext].
  - rewrite app_nil_r. unfold rawFilename_of.
    rewrite extname_trailing_dot by auto. split; [done|].
    by apply basename_trailing_dot.
  - split; [by apply extname_of_file|by apply rawFilename_strips_extension].
Qed.

(** X20: for every key that passes validation, the extension is what follows
    the last dot of the file name (the dot alone when the name ends in a
    dot), the raw file name is what precedes that dot, and the base name is
    its sanitized form. *)
Theorem base_name_of_accepted_key (k : jsstring) :
  Regex.matches sourceKeyPattern k = true ->
  exists owner stem ext,
    k = js "source/" ++ owner ++ js "/" ++ stem ++ js "." ++ ext
    /\ segment owner /\ segment stem /\ Forall plain ext
    /\ Path.extname k = js "." ++ ext
    /\ rawFilename_of k = stem
    /\ baseFilename_of k = sanitizeFilename stem.
Proof.
  intros (owner & base & ext0 & -> & Ho & [Hb1 Hb2] & [He1 He2])%sourceKeyPattern_well_formed.
  assert (Hcut : exists stem ext,
             base ++ js "." ++ ext0 = stem ++ js "." ++ ext
             /\ segment stem /\ Forall plain ext
             /\ (ext = [] -> (2 <= length stem)%nat)).
  { destruct (last_dot_split ext0) as [Hd|(a & b & -> & Hd)].
    - exists base, ext0. split; [done|]. split; [done|]. split; [|done].
      apply Forall_forall. intros c Hc. split.
      + by eapply Forall_forall in He2.
      + by eapply Forall_forall in Hd.
    - apply Forall_app in He2 as [Ha [_ Hb]%Forall_app].
      exists (base ++ js "." ++ a), b. split; [by rewrite <- !app_assoc|].
      split; [split|split].
      + by destruct base.
      + apply Forall_app. split; [done|]. apply Forall_app. split; [|done].
        repeat constructor; discriminate.
      + apply Forall_forall. intros c Hc. split.
        * by eapply Forall_forall in Hb.
        * by eapply Forall_forall in Hd.
      + intros _. rewrite !length_app. destruct base; [done|]. cbn. lia. }
  destruct Hcut as (stem & ext & Heq & [Hs1 Hs2] & He & Hl).
  exists owner, stem, ext.
  assert (Hk : js "source/" ++ owner ++ js "/" ++ base ++ js "." ++ ext0
               = (js "source/" ++ owner) ++ js "/" ++ stem ++ js "." ++ ext)
    by (rewrite Heq, <- !app_assoc; reflexivity).
  destruct (file_name_cut (js "source/" ++ owner) stem ext Hs1 Hs2 He Hl) as [Hx Hr].
  rewrite Hk. split; [by rewrite <- !app_assoc|].
  split; [done|]. split; [done|]. split; [done|]. split; [done|]. split; [done|].
  unfold baseFilename_of. by rewrite Hr.
Qed.

Lemma base_name_of_accepted_key_witness :
  exists owner stem ext,
    js "source/u1/archive.tar." = js "source/" ++ owner ++ js "/" ++ stem ++ js "." ++ ext
    /\ segment owner /\ segment stem /\ Forall plain ext
    /\ Path.extname (js "source/u1/archive.tar.") = js "." ++ ext
    /\ rawFilename_of (js "source/u1/archive.tar.") = stem
    /\ baseFilename_of (js "source/u1/archive.tar.") = sanitizeFilename stem.
Proof. apply (base_name_of_accepted_key (js "source/u1/archive.tar.")). reflexivity. Defined.

(** ** Numbers read from a bitrate *)

Lemma digit_facts (c : N) :
  is_digit c = true ->
  JS.is_whitespace c = false /\ (c =? CHAR_HYPHEN) = false /\ (c =? CHAR_PLUS) = false
  /\ JS.digit_value c = Some (c - 48) /\ c - 48 < 10 /\ (c =? 120) = false
  /\ (c =? 88) = false.
Proof.
  unfold is_digit, in_range. intros [H1%N.leb_le H2%N.leb_le]%andb_true_iff.
  assert (Hw : JS.is_whitespace c = false).
  { unfold JS.is_whitespace, in_range.
    repeat (apply orb_false_iff; split);
      try (apply N.eqb_neq; lia);
      apply andb_false_iff; (left; apply N.leb_gt; lia) || (right; apply N.leb_gt; lia). }
  assert (Hd : JS.digit_value c = Some (c - 48)).
  { unfold JS.digit_value, in_range.
    replace (48 <=? c) with true by (symmetry; apply N.leb_le; lia).
    by replace (c <=? 57) with true by (symmetry; apply N.leb_le; lia). }
  repeat split; try done; try (apply N.eqb_neq; unfold CHAR_HYPHEN, CHAR_PLUS; lia); lia.
Qed.

Lemma digits_prefix_digits (ds rest : jsstring) (c : N) :
  Forall (fun c => is_digit c = true) ds -> JS.digit_value c = None \/ (exists d, JS.digit_value c = Some d /\ 10 <= d) ->
  JS.digits_prefix 10 (ds ++ c :: rest) = (fun c => c - 48) <$> ds.
Proof.
  intros Hds Hc. induction Hds as [|d ds Hd _ IH].
  - cbn. destruct Hc as [->|(d & -> & Hd)]; [done|].
    by replace (d <? 10) with false by (symmetry; apply N.ltb_ge; lia).
  - destruct (digit_facts d Hd) as (_ & _ & _ & Hv & Hlt & _).
    cbn [app JS.digits_prefix]. rewrite Hv.
    replace (d - 48 <? 10) with true by (symmetry; apply N.ltb_lt; lia).
    cbn [fmap list_fmap]. f_equal. exact IH.
Qed.

Lemma digits_value_number (ds : jsstring) :
  JS.digits_value 10 ((fun c => c - 48) <$> ds) = digits_number ds.
Proof.
  unfold JS.digits_value, digits_number. generalize 0.
  induction ds as [|d ds IH]; intros acc; [done|]. cbn. apply IH.
Qed.

(** [parseInt] of digits followed by the unit letter. *)
Lemma parseInt_digits (ds rest : jsstring) (radix : option N) :
  ds <> [] -> Forall (fun c => is_digit c = true) ds ->
  radix = None \/ radix = Some 10 ->
  JS.parseInt (ds ++ js "k" ++ rest) radix = Some (Z.of_N (digits_number ds)).
Proof.
  intros Hne Hds Hr.
  destruct ds as [|d ds]; [done|]. apply Forall_cons in Hds as [Hd Hds].
  destruct (digit_facts d Hd) as (Hw & Hh & Hp & Hv & Hlt & Hx1 & Hx2).
  assert (Hk : JS.digit_value 107 = None \/ (exists d, JS.digit_value 107 = Some d /\ 10 <= d))
    by (right; exists 20; split; [reflexivity|lia]).
  assert (Hpre : JS.digits_prefix 10 ((d :: ds) ++ js "k" ++ rest)
                 = (fun c => c - 48) <$> (d :: ds)).
  { change (js "k" ++ rest) with (107 :: rest).
    apply digits_prefix_digits; [by constructor|done]. }
  unfold JS.parseInt. cbn [app JS.skip_whitespace]. rewrite Hw, Hh, Hp.
  assert (Hstrip : forall b : bool,
             (let '(r, s) :=
                match d :: ds ++ js "k" ++ rest with
                | z :: x :: rest0 =>
                    if b && (z =? 48) && ((x =? 120) || (x =? 88)) then (16, rest0)
                    else (10, d :: ds ++ js "k" ++ rest)
                | _ => (10, d :: ds ++ js "k" ++ rest)
                end in
              match JS.digits_prefix r s with
              | [] => None
              | ds0 => Some (1 * Z.of_N (JS.digits_value r ds0))%Z
              end)
             = Some (Z.of_N (digits_number (d :: ds)))).
  { intros b.
    assert (Hsecond : match ds ++ js "k" ++ rest with
                      | x :: _ => ((x =? 120) || (x =? 88)) = false
                      | [] => True
                      end).
    { destruct ds as [|e ds']; [reflexivity|].
      apply Forall_cons in Hds as [He _].
      destruct (digit_facts e He) as (_ & _ & _ & _ & _ & Hy1 & Hy2).
      cbn [app]. by rewrite Hy1, Hy2. }
    destruct (ds ++ js "k" ++ rest) as [|x rest0] eqn:E.
    - destruct ds; discriminate E.
    - rewrite Hsecond, andb_false_r.
      rewrite <- E. cbn [app] in Hpre. rewrite Hpre.
      cbn [fmap list_fmap]. rewrite <- (digits_value_number (d :: ds)).
      cbn [fmap list_fmap]. f_equal. lia. }
  destruct Hr as [-> | ->]; [exact (Hstrip true)|exact (Hstrip false)].
Qed.

Lemma uint_digits (d : Decimal.uint) :
  Forall (fun c => is_digit c = true) (js (DecimalString.NilEmpty.string_of_uint d)).
Proof. induction d; cbn; constructor; done. Qed.

Lemma uint_number_acc (d : Decimal.uint) (acc : positive) :
  fold_left (fun acc c => acc * 10 + (c - 48))
    (js (DecimalString.NilEmpty.string_of_uint d)) (N.pos acc)
  = N.pos (Pos.of_uint_acc d acc).
Proof.
  revert acc. induction d; intros acc; [done|..];
    cbn [DecimalString.NilEmpty.string_of_uint Pos.of_uint_acc];
    change (js (String.String ?c ?s)) with (N_of_ascii c :: js s);
    cbn [fold_left]; rewrite <- IHd; f_equal; cbn; lia.
Qed.

Lemma uint_number (d : Decimal.uint) :
  digits_number (js (DecimalString.NilEmpty.string_of_uint d)) = Pos.of_uint d.
Proof.
  unfold digits_number. induction d; [done|..];
    cbn [DecimalString.NilEmpty.string_of_uint Pos.of_uint];
    change (js (String.String ?c ?s)) with (N_of_ascii c :: js s);
    cbn [fold_left]; [exact IHd|..]; apply uint_number_acc.
Qed.

(** The decimal text of a natural number, read back. *)
Lemma decimal_digits (n : N) :
  JS.decimal (Z.of_N n) <> []
  /\ Forall (fun c => is_digit c = true) (JS.decimal (Z.of_N n))
  /\ digits_number (JS.decimal (Z.of_N n)) = n.
Proof.
  destruct n as [|p].
  - split; [done|]. split; [|reflexivity]. repeat constructor.
  - unfold JS.decimal. cbn [Z.of_N Z.to_int DecimalString.NilZero.string_of_int].
    pose proof (DecimalPos.Unsigned.of_to p) as Hp.
    unfold DecimalString.NilZero.string_of_uint.
    destruct (Pos.to_uint p) eqn:E; try discriminate Hp;
      (split; [done|]);
      (split; [rewrite <- E|]);
      try apply uint_digits;
      rewrite <- Hp, <- E; apply uint_number.
Qed.

(** X21: for an object whose bitrate is written [<n>k], [n] a natural number
    in decimal digits, [parseInt] reads [n]: the stream-information line
    announces [BANDWIDTH=<n * 1000>], and the encoder is given the bitrate
    with its unit for [-b:v] and [-maxrate] but the bare half of the number
    for [-bufsize] (with [.5] when [n] is odd). *)
Theorem rates_of_bitrate (n : N) (o : object) (segmentFilename playlist : jsstring) :
  get o "bitrate" = VString (JS.decimal (Z.of_N n) ++ js "k") ->
  (Z.of_N n * 1000 < 2 ^ 53)%Z ->
  let bitrate := JS.decimal (Z.of_N n) ++ js "k" in
  let half := JS.decimal (Z.of_N (n / 2)) ++ (if N.even n then [] else js ".5") in
  JS.parseInt (to_string (get o "bitrate")) (Some 10) = Some (Z.of_N n)
  /\ JS.parseInt (to_string (get o "bitrate")) None = Some (Z.of_N n)
  /\ (exists rest,
        stream_inf o
        = js "#EXT-X-STREAM-INF:BANDWIDTH=" ++ JS.decimal (Z.of_N n * 1000)
          ++ js ",RESOLUTION=" ++ rest)
  /\ (exists pre,
        ffmpeg_command o segmentFilename playlist
        = pre ++ js "-b:v " ++ bitrate ++ js " -maxrate " ++ bitrate ++ js " -bufsize "
          ++ half ++ js " " ++ continuation ++ js "-hls_segment_filename "
          ++ segmentFilename ++ js " " ++ playlist).
Proof.
  intros Hb _ bitrate half.
  destruct (decimal_digits n) as (Hne & Hds & Hn).
  assert (Hp : forall radix, radix = None \/ radix = Some 10 ->
                 JS.parseInt (to_string (get o "bitrate")) radix = Some (Z.of_N n)).
  { intros radix Hr. rewrite Hb. cbn [to_string].
    rewrite <- (app_nil_r (js "k")).
    rewrite (parseInt_digits (JS.decimal (Z.of_N n)) [] radix) by done.
    by rewrite Hn. }
  split; [apply Hp; by right|]. split; [apply Hp; by left|]. split.
  - eexists. unfold stream_inf. rewrite (Hp (Some 10)) by by right.
    cbn [JS.times fmap option_fmap option_map JS.number_to_string]. reflexivity.
  - unfold ffmpeg_command. cbv zeta. rewrite (Hp None) by by left.
    rewrite Hb. cbn [to_string]. fold bitrate.
    assert (Hh : JS.half_to_string (Some (Z.of_N n)) = half).
    { unfold JS.half_to_string, half.
      replace (Z.even (Z.of_N n)) with (N.even n)
        by (destruct n as [|[p|p|]]; reflexivity).
      destruct (N.even n).
      - rewrite app_nil_r. f_equal. rewrite (N2Z.inj_quot n 2). reflexivity.
      - replace (Z.of_N n <? 0)%Z with false by (symmetry; apply Z.ltb_ge; lia).
        rewrite Z.abs_eq by lia. cbn [app]. f_equal. f_equal.
        rewrite (N2Z.inj_quot n 2). reflexivity. }
    rewrite Hh.
    set (tail := js "-b:v " ++ bitrate ++ js " -maxrate " ++ bitrate ++ js " -bufsize "
                 ++ half ++ js " " ++ continuation ++ js "-hls_segment_filename "
                 ++ segmentFilename ++ js " " ++ playlist).
    change (tail `suffix_of` FFMPEG_PATH ++ js " -i " ++ TEMP_INPUT_FILE ++ js " "
            ++ continuation ++ js "-vf " ++ quote ++ js "scale=w=trunc(iw*"
            ++ (js "min(1\,min(" ++ to_string (get o "width") ++ js "/iw\,"
                ++ to_string (get o "height") ++ js "/ih))")
            ++ js "):h=trunc(ih*"
            ++ (js "min(1\,min(" ++ to_string (get o "width") ++ js "/iw\,"
                ++ to_string (get o "height") ++ js "/ih))")
            ++ js "):force_original_aspect_ratio=decrease,pad=ceil(iw/2)*2:ceil(ih/2)*2"
            ++ quote ++ js " " ++ continuation ++ js "-c:a aac -ar 48000 -b:a 128k "
            ++ continuation
            ++ js "-c:v h264 -profile:v main -preset veryslow -tune film -crf 23 "
            ++ continuation ++ js "-sc_threshold 0 -g 48 -keyint_min 48 " ++ continuation
            ++ js "-hls_time 4 -hls_playlist_type vod " ++ continuation ++ tail).
    do 23 apply suffix_app_r. reflexivity.
Qed.

Lemma rates_of_bitrate_witness :
  exists pre,
    command_of 0 "1080p"
    = pre ++ js "-b:v " ++ js "5000k" ++ js " -maxrate " ++ js "5000k" ++ js " -bufsize "
      ++ js "2500" ++ js " " ++ continuation ++ js "-hls_segment_filename "
      ++ js "/tmp/output/1080p_%03d.ts" ++ js " " ++ js "/tmp/output/1080p.m3u8".
Proof.
  destruct (rates_of_bitrate 5000 (profile 0) (js "/tmp/output/1080p_%03d.ts")
              (js "/tmp/output/1080p.m3u8") eq_refl eq_refl) as (_ & _ & _ & pre & H).
  exists pre. exact H.
Defined.

(** ** Decoding a URL-encoded key *)

Lemma hex_value_digit (d : N) : d < 16 -> JS.hex_value (hex_digit d) = Some d.
Proof.
  intros Hd. unfold hex_digit, JS.hex_value, JS.digit_value, in_range.
  destruct (d <? 10) eqn:E.
  - apply N.ltb_lt in E.
    replace (48 <=? 48 + d) with true by (symmetry; apply N.leb_le; lia).
    replace (48 + d <=? 57) with true by (symmetry; apply N.leb_le; lia).
    cbn [andb]. replace (48 + d - 48) with d by lia.
    by replace (d <? 16) with true by (symmetry; apply N.ltb_lt; lia).
  - apply N.ltb_ge in E.
    replace (55 + d <=? 57) with false by (symmetry; apply N.leb_gt; lia).
    rewrite andb_false_r.
    replace (65 <=? 55 + d) with true by (symmetry; apply N.leb_le; lia).
    replace (55 + d <=? 90) with true by (symmetry; apply N.leb_le; lia).
    cbn [andb]. replace (55 + d - 55) with d by lia.
    by replace (d <? 16) with true by (symmetry; apply N.ltb_lt; lia).
Qed.

Lemma parse_escape_encoded (b : N) (rest : jsstring) :
  b < 256 -> JS.parse_escape (percent_encode b ++ rest) = Some (b, rest).
Proof.
  intros Hb. unfold percent_encode. cbn [app JS.parse_escape].
  rewrite N.eqb_refl.
  assert (b / 16 < 16) by (apply N.Div0.div_lt_upper_bound; lia).
  assert (b mod 16 < 16) by (apply N.mod_lt; lia).
  rewrite !hex_value_digit by done.
  f_equal. f_equal. symmetry. apply N.div_mod. lia.
Qed.

Lemma parse_escapes_encoded (bs : list N) (rest : jsstring) :
  Forall (fun b => b < 256) bs ->
  JS.parse_escapes (length bs) (List.concat (percent_encode <$> bs) ++ rest)
  = Some (bs, rest).
Proof.
  induction 1 as [|b bs Hb _ IH]; [done|].
  cbn [length JS.parse_escapes fmap list_fmap List.concat].
  rewrite <- app_assoc, parse_escape_encoded by done.
  by rewrite IH.
Qed.

Lemma decode_cons (fuel : nat) (c : N) (rest : jsstring) :
  JS.decode (S fuel) (c :: rest)
  = if c =? CHAR_PERCENT then
      match JS.parse_escape (c :: rest) with
      | None => None
      | Some (b, rest1) =>
          match JS.leading_ones b with
          | 0%nat => cons b <$> JS.decode fuel rest1
          | 1%nat => None
          | S (S (S (S (S _)))) => None
          | S k as n =>
              match JS.parse_escapes k rest1 with
              | None => None
              | Some (conts, rest2) =>
                  match JS.utf8_code_point n b conts with
                  | None => None
                  | Some cp => app (JS.utf16_encode cp) <$> JS.decode fuel rest2
                  end
              end
          end
      end
    else cons c <$> JS.decode fuel rest.
Proof. reflexivity. Qed.

(** One escape sequence at the head of the text. *)
Lemma decode_escape (s rest1 : jsstring) (b : N) :
  JS.parse_escape s = Some (b, rest1) ->
  JS.decodeURIComponent s
  = match JS.leading_ones b with
    | 0%nat => cons b <$> JS.decodeURIComponent rest1
    | 1%nat => None
    | S (S (S (S (S _)))) => None
    | S k as n =>
        match JS.parse_escapes k rest1 with
        | None => None
        | Some (conts, rest2) =>
            match JS.utf8_code_point n b conts with
            | None => None
            | Some cp => app (JS.utf16_encode cp) <$> JS.decodeURIComponent rest2
            end
        end
    end.
Proof.
  intros Hp. pose proof (parse_escape_length _ _ _ Hp) as Hl.
  destruct s as [|p [|h [|l s']]]; try done.
  assert (Hpc : (p =? CHAR_PERCENT) = true).
  { unfold JS.parse_escape in Hp. by destruct (p =? CHAR_PERCENT). }
  unfold JS.decodeURIComponent at 1. cbn [length]. rewrite decode_cons, Hpc, Hp.
  cbn [length] in Hl.
  destruct (JS.leading_ones b) as [|[|k]]; [|done|].
  - by rewrite decode_fuel by lia.
  - destruct k as [|[|[|k]]]; try done;
      (destruct (JS.parse_escapes _ rest1) as [[conts rest2]|] eqn:E2; [|done];
       apply parse_escapes_length in E2;
       destruct (JS.utf8_code_point _ b conts); [|done];
       by rewrite decode_fuel by lia).
Qed.

Lemma leading_ones_spec (b : N) :
  (b < 0x80 -> JS.leading_ones b = 0%nat)
  /\ (0xC0 <= b < 0xE0 -> JS.leading_ones b = 2%nat)
  /\ (0xE0 <= b < 0xF0 -> JS.leading_ones b = 3%nat)
  /\ (0xF0 <= b < 0xF8 -> JS.leading_ones b = 4%nat).
Proof.
  unfold JS.leading_ones. repeat split; intros H;
    repeat match goal with
           | |- context [?x <? ?y] =>
               first [ replace (x <? y) with true by (symmetry; apply N.ltb_lt; lia)
                     | replace (x <? y) with false by (symmetry; apply N.ltb_ge; lia) ]
           end; reflexivity.
Qed.

Lemma continuation_octet (r : N) : r < 64 -> JS.is_continuation (0x80 + r) = true.
Proof.
  intros Hr. unfold JS.is_continuation, in_range.
  apply andb_true_iff. split; apply N.leb_le; lia.
Qed.

Lemma fmap_app_one (c : N) (o : option jsstring) : app [c] <$> o = cons c <$> o.
Proof. by destruct o. Qed.

(** The code point of a well-formed sequence of two, three or four octets. *)
Lemma code_point_encoded (cp : N) :
  scalar_value cp = true -> 0x80 <= cp ->
  match utf8_encode cp with
  | b :: conts =>
      b < 256 /\ Forall (fun c => c < 256) conts
      /\ JS.leading_ones b = S (length conts)
      /\ (1 <= length conts <= 3)%nat
      /\ JS.utf8_code_point (S (length conts)) b conts = Some cp
  | [] => False
  end.
Proof.
  unfold scalar_value, in_range.
  intros [Hmax%N.leb_le Hsur%negb_true_iff]%andb_true_iff Hmin.
  pose proof (N.div_mod cp 64 ltac:(lia)) as E1.
  pose proof (N.mod_lt cp 64 ltac:(lia)) as R1.
  pose proof (N.div_mod (cp / 64) 64 ltac:(lia)) as E2.
  pose proof (N.mod_lt (cp / 64) 64 ltac:(lia)) as R2.
  pose proof (N.div_mod (cp / 64 / 64) 64 ltac:(lia)) as E3.
  pose proof (N.mod_lt (cp / 64 / 64) 64 ltac:(lia)) as R3.
  unfold utf8_encode.
  replace (cp <? 0x80) with false by (symmetry; apply N.ltb_ge; lia).
  set (q1 := cp / 64) in *. set (r1 := cp mod 64) in *.
  set (q2 := q1 / 64) in *. set (r2 := q1 mod 64) in *.
  set (q3 := q2 / 64) in *. set (r3 := q2 mod 64) in *.
  clearbody q1 r1 q2 r2 q3 r3.
  assert (Hok : (cp <=? 0x10FFFF) = true) by (apply N.leb_le; lia).
  destruct (cp <? 0x800) eqn:L2; [|destruct (cp <? 0x10000) eqn:L3].
  - apply N.ltb_lt in L2.
    split; [lia|]. split; [repeat constructor; lia|].
    split; [apply leading_ones_spec; lia|]. split; [cbn; lia|].
    unfold JS.utf8_code_point. cbn [length forallb fold_left].
    rewrite continuation_octet by done. cbn [andb].
    replace ((0xC0 + q1 - 0xC0) * 64 + (0x80 + r1 - 0x80)) with cp by lia.
    rewrite Hok. unfold in_range. rewrite Hsur.
    by replace (0x80 <=? cp) with true by (symmetry; apply N.leb_le; lia).
  - apply N.ltb_ge in L2. apply N.ltb_lt in L3.
    split; [lia|]. split; [repeat constructor; lia|].
    split; [apply leading_ones_spec; lia|]. split; [cbn; lia|].
    unfold JS.utf8_code_point. cbn [length forallb fold_left].
    rewrite !continuation_octet by done. cbn [andb].
    replace (((0xE0 + q2 - 0xE0) * 64 + (0x80 + r2 - 0x80)) * 64 + (0x80 + r1 - 0x80))
      with cp by lia.
    rewrite Hok. unfold in_range. rewrite Hsur.
    by replace (0x800 <=? cp) with true by (symmetry; apply N.leb_le; lia).
  - apply N.ltb_ge in L2, L3.
    split; [lia|]. split; [repeat constructor; lia|].
    split; [apply leading_ones_spec; lia|]. split; [cbn; lia|].
    unfold JS.utf8_code_point. cbn [length forallb fold_left].
    rewrite !continuation_octet by done. cbn [andb].
    replace ((((0xF0 + q3 - 0xF0) * 64 + (0x80 + r3 - 0x80)) * 64 + (0x80 + r2 - 0x80)) * 64
             + (0x80 + r1 - 0x80)) with cp by lia.
    rewrite Hok. unfold in_range. rewrite Hsur.
    by replace (0x10000 <=? cp) with true by (symmetry; apply N.leb_le; lia).
Qed.

(** The escaped octets of one character, decoded. *)
Lemma decode_encoded (cp : N) (rest : jsstring) :
  scalar_value cp = true ->
  JS.decodeURIComponent (List.concat (percent_encode <$> utf8_encode cp) ++ rest)
  = app (JS.utf16_encode cp) <$> JS.decodeURIComponent rest.
Proof.
  intros Hs. destruct (decide (cp < 0x80)) as [Hlow|Hhigh].
  - unfold utf8_encode.
    replace (cp <? 0x80) with true by (symmetry; apply N.ltb_lt; lia).
    cbn [fmap list_fmap List.concat]. rewrite app_nil_r.
    rewrite (decode_escape _ rest cp) by (apply parse_escape_encoded; lia).
    rewrite (proj1 (leading_ones_spec cp) Hlow).
    unfold JS.utf16_encode.
    replace (cp <? 0x10000) with true by (symmetry; apply N.ltb_lt; lia).
    by rewrite fmap_app_one.
  - pose proof (code_point_encoded cp Hs ltac:(lia)) as H.
    destruct (utf8_encode cp) as [|b conts]; [done|].
    destruct H as (Hb & Hconts & Hlead & Hlen & Hcp).
    cbn [fmap list_fmap List.concat]. rewrite <- app_assoc.
    rewrite (decode_escape _ (List.concat (percent_encode <$> conts) ++ rest) b)
      by (by apply parse_escape_encoded).
    rewrite Hlead.
    pose proof (parse_escapes_encoded conts rest Hconts) as Hpe.
    destruct conts as [|c1 [|c2 [|c3 [|c4 conts]]]]; cbn [length] in *; try lia;
      by rewrite Hpe, Hcp.
Qed.

Lemma plus_to_space_escape (b : N) :
  b < 256 -> plus_to_space <$> percent_encode b = percent_encode b.
Proof.
  intros Hb. unfold percent_encode. cbn [fmap list_fmap]. f_equal.
  assert (Hd : forall d, d < 16 -> plus_to_space (hex_digit d) = hex_digit d).
  { intros d Hd. unfold plus_to_space, hex_digit, CHAR_PLUS.
    destruct (d <? 10) eqn:E; [apply N.ltb_lt in E|apply N.ltb_ge in E].
    - by replace (48 + d =? 43) with false by (symmetry; apply N.eqb_neq; lia).
    - by replace (55 + d =? 43) with false by (symmetry; apply N.eqb_neq; lia). }
  rewrite !Hd; [done|apply N.mod_lt; lia|apply N.Div0.div_lt_upper_bound; lia].
Qed.

Lemma utf8_octets (cp : N) : scalar_value cp = true -> Forall (fun b => b < 256) (utf8_encode cp).
Proof.
  intros Hs. destruct (decide (cp < 0x80)) as [Hlow|Hhigh].
  - unfold utf8_encode.
    replace (cp <? 0x80) with true by (symmetry; apply N.ltb_lt; lia).
    repeat constructor. lia.
  - pose proof (code_point_encoded cp Hs ltac:(lia)) as H.
    destruct (utf8_encode cp) as [|b conts]; [done|].
    destruct H as (Hb & Hconts & _). by constructor.
Qed.

Lemma plus_to_space_escapes (bs : list N) :
  Forall (fun b => b < 256) bs ->
  plus_to_space <$> List.concat (percent_encode <$> bs) = List.concat (percent_encode <$> bs).
Proof.
  induction 1 as [|b bs Hb _ IH]; [done|].
  cbn [fmap list_fmap List.concat] in *. rewrite fmap_app.
  change (list_fmap N N plus_to_space) with (fmap (M:=list) plus_to_space).
  by rewrite plus_to_space_escape, IH.
Qed.

Lemma decode_literal (c : N) (rest : jsstring) :
  c <> CHAR_PERCENT ->
  JS.decodeURIComponent (c :: rest) = cons c <$> JS.decodeURIComponent rest.
Proof.
  intros Hc. rewrite <- fmap_app_one.
  apply (decode_without_escapes [c] rest). by repeat constructor.
Qed.

(** X22: decoding inverts URL-encoding. For every key made of Unicode scalar
    values, written with [+] for a space, with the characters of a set of
    ASCII characters other than [%] and [+] kept and all others
    percent-escaped as UTF-8, the source key that the handler computes is the
    key itself, in UTF-16. *)
Theorem key_round_trip (keep : N -> bool) (key : list N) :
  (forall c, keep c = true -> c < 0x80 /\ c <> CHAR_PERCENT /\ c <> CHAR_PLUS) ->
  Forall (fun cp => scalar_value cp = true) key ->
  sourceKey_of (url_encode keep key) = Some (List.concat (JS.utf16_encode <$> key)).
Proof.
  intros Hkeep Hkey. unfold sourceKey_of. rewrite replace_plus. unfold url_encode.
  induction Hkey as [|cp key Hcp _ IH]; [done|].
  cbn [fmap list_fmap List.concat]. rewrite fmap_app.
  change (list_fmap N N plus_to_space) with (fmap (M:=list) plus_to_space).
  change (list_fmap N jsstring JS.utf16_encode) with (fmap (M:=list) JS.utf16_encode).
  change (list_fmap N jsstring (url_encode_char keep))
    with (fmap (M:=list) (url_encode_char keep)) in *.
  unfold url_encode_char at 1.
  destruct (cp =? CHAR_SPACE) eqn:Esp.
  - apply N.eqb_eq in Esp as ->. cbn [fmap list_fmap app].
    change (plus_to_space CHAR_PLUS) with CHAR_SPACE.
    rewrite decode_literal by discriminate.
    by rewrite IH.
  - destruct (keep cp) eqn:Ek.
    + destruct (Hkeep cp Ek) as (Hlow & Hpc & Hpl).
      cbn [fmap list_fmap app]. unfold plus_to_space at 1.
      replace (cp =? CHAR_PLUS) with false by (symmetry; by apply N.eqb_neq).
      rewrite decode_literal by done.
      rewrite IH. cbn [fmap option_fmap option_map]. f_equal.
      unfold JS.utf16_encode.
      by replace (cp <? 0x10000) with true by (symmetry; apply N.ltb_lt; lia).
    + rewrite plus_to_space_escapes by by apply utf8_octets.
      rewrite decode_encoded by done. by rewrite IH.
Qed.

Lemma key_round_trip_witness :
  sourceKey_of (url_encode (in_range 0x2D 0x7A)
                  (js "source/u1/my clip " ++ [0xE9; 0x20AC; 0x1F600] ++ js ".mp4"))
  = Some (js "source/u1/my clip " ++ [0xE9; 0x20AC; 0xD83D; 0xDE00] ++ js ".mp4").
Proof.
  apply (key_round_trip (in_range 0x2D 0x7A)
           (js "source/u1/my clip " ++ [0xE9; 0x20AC; 0x1F600] ++ js ".mp4")).
  - intros c Hc. unfold in_range in Hc.
    apply andb_prop in Hc as [Hl%N.leb_le Hu%N.leb_le].
    unfold CHAR_PERCENT, CHAR_PLUS. lia.
  - repeat constructor.
Defined.
